(** * Corporate bond dashboard: panel merge, derived metrics, intervals, summaries

    A shallow embedding of [compute_series.py], [charts.py] and the pure
    functions of [streamlit_app.py].  The pandas
    objects the code manipulates are modelled by what the code relies on:

    - a [DataFrame] is a list of index labels and an ordered list of named
      columns; a cell is [option V], [None] standing for NaN / missing;
    - an index label is a [Stamp]: a calendar date or [NaT], the label
      [pd.to_datetime(..., errors="coerce")] gives a text it cannot parse;
    - values are exact numbers (rationals in the charts, reals where a square
      root is taken); binary rounding of float64 is not part of the model;
    - exceptions are results: a function that can raise returns [Ok] of its
      value or [Raise] of the exception, and the first exception ends the
      computation it occurs in. *)

From Stdlib Require Import String Ascii.
From Stdlib Require Import List ZArith QArith Qminmax Qround Reals Lra Lia.
From Stdlib Require Import Bool Permutation Sorted.
From Stdlib Require Lqa.
Import ListNotations.

Local Open Scope string_scope.
Local Open Scope list_scope.
Local Open Scope Z_scope.

(* ================================================================== *)
(** * pandas primitives *)
(* ================================================================== *)

Module Pandas.

(** A calendar date, the only part of [pd.Timestamp] daily data uses. *)
Record Timestamp : Type := mkTS { year : Z; month : Z; day : Z }.

(** An index label: [Some t] is a date, [None] is [NaT]. *)
Definition Stamp : Type := option Timestamp.
Definition NaT : Stamp := None.

Definition ts_compare (a b : Timestamp) : comparison :=
  match year a ?= year b with
  | Eq => match month a ?= month b with
          | Eq => day a ?= day b
          | c => c
          end
  | c => c
  end.

(** Sorting places [NaT] after every date ([na_position="last"]). *)
Definition stamp_compare (a b : Stamp) : comparison :=
  match a, b with
  | Some x, Some y => ts_compare x y
  | Some _, None => Lt
  | None, Some _ => Gt
  | None, None => Eq
  end.

Definition stamp_leb (a b : Stamp) : bool :=
  match stamp_compare a b with Gt => false | _ => true end.

Definition stamp_ltb (a b : Stamp) : bool :=
  match stamp_compare a b with Lt => true | _ => false end.

Definition stamp_eqb (a b : Stamp) : bool :=
  match stamp_compare a b with Eq => true | _ => false end.

Definition stamp_lt (a b : Stamp) : Prop := stamp_ltb a b = true.
Definition stamp_le (a b : Stamp) : Prop := stamp_leb a b = true.

(** Exceptions the modelled functions raise. *)
Inductive exn : Type :=
| RuntimeError (msg : string)
| IndexError (msg : string)
| ValueError (msg : string)
| TypeError (msg : string)
| InvalidIndexError (msg : string)
| EmptyDataError (msg : string)
| ParserError (msg : string)
| UnicodeDecodeError (msg : string)
| OSError (msg : string).

Inductive result (A : Type) : Type :=
| Ok (a : A)
| Raise (e : exn).
Arguments Ok {A} a.
Arguments Raise {A} e.

Section Frames.
Context {V : Type}.

Record DataFrame : Type := mkDF {
  index : list Stamp;
  columns : list (string * list (option V))
}.

(** Every column is as long as the index. *)
Definition well_formed (df : DataFrame) : Prop :=
  Forall (fun c => length (snd c) = length (index df)) (columns df).

(** [name in df.columns] *)
Definition has_col (df : DataFrame) (name : string) : bool :=
  existsb (fun c => String.eqb (fst c) name) (columns df).

(** [df[name]] *)
Definition get_col (df : DataFrame) (name : string) : option (list (option V)) :=
  option_map snd (find (fun c => String.eqb (fst c) name) (columns df)).

Fixpoint assign (cols : list (string * list (option V))) (name : string)
    (vals : list (option V)) : list (string * list (option V)) :=
  match cols with
  | [] => [(name, vals)]
  | c :: rest =>
      if String.eqb (fst c) name then (name, vals) :: rest
      else c :: assign rest name vals
  end.

(** [df[name] = vals]: replaces the column of that name, else appends. *)
Definition set_col (df : DataFrame) (name : string) (vals : list (option V)) : DataFrame :=
  mkDF (index df) (assign (columns df) name vals).

(** The value a column holds at label [d]; NaN when [d] is not a label
    (what reindexing on [d] gives). *)
Fixpoint loc (idx : list Stamp) (vals : list (option V)) (d : Stamp) : option V :=
  match idx, vals with
  | i :: idx', v :: vals' => if stamp_eqb i d then v else loc idx' vals' d
  | _, _ => None
  end.

(** Stable insertion sort of rows on their label. *)
Fixpoint insert_row {A : Type} (r : Stamp * A) (l : list (Stamp * A)) : list (Stamp * A) :=
  match l with
  | [] => [r]
  | h :: t => if stamp_leb (fst r) (fst h) then r :: l else h :: insert_row r t
  end.

Fixpoint sort_rows {A : Type} (l : list (Stamp * A)) : list (Stamp * A) :=
  match l with
  | [] => []
  | r :: t => insert_row r (sort_rows t)
  end.

(** Rows compared on their labels. *)
Definition row_le {A : Type} (r s : Stamp * A) : Prop := stamp_le (fst r) (fst s).

Definition sort_labels (l : list Stamp) : list Stamp :=
  map fst (sort_rows (map (fun d => (d, tt)) l)).

(** [df.sort_index()]: the rows in ascending label order, NaT last.  The
    order only depends on the labels, so every column is moved the same way. *)
Definition sort_index (df : DataFrame) : DataFrame :=
  mkDF (sort_labels (index df))
       (map (fun c => (fst c, map snd (sort_rows (combine (index df) (snd c)))))
            (columns df)).

(** Labels in order of first appearance, each once. *)
Fixpoint dedup (l : list Stamp) : list Stamp :=
  match l with
  | [] => []
  | d :: t => d :: filter (fun e => negb (stamp_eqb d e)) (dedup t)
  end.

Definition union_index (frames : list DataFrame) : list Stamp :=
  dedup (flat_map index frames).

(** [Index.is_unique]: no label is repeated, NaT counting as a label. *)
Fixpoint is_unique (l : list Stamp) : bool :=
  match l with
  | [] => true
  | d :: t => negb (existsb (stamp_eqb d) t) && is_unique t
  end.

(** [a.equals(b)] on two indexes: the same labels in the same order. *)
Fixpoint index_equals (a b : list Stamp) : bool :=
  match a, b with
  | [], [] => true
  | x :: a', y :: b' => stamp_eqb x y && index_equals a' b'
  | _, _ => false
  end.

(** The cells of a column row by row, one per label: the column itself in a
    frame, whose columns are as long as its index. *)
Definition rows_of (idx : list Stamp) (vals : list (option V)) : list (option V) :=
  map (fun i => nth i vals None) (seq 0 (length idx)).

(** Ascending labels, NaT last, repeated labels allowed. *)
Fixpoint is_sorted (l : list Stamp) : bool :=
  match l with
  | a :: (b :: _) as t => stamp_leb a b && is_sorted t
  | _ => true
  end.

(** Whether pandas can reindex the frame of index [idx] on [target], an
    index with a repeated label that is to be the combined index: the
    frame's labels are unique and the union with them leaves [target] as it
    is, which is so for a frame without rows, and for labels all found in a
    [target] that is in order (a union is returned sorted). *)
Definition fits (idx target : list Stamp) : bool :=
  is_unique idx &&
  (match idx with [] => true | _ :: _ => false end
   || (is_sorted target && forallb (fun d => existsb (stamp_eqb d) target) idx)).

(** [pd.concat(frames, axis=1)]: outer join on the index, the columns in
    frame order.  Every frame whose index is not the combined index is
    reindexed on it, and pandas refuses to reindex a frame with a repeated
    label.  Frames with unique labels are reindexed on the union of their
    labels.  When a frame has a repeated label, its index has to be the
    combined one: frames with that very index keep their rows (a single
    frame does), the others are reindexed on it, and where the union is
    another index the call raises. *)
Definition concat_axis1 (frames : list DataFrame) : result DataFrame :=
  match frames with
  | [] => Raise (ValueError "No objects to concatenate")
  | _ :: _ =>
      match find (fun f => negb (is_unique (index f))) frames with
      | None =>
          let u := union_index frames in
          Ok (mkDF u
                (flat_map (fun f => map (fun c => (fst c, map (loc (index f) (snd c)) u))
                                        (columns f))
                          frames))
      | Some g =>
          let target := index g in
          if forallb (fun f => index_equals (index f) target || fits (index f) target)
                     frames
          then
            Ok (mkDF target
                  (flat_map
                     (fun f => map (fun c =>
                                      (fst c,
                                       if index_equals (index f) target
                                       then rows_of (index f) (snd c)
                                       else map (loc (index f) (snd c)) target))
                                   (columns f))
                     frames))
          else Raise (InvalidIndexError
                        "Reindexing only valid with uniquely valued Index objects")
      end
  end.

(** [Series.ffill()], [last] being the last value seen above. *)
Fixpoint ffill_from (last : option V) (vals : list (option V)) : list (option V) :=
  match vals with
  | [] => []
  | v :: rest =>
      let w := match v with Some _ => v | None => last end in
      w :: ffill_from w rest
  end.

(** [df.ffill()] *)
Definition ffill (df : DataFrame) : DataFrame :=
  mkDF (index df) (map (fun c => (fst c, ffill_from None (snd c))) (columns df)).

(** The cell of column [name] in the row labelled [d]. *)
Definition cell (df : DataFrame) (name : string) (d : Stamp) : option V :=
  match get_col df name with
  | Some vals => loc (index df) vals d
  | None => None
  end.

End Frames.
Arguments DataFrame V : clear implicits.

End Pandas.
Export Pandas.

(* ================================================================== *)
(** * compute_series.py *)
(* ================================================================== *)

Module ComputeSeries.

Record SeriesDef : Type := mkSeriesDef { sid : string; col : string }.

Definition SERIES : list SeriesDef :=
  [ mkSeriesDef "BAMLC0A0CM" "IG_OAS";
    mkSeriesDef "BAMLH0A0HYM2" "HY_OAS";
    mkSeriesDef "BAA" "BAA_YIELD";
    mkSeriesDef "DGS10" "DGS10";
    mkSeriesDef "DGS2" "DGS2";
    mkSeriesDef "DGS5" "DGS5";
    mkSeriesDef "USREC" "USREC";
    mkSeriesDef "BAMLC0A1CAAA" "AAA_OAS";
    mkSeriesDef "BAMLC0A2CAA" "AA_OAS";
    mkSeriesDef "BAMLC0A3CA" "A_OAS";
    mkSeriesDef "BAMLC0A4CBBB" "BBB_OAS" ].

(** What [pd.read_csv] hands over: named columns of text cells, at least one
    column (on a file without columns [read_csv] itself fails). *)
Record RawTable : Type := mkRaw {
  first_column : string * list string;
  more_columns : list (string * list string)
}.

Definition raw_columns (t : RawTable) : list (string * list string) :=
  first_column t :: more_columns t.

Definition raw_get (t : RawTable) (name : string) : list string :=
  match find (fun c => String.eqb (fst c) name) (raw_columns t) with
  | Some c => snd c
  | None => []
  end.

Definition date_col_candidates : list string := ["DATE"; "date"; "observation_date"].

(** [next((c for c in date_col_candidates if c in df.columns), df.columns[0])] *)
Definition pick_date_col (df : RawTable) : string :=
  let names := map fst (raw_columns df) in
  match find (fun c => existsb (String.eqb c) names) date_col_candidates with
  | Some c => c
  | None => fst (first_column df)
  end.

(** [[c for c in df.columns if c != date_col]] *)
Definition value_col_candidates (df : RawTable) (date_col : string)
    : list (string * list string) :=
  filter (fun c => negb (String.eqb (fst c) date_col)) (raw_columns df).

Section Merge.
Context {V : Type}.

(** [pd.to_datetime(_, errors="coerce")] on one cell: [NaT] when the text
    does not parse. *)
Variable to_datetime : string -> Stamp.
(** [pd.to_numeric(_, errors="coerce")] on one cell: NaN when the text is not
    a number. *)
Variable to_numeric : string -> option V.
(** [latest_csv_for] followed by [pd.read_csv]: [None] when no file is
    stored for the series id; otherwise the newest file as [read_csv] parses
    it, or the exception [read_csv] raises on it (an empty or malformed
    file). *)
Variable read_latest : string -> option (result RawTable).

(** After the renaming, [set_index("DATE")] needs one column of that name
    and [pd.to_numeric(df[series.col])] one column named [series.col]:
    pandas raises when the canonical name is DATE itself or is already the
    name of a later column of the table. *)
Definition load_series (series : SeriesDef) : result (option (DataFrame V)) :=
  match read_latest (sid series) with
  | None => Ok None
  | Some (Raise e) => Raise e
  | Some (Ok df) =>
      let date_col := pick_date_col df in
      match value_col_candidates df date_col with
      | [] => Ok None
      | value_col :: others =>
          if String.eqb (col series) "DATE" then
            Raise (ValueError "Index data must be 1-dimensional")
          else if existsb (fun c => String.eqb (fst c) (col series)) others then
            Raise (TypeError "arg must be a list, tuple, 1-d array, or Series")
          else
            let dates := map to_datetime (raw_get df date_col) in
            let rows := sort_rows (combine dates (snd value_col)) in
            Ok (Some (mkDF (map fst rows)
                           [(col series, map (fun r => to_numeric (snd r)) rows)]))
      end
  end.

(** Whether a series loads. *)
Definition loads (s : SeriesDef) : bool :=
  match load_series s with Ok (Some _) => true | _ => false end.

(** The frames of the series that load, in the order of the list. *)
Definition loaded_frames (series : list SeriesDef) : list (DataFrame V) :=
  flat_map (fun s => match load_series s with Ok (Some df) => [df] | _ => [] end)
           series.

(** The loop of [merge_all]: the frames of the series that load, in the
    order of the list; the first exception ends the loop. *)
Fixpoint load_frames (series : list SeriesDef) : result (list (DataFrame V)) :=
  match series with
  | [] => Ok []
  | s :: rest =>
      match load_series s with
      | Raise e => Raise e
      | Ok loaded =>
          match load_frames rest with
          | Raise e => Raise e
          | Ok frames =>
              Ok (match loaded with Some df => df :: frames | None => frames end)
          end
      end
  end.

(** [merge_all] from the emptiness test on: what it does with the frames
    collected, in the order they were collected. *)
Definition merge_frames (frames : list (DataFrame V)) : result (DataFrame V) :=
  match frames with
  | [] => Raise (RuntimeError "No raw series found. Run fetch_fred.py first.")
  | _ :: _ =>
      match concat_axis1 frames with
      | Ok merged => Ok (ffill (sort_index merged))
      | Raise e => Raise e
      end
  end.

Definition merge_all : result (DataFrame V) :=
  match load_frames SERIES with
  | Ok frames => merge_frames frames
  | Raise e => Raise e
  end.

End Merge.

(** ** Derived columns (values are reals: the z-score takes a square root) *)

Definition fsub (a b : option R) : option R :=
  match a, b with
  | Some x, Some y => Some (x - y)%R
  | _, _ => None
  end.

(** float64 division.  [0/0] is NaN.  [x/0] for a non-zero [x] is an
    infinity, which is a value and not a missing one: the model keeps it as
    [Some] of the real [x / 0], whose value Rocq leaves unspecified. *)
Definition fdiv (a b : option R) : option R :=
  match a, b with
  | Some x, Some y =>
      if Req_dec_T y 0
      then (if Req_dec_T x 0 then None else Some (x / y)%R)
      else Some (x / y)%R
  | _, _ => None
  end.

Fixpoint zip_with {A B C : Type} (f : A -> B -> C) (l : list A) (m : list B) : list C :=
  match l, m with
  | a :: l', b :: m' => f a b :: zip_with f l' m'
  | _, _ => []
  end.

Definition dropna {A : Type} (l : list (option A)) : list A :=
  flat_map (fun x => match x with Some v => [v] | None => [] end) l.

(** The [w] rows ending at and including row [i]. *)
Definition window_at {A : Type} (w : nat) (xs : list A) (i : nat) : list A :=
  skipn (S i - w) (firstn (S i) xs).

Definition Rsum (l : list R) : R := fold_right Rplus 0%R l.

Definition mean (l : list R) : R := (Rsum l / INR (List.length l))%R.

(** Variance with divisor N ([ddof=0]). *)
Definition var_pop (l : list R) : R :=
  (Rsum (map (fun x => (x - mean l) * (x - mean l)) l) / INR (List.length l))%R.

Definition std_pop (l : list R) : R := sqrt (var_pop l).

(** [xs.rolling(w, min_periods=mp).stat()]: the statistic of the non-missing
    values among the last [w] rows, NaN when there are fewer than [mp]. *)
Definition rolling (stat : list R -> R) (w mp : nat) (xs : list (option R)) : list (option R) :=
  map (fun i => let obs := dropna (window_at w xs i) in
                if (List.length obs <? mp)%nat then None else Some (stat obs))
      (seq 0 (List.length xs)).

Definition window : nat := 90.

Definition zscore (xs : list (option R)) : list (option R) :=
  zip_with fdiv
    (zip_with fsub xs (rolling mean window (window / 3) xs))
    (rolling std_pop window (window / 3) xs).

(** [if {a, b}.issubset(out.columns): out[name] = out[a] - out[b]] *)
Definition derive_sub (out : DataFrame R) (name a b : string) : DataFrame R :=
  match get_col out a, get_col out b with
  | Some xa, Some xb => set_col out name (zip_with fsub xa xb)
  | _, _ => out
  end.

Definition z_candidates : list string :=
  ["IG_OAS"; "HY_OAS"; "HY_IG_SPREAD"; "BAA_10Y_SPREAD"; "TWOS_TENS"].

(** The name [f"{c}_Z{window}"] with [window = 90]. *)
Definition z_name (c : string) : string := c ++ "_Z90".

Definition add_z (out : DataFrame R) (c : string) : DataFrame R :=
  match get_col out c with
  | Some xs => set_col out (z_name c) (zscore xs)
  | None => out
  end.

Definition add_spreads (df : DataFrame R) : DataFrame R :=
  let out := df in
  let out := derive_sub out "HY_IG_SPREAD" "HY_OAS" "IG_OAS" in
  let out := derive_sub out "BAA_10Y_SPREAD" "BAA_YIELD" "DGS10" in
  let out := derive_sub out "TWOS_TENS" "DGS10" "DGS2" in
  out.

Definition add_derived (df : DataFrame R) : DataFrame R :=
  let out := add_spreads df in
  let cols_for_z := filter (has_col out) z_candidates in
  fold_left add_z cols_for_z out.

End ComputeSeries.
Export ComputeSeries.

(* ================================================================== *)
(** * charts.py *)
(* ================================================================== *)

Module Charts.

(** ** recession_spans *)

(** [df["USREC"].dropna()] as (label, value) rows. *)
Definition dropna_rows {A : Type} (rows : list (Stamp * option A)) : list (Stamp * A) :=
  flat_map (fun r => match snd r with Some v => [(fst r, v)] | None => [] end) rows.

(** [(rec > 0.5).astype(int)], the integer 1 kept as [true]. *)
Definition active (v : Q) : bool :=
  if Qlt_le_dec (1 # 2) v then true else false.

(** The loop state: [in_rec], [start] and the spans appended so far. *)
Record SpanState : Type := mkSpanState {
  in_rec : bool;
  start : option Stamp;
  spans : list (Stamp * Stamp)
}.

Definition span_step (st : SpanState) (item : Stamp * bool) : SpanState :=
  let (dt, val) := item in
  if val && negb (in_rec st) then mkSpanState true (Some dt) (spans st)
  else if negb val && in_rec st then
    match start st with
    | Some s => mkSpanState false (start st) (spans st ++ [(s, dt)])
    | None => mkSpanState false (start st) (spans st)  (* [in_rec] is only set with [start] *)
    end
  else st.

(** The [for] loop run over [rec] from the state [st]. *)
Definition loop (rec : list (Stamp * bool)) (st : SpanState) : SpanState :=
  fold_left span_step rec st.

Definition spans_of (rec : list (Stamp * bool)) : list (Stamp * Stamp) :=
  let st := loop rec (mkSpanState false None []) in
  match in_rec st, start st with
  | true, Some s => spans st ++ [(s, last (map fst rec) NaT)]
  | _, _ => spans st
  end.

Definition recession_spans (df : DataFrame Q) : list (Stamp * Stamp) :=
  match get_col df "USREC" with
  | None => []
  | Some vals =>
      let rec := dropna_rows (combine (index df) vals) in
      let rec := map (fun r => (fst r, active (snd r))) rec in
      spans_of rec
  end.

(** ** build_current_table *)

Definition is_leap (y : Z) : bool :=
  (y mod 4 =? 0) && (negb (y mod 100 =? 0) || (y mod 400 =? 0)).

Definition days_in_month (y m : Z) : Z :=
  match m with
  | 2 => if is_leap y then 29 else 28
  | 4 | 6 | 9 | 11 => 30
  | _ => 31
  end.

(** [t - pd.DateOffset(years=n)]: same month and day [n] years earlier, the
    day clipped to the length of the month (29 February becomes the 28th). *)
Definition sub_years (n : Z) (t : Timestamp) : Timestamp :=
  let y := year t - n in
  mkTS y (month t) (Z.min (day t) (days_in_month y (month t))).

(** [idx.max()]: the latest date, NaT skipped; NaT when there is no date. *)
Definition later (m d : Stamp) : Stamp :=
  match m, d with
  | Some a, Some b => match ts_compare a b with Lt => d | _ => m end
  | None, _ => d
  | _, None => m
  end.

Definition index_max (idx : list Stamp) : Stamp := fold_left later idx NaT.

(** [d >= s] on labels: any comparison with NaT is False. *)
Definition stamp_geb (d s : Stamp) : bool :=
  match d, s with
  | Some a, Some b => match ts_compare a b with Lt => false | _ => true end
  | _, _ => false
  end.

(** [df.loc[df.index >= s][col]] for a column [vals] of [df]. *)
Definition rows_from (idx : list Stamp) (s : Stamp) (vals : list (option Q)) : list (option Q) :=
  map snd (filter (fun r => stamp_geb (fst r) s) (combine idx vals)).

(** [Series.max()] and [Series.min()]: NaN skipped, NaN on no value. *)
Definition series_max (vals : list (option Q)) : option Q :=
  match dropna vals with
  | [] => None
  | v :: rest => Some (fold_left Qmax rest v)
  end.

Definition series_min (vals : list (option Q)) : option Q :=
  match dropna vals with
  | [] => None
  | v :: rest => Some (fold_left Qmin rest v)
  end.

(** Nearest integer, ties to the even one. *)
Definition round_half_even (q : Q) : Z :=
  let f := Qfloor q in
  match Qcompare (q - inject_Z f)%Q (1 # 2) with
  | Lt => f
  | Gt => f + 1
  | Eq => if Z.even f then f else f + 1
  end.

(** [round(x, 2)] on the exact value: the nearest hundredth.  A value
    halfway between two hundredths goes to the even one, as it does in the
    code when the float holds it exactly (0.125 gives 0.12); a decimal such
    as 0.545 is not a float, and the code rounds the float next to it. *)
Definition round2 (q : Q) : Q :=
  Qred (inject_Z (round_half_even (q * 100)%Q) / 100)%Q.

(** [round(x, 2) if pd.notna(x) else None] *)
Definition display (x : option Q) : option Q := option_map round2 x.

(** [s.iloc[-1]] *)
Definition iloc_last {A : Type} (s : list A) : result A :=
  match rev s with
  | x :: _ => Ok x
  | [] => Raise (IndexError "single positional indexer is out-of-bounds")
  end.

Record SummaryRow : Type := mkRow {
  Metric : string;
  Current : option Q;
  High1y : option Q;
  Low1y : option Q
}.

(** The dash in the third and fourth labels is U+2013. *)
Definition metrics : list (string * string) :=
  [ ("HY_OAS", "HY OAS");
    ("IG_OAS", "IG OAS");
    ("HY_IG_SPREAD", "HY – IG");
    ("BAA_10Y_SPREAD", "Baa – 10y");
    ("TWOS_TENS", "2s10s") ].

(** One pass of the loop body, [rows] being the rows appended so far. *)
Definition table_step (df : DataFrame Q) (one_year_ago : Stamp)
    (acc : result (list SummaryRow)) (m : string * string) : result (list SummaryRow) :=
  match acc with
  | Raise e => Raise e
  | Ok rows =>
      match get_col df (fst m) with
      | None => Ok rows
      | Some vals =>
          match iloc_last vals with
          | Raise e => Raise e
          | Ok cur =>
              let yr := rows_from (index df) one_year_ago vals in
              let hi := series_max yr in
              let lo := series_min yr in
              Ok (rows ++ [mkRow (snd m) (display cur) (display hi) (display lo)])
          end
      end
  end.

Definition build_current_table (df : DataFrame Q) : result (list SummaryRow) :=
  let end_ := index_max (index df) in
  let one_year_ago := option_map (sub_years 1) end_ in
  fold_left (table_step df one_year_ago) metrics (Ok []).

(** ** The proleptic Gregorian day number, to speak of "n days earlier" *)

Definition days_before_year (y : Z) : Z :=
  let p := y - 1 in p * 365 + p / 4 - p / 100 + p / 400.

Definition days_before_month (y m : Z) : Z :=
  match m with
  | 1 => 0 | 2 => 31 | 3 => 59 | 4 => 90 | 5 => 120 | 6 => 151
  | 7 => 181 | 8 => 212 | 9 => 243 | 10 => 273 | 11 => 304 | _ => 334
  end + (if (2 <? m) && is_leap y then 1 else 0).

(** [date.toordinal()] *)
Definition toordinal (t : Timestamp) : Z :=
  days_before_year (year t) + days_before_month (year t) (month t) + day t.

Definition valid_date (t : Timestamp) : Prop :=
  1 <= month t <= 12 /\ 1 <= day t <= days_in_month (year t) (month t).

End Charts.
Export Charts.

(* ================================================================== *)
(** * charts.py: the window of a chart *)
(* ================================================================== *)

Module Plot.

Section Window.
Context {V : Type}.

(** [df.loc[df.index >= start]] *)
Definition loc_from (df : DataFrame V) (start : Stamp) : DataFrame V :=
  mkDF (filter (fun d => stamp_geb d start) (index df))
       (map (fun c => (fst c, map snd (filter (fun r => stamp_geb (fst r) start)
                                              (combine (index df) (snd c)))))
            (columns df)).

(** The first lines of [plot_oas_window], which are the body of
    [subset_by_range] too: the rows from [years] years before the latest
    date on. *)
Definition window_rows (df : DataFrame V) (years : Z) : DataFrame V :=
  let end_ := index_max (index df) in
  let start := option_map (sub_years years) end_ in
  loc_from df start.

End Window.

(** What [plot_oas_window] hands to matplotlib: the two lines, each drawn
    only when its column is there, and the spans shaded. *)
Record Drawing : Type := mkDrawing {
  ig_line : option (list (Stamp * option Q));
  hy_line : option (list (Stamp * option Q));
  shading : list (Stamp * Stamp)
}.

Definition plot_oas_window (df : DataFrame Q) (years : Z) : Drawing :=
  let sub := window_rows df years in
  mkDrawing (option_map (combine (index sub)) (get_col sub "IG_OAS"))
            (option_map (combine (index sub)) (get_col sub "HY_OAS"))
            (recession_spans sub).

Definition plot_oas_5y (df : DataFrame Q) : Drawing := plot_oas_window df 5.

End Plot.
Export Plot.

(* ================================================================== *)
(** * streamlit_app.py *)
(* ================================================================== *)

Module App.

(** A value, or the [KeyError] of a dictionary without the key. *)
Inductive outcome (A : Type) : Type :=
| Done (a : A)
| KeyError (key : string).
Arguments Done {A} a.
Arguments KeyError {A} key.

Definition years : list (string * Z) :=
  [("1Y", 1); ("3Y", 3); ("5Y", 5); ("20Y", 20)].

Definition subset_by_range {V : Type} (df : DataFrame V) (range_label : string)
    : outcome (DataFrame V) :=
  match find (fun kv => String.eqb (fst kv) range_label) years with
  | Some kv => Done (window_rows df (snd kv))
  | None => KeyError range_label
  end.

(** [k in c] on strings *)
Fixpoint contains (k c : string) : bool :=
  String.prefix k c ||
  match c with
  | EmptyString => false
  | String _ rest => contains k rest
  end.

(** [c.endswith(suffix)] *)
Definition endswith (c suffix : string) : bool :=
  (String.length suffix <=? String.length c)%nat &&
  String.eqb (substring (String.length c - String.length suffix)
                        (String.length suffix) c) suffix.

Definition unit_keys : list string := ["OAS"; "SPREAD"; "DGS"; "BAA_YIELD"].

(** The columns [convert_units] picks when it is given none. *)
Definition in_units (c : string) : bool :=
  existsb (fun k => contains k c) unit_keys && negb (endswith c "USREC").

(** [scaled[c] * 100.0] *)
Definition times_100 (vals : list (option Q)) : list (option Q) :=
  map (option_map (fun x => x * 100)%Q) vals.

Definition convert_units (df : DataFrame Q) (unit : string)
    (cols : option (list string)) : DataFrame Q :=
  if String.eqb unit "Percent" then df
  else
    let cols := match cols with
                | Some cs => cs
                | None => filter in_units (map fst (columns df))
                end in
    fold_left (fun scaled c => match get_col scaled c with
                               | Some vals => set_col scaled c (times_100 vals)
                               | None => scaled
                               end) cols df.

(** The dashboard's own table: the loop of [charts.build_current_table]
    over a longer list of metrics. *)
Definition metrics : list (string * string) :=
  [ ("HY_OAS", "HY OAS");
    ("IG_OAS", "IG OAS");
    ("HY_IG_SPREAD", "HY – IG");
    ("BAA_10Y_SPREAD", "Baa – 10y");
    ("TWOS_TENS", "2s10s");
    ("AAA_OAS", "AAA OAS");
    ("AA_OAS", "AA OAS");
    ("A_OAS", "A OAS");
    ("BBB_OAS", "BBB OAS") ].

Definition build_current_table (df : DataFrame Q) : result (list SummaryRow) :=
  let end_ := index_max (index df) in
  let sub1_from := option_map (sub_years 1) end_ in
  fold_left (table_step df sub1_from) metrics (Ok []).

(** The shading loop of [main]: [sub.get("USREC")] is thresholded as it is,
    a missing value comparing False with 0.5, and every row is walked. *)
Definition shaded_spans (sub : DataFrame Q) : list (Stamp * Stamp) :=
  match get_col sub "USREC" with
  | None => []
  | Some vals =>
      spans_of (map (fun r => (fst r, match snd r with
                                      | Some v => active v
                                      | None => false
                                      end))
                    (combine (index sub) vals))
  end.

End App.

(* ================================================================== *)
(** * Sample parsers and sample data

    [load_series] takes the two pandas parsers as parameters.  These are
    concrete ones for the texts FRED files hold: ISO dates and plain
    decimals (pandas accepts these and more).  The frames after them are
    the inputs the statements below are evaluated on. *)
(* ================================================================== *)

Module Sample.

Definition digit (c : ascii) : option Z :=
  let n := Z.of_nat (nat_of_ascii c) - 48 in
  if (0 <=? n) && (n <=? 9) then Some n else None.

Fixpoint digits (acc : Z) (cs : list ascii) : option Z :=
  match cs with
  | [] => Some acc
  | c :: rest =>
      match digit c with
      | Some n => digits (acc * 10 + n) rest
      | None => None
      end
  end.

Definition number (cs : list ascii) : option Z :=
  match cs with
  | [] => None
  | _ :: _ => digits 0 cs
  end.

(** [YYYY-MM-DD] naming a day that exists, anything else is [NaT]. *)
Definition iso_date (s : string) : Stamp :=
  match list_ascii_of_string s with
  | [y1; y2; y3; y4; "-"%char; m1; m2; "-"%char; d1; d2] =>
      match number [y1; y2; y3; y4], number [m1; m2], number [d1; d2] with
      | Some y, Some m, Some d =>
          if (1 <=? m) && (m <=? 12) && (1 <=? d) && (d <=? days_in_month y m)
          then Some (mkTS y m d) else NaT
      | _, _, _ => NaT
      end
  | _ => NaT
  end.

Fixpoint split_dot (cs : list ascii) : list ascii * option (list ascii) :=
  match cs with
  | [] => ([], None)
  | c :: rest =>
      if Ascii.eqb c "."%char then ([], Some rest)
      else let (a, b) := split_dot rest in (c :: a, b)
  end.

(** Unsigned or negative decimals such as [3.25], [-0.5] and [12]; anything
    else (the lone dot FRED writes for "no data" included) is NaN. *)
Definition decimal (s : string) : option Q :=
  let cs := list_ascii_of_string s in
  let (neg, body) :=
    match cs with
    | "-"%char :: rest => (true, rest)
    | _ => (false, cs)
    end in
  let (ip, fp) := split_dot body in
  let q :=
    match number ip, fp with
    | Some i, None => Some (inject_Z i)
    | Some i, Some f =>
        match number f with
        | Some n => Some (Qred (inject_Z i + inject_Z n / inject_Z (10 ^ Z.of_nat (List.length f))))%Q
        | None => None
        end
    | None, _ => None
    end in
  if neg then option_map (fun x => Qred (- x)%Q) q else q.

(** Three days, and two sources observed on different ones. *)
Definition jan (d : Z) : Stamp := Some (mkTS 2024 1 d).

Definition hy_frame : DataFrame Q :=
  mkDF [jan 2; jan 3] [("HY_OAS", [Some (4 # 1); Some (5 # 1)])].

Definition ig_frame : DataFrame Q :=
  mkDF [jan 2; jan 4] [("IG_OAS", [Some (1 # 1); Some (2 # 1)])].

(** A raw file whose second row has a date that does not parse. *)
Definition ig_raw : RawTable :=
  mkRaw ("observation_date", ["2024-01-02"; "garbage"; "2024-01-03"])
        [("BAMLC0A0CM", ["1.5"; "1.7"; "."])].

Definition ig_only (series_id : string) : option (result RawTable) :=
  if String.eqb series_id "BAMLC0A0CM" then Some (Ok ig_raw) else None.

(** A panel with the high-yield spread only, and one with both spreads. *)
Definition hy_panel : DataFrame R :=
  mkDF [jan 2; jan 3] [("HY_OAS", [Some 4%R; Some 5%R])].

Definition hy_ig_panel : DataFrame R :=
  mkDF [jan 2; jan 3]
       [("HY_OAS", [Some 4%R; Some 5%R]); ("IG_OAS", [Some 1%R; None])].

(** Thirty rows of one constant value. *)
Definition flat_panel : DataFrame R :=
  mkDF (map (fun n => jan (Z.of_nat n)) (seq 1 30))
       [("IG_OAS", repeat (Some 2%R) 30)].

(** Ninety-one yearly rows: 100, then 89 rows at 0, then 90. *)
Definition long_panel : DataFrame R :=
  mkDF (map (fun n => Some (mkTS (1900 + Z.of_nat n) 1 1)) (seq 1 91))
       [("IG_OAS", Some 100%R :: repeat (Some 0%R) 89 ++ [Some 90%R])].

(** A panel whose only value has three decimals. *)
Definition fine_panel : DataFrame Q :=
  mkDF [Some (mkTS 2024 3 15)] [("HY_OAS", [Some (1234 # 1000)])].

(** A metric observed 400 days before, 10 days before and on 15 March 2024. *)
Definition year_panel : DataFrame Q :=
  mkDF [Some (mkTS 2023 2 9); Some (mkTS 2024 3 5); Some (mkTS 2024 3 15)]
       [("HY_OAS", [Some (1 # 1); Some (3 # 1); Some (5 # 1)])].

(** The two sample sources with real values. *)
Definition hy_frame_R : DataFrame R :=
  mkDF [jan 2; jan 3] [("HY_OAS", [Some 4%R; Some 5%R])].

Definition ig_frame_R : DataFrame R :=
  mkDF [jan 2; jan 4] [("IG_OAS", [Some 1%R; Some 2%R])].

(** A raw file in date order, stored for the high-yield series only. *)
Definition hy_raw : RawTable :=
  mkRaw ("DATE", ["2024-01-02"; "2024-01-03"]) [("BAMLH0A0HYM2", ["3.4"; "."])].

Definition hy_only (series_id : string) : option (result RawTable) :=
  if String.eqb series_id "BAMLH0A0HYM2" then Some (Ok hy_raw) else None.

(** A source that gives two values for 2 January. *)
Definition ig_twice : DataFrame Q :=
  mkDF [jan 2; jan 2; jan 3] [("IG_OAS", [Some (1 # 1); Some (2 # 1); Some (3 # 1)])].

(** A source with two rows whose date did not parse. *)
Definition ig_two_nat : DataFrame Q :=
  mkDF [jan 2; NaT; NaT] [("IG_OAS", [Some (1 # 1); Some (2 # 1); Some (3 # 1)])].

(** The investment-grade file as above beside a high-yield file that is
    empty, on which [pd.read_csv] raises. *)
Definition ig_and_empty_hy (series_id : string) : option (result RawTable) :=
  if String.eqb series_id "BAMLC0A0CM" then Some (Ok ig_raw)
  else if String.eqb series_id "BAMLH0A0HYM2"
       then Some (Raise (EmptyDataError "No columns to parse from file"))
       else None.

(** Five days of a spread and of the recession indicator, which is missing
    on the third day. *)
Definition rec_panel : DataFrame Q :=
  mkDF [jan 1; jan 2; jan 3; jan 4; jan 5]
       [("HY_OAS", [Some (4 # 1); Some (5 # 1); Some (6 # 1); Some (5 # 1); Some (4 # 1)]);
        ("USREC", [Some 0%Q; Some 1%Q; None; Some 1%Q; Some 0%Q])].

End Sample.

(* ================================================================== *)
(** * Vocabulary of the statements *)
(* ================================================================== *)

Section PanelSpec.
Context {V : Type}.
Implicit Types (frames : list (DataFrame V)) (panel f : DataFrame V).

(** A source column has the non-missing observation [v] at label [d]. *)
Definition observed f (vals : list (option V)) (d : Stamp) (v : V) : Prop :=
  In (d, Some v) (combine (index f) vals).

(** [r] is the most recent non-missing observation of the column at a label
    not after [d], and missing when there is none. *)
Definition most_recent f (vals : list (option V)) (d : Stamp) (r : option V) : Prop :=
  (exists d' v, observed f vals d' v /\ stamp_le d' d /\ r = Some v /\
                forall d'' v'', observed f vals d'' v'' -> stamp_le d'' d -> stamp_le d'' d')
  \/ ((forall d'' v'', observed f vals d'' v'' -> ~ stamp_le d'' d) /\ r = None).

(** Dates unique within each source. *)
Definition unique_labels frames : Prop :=
  Forall (fun f => NoDup (index f)) frames.

(** No column name used twice among the sources. *)
Definition unique_names frames : Prop :=
  NoDup (map fst (flat_map columns frames)).

(** What the merge is defined on. *)
Definition valid_sources frames : Prop :=
  unique_labels frames /\ unique_names frames.

Definition merged_column (idx : list Stamp) f (c : string * list (option V)) :=
  (fst c, ffill_from None (map (loc (index f) (snd c)) idx)).

End PanelSpec.

(** The observations of an indicator column as the extraction is to walk
    them: a row with a missing value is passed over, every other row gives
    its date and whether its value is above one half. *)
Inductive walked : list (Stamp * option Q) -> list (Stamp * bool) -> Prop :=
| walked_nil : walked [] []
| walked_missing d rows l :
    walked rows l -> walked ((d, None) :: rows) l
| walked_active d v rows l :
    (1 # 2 < v)%Q -> walked rows l -> walked ((d, Some v) :: rows) ((d, true) :: l)
| walked_inactive d v rows l :
    (v <= 1 # 2)%Q -> walked rows l -> walked ((d, Some v) :: rows) ((d, false) :: l).

(** Thresholded observations that are all inactive, or all active. *)
Definition all_inactive (l : list (Stamp * bool)) : Prop :=
  Forall (fun r => snd r = false) l.

Definition all_active (l : list (Stamp * bool)) : Prop :=
  Forall (fun r => snd r = true) l.

(** [r] is the greatest (least) of the non-missing values of [l], and
    missing when [l] has none. *)
Definition is_max (l : list (option Q)) (r : option Q) : Prop :=
  match r with
  | Some m => In (Some m) l /\ forall v, In (Some v) l -> (v <= m)%Q
  | None => forall v, ~ In (Some v) l
  end.

Definition is_min (l : list (option Q)) (r : option Q) : Prop :=
  match r with
  | Some m => In (Some m) l /\ forall v, In (Some v) l -> (m <= v)%Q
  | None => forall v, ~ In (Some v) l
  end.

(** The row [build_current_table] appends for a metric whose column is
    [vals], and none for a metric without column. *)
Definition summary_rows (df : DataFrame Q) (from : Stamp) (m : string * string)
    : list SummaryRow :=
  match get_col df (fst m) with
  | None => []
  | Some vals =>
      let yr := rows_from (index df) from vals in
      [mkRow (snd m) (display (last vals None))
             (display (series_max yr)) (display (series_min yr))]
  end.

(** What makes [sp] the right shading of the thresholded observations
    [l]: each span opens on an active observation and closes at or after it
    on a date of [l]; the spans follow one another without touching; every
    active observation lies in a span; no inactive one lies inside a span
    before its end. *)
Definition shades (l : list (Stamp * bool)) (sp : list (Stamp * Stamp)) : Prop :=
  (forall s e, In (s, e) sp ->
     In (s, true) l /\ In e (map fst l) /\ stamp_le s e) /\
  StronglySorted (fun p q => stamp_lt (snd p) (fst q)) sp /\
  (forall d, In (d, true) l ->
     exists s e, In (s, e) sp /\ stamp_le s d /\ stamp_le d e) /\
  (forall s e d, In (s, e) sp -> In (d, false) l ->
     stamp_le s d -> stamp_lt d e -> False).

(** The (label, value) rows of a column, thresholded as [recession_spans]
    does after leaving out the missing values. *)
Definition thresholded (rows : list (Stamp * option Q)) : list (Stamp * bool) :=
  map (fun r => (fst r, active (snd r))) (dropna_rows rows).

(** The z-score as the specification words it.  The trailing window of [W]
    observations ending at and including row [t]: the values present in the
    rows [t - W + 1] to [t], from row 0 on when there are fewer rows. *)
Definition trailing_values (W : nat) (xs : list (option R)) (t : nat) : list R :=
  flat_map (fun j => match nth j xs None with Some v => [v] | None => [] end)
           (seq (S t - W) (S t - (S t - W))).

(** The mean of the values [l], and their standard deviation with divisor
    N, the number of values (not N - 1). *)
Definition mean_of (l : list R) : R :=
  (fold_right Rplus 0 l / INR (List.length l))%R.

Definition population_std (l : list R) : R :=
  sqrt (fold_right Rplus 0 (map (fun v => (v - mean_of l) * (v - mean_of l)) l)
        / INR (List.length l))%R.

(** The rating buckets the dashboard's table lists after the metrics of
    the chart script's table. *)
Definition bucket_metrics : list (string * string) :=
  [ ("AAA_OAS", "AAA OAS");
    ("AA_OAS", "AA OAS");
    ("A_OAS", "A OAS");
    ("BBB_OAS", "BBB OAS") ].

(** The names [add_derived] assigns to: the spreads and the z-scores. *)
Definition derived_names : list string :=
  ["HY_IG_SPREAD"; "BAA_10Y_SPREAD"; "TWOS_TENS"] ++ map z_name z_candidates.

(** The three spreads [add_derived] computes: name, minuend, subtrahend. *)
Definition spread_specs : list (string * string * string) :=
  [ ("HY_IG_SPREAD", "HY_OAS", "IG_OAS");
    ("BAA_10Y_SPREAD", "BAA_YIELD", "DGS10");
    ("TWOS_TENS", "DGS10", "DGS2") ].

(* ================================================================== *)
(** * Facts about the primitives *)
(* ================================================================== *)

(** ** The order on labels *)

Ltac cmp_cases :=
  repeat match goal with
         | |- context [?x ?= ?y] => destruct (Z.compare_spec x y)
         | H : context [?x ?= ?y] |- _ => destruct (Z.compare_spec x y)
         end.

Lemma ts_compare_eq (a b : Timestamp) : ts_compare a b = Eq <-> a = b.
Proof.
  destruct a as [ya ma da], b as [yb mb db]; unfold ts_compare; simpl.
  split.
  - cmp_cases; intros E; try discriminate; subst; reflexivity.
  - intros E; injection E as -> -> ->. now rewrite !Z.compare_refl.
Qed.

Lemma ts_compare_antisym (a b : Timestamp) :
  ts_compare b a = CompOpp (ts_compare a b).
Proof.
  destruct a as [ya ma da], b as [yb mb db]; unfold ts_compare; simpl.
  cmp_cases; simpl; try reflexivity; lia.
Qed.

Lemma ts_compare_lt_trans (a b c : Timestamp) :
  ts_compare a b = Lt -> ts_compare b c = Lt -> ts_compare a c = Lt.
Proof.
  destruct a as [ya ma da], b as [yb mb db], c as [yc mc dc];
    unfold ts_compare; simpl.
  cmp_cases; intros; try discriminate; try reflexivity; lia.
Qed.

Lemma stamp_compare_eq (a b : Stamp) : stamp_compare a b = Eq <-> a = b.
Proof.
  destruct a as [x|], b as [y|]; simpl; try (split; congruence).
  rewrite ts_compare_eq. split; congruence.
Qed.

Lemma stamp_compare_antisym (a b : Stamp) :
  stamp_compare b a = CompOpp (stamp_compare a b).
Proof.
  destruct a, b; simpl; auto using ts_compare_antisym.
Qed.

Lemma stamp_eqb_eq (a b : Stamp) : stamp_eqb a b = true <-> a = b.
Proof.
  unfold stamp_eqb. rewrite <- stamp_compare_eq.
  destruct (stamp_compare a b); split; congruence.
Qed.

Lemma stamp_eqb_refl (a : Stamp) : stamp_eqb a a = true.
Proof. now apply stamp_eqb_eq. Qed.

Lemma stamp_eqb_neq (a b : Stamp) : stamp_eqb a b = false <-> a <> b.
Proof.
  rewrite <- stamp_eqb_eq. destruct (stamp_eqb a b); split; congruence.
Qed.

Lemma stamp_lt_irrefl (a : Stamp) : ~ stamp_lt a a.
Proof.
  unfold stamp_lt, stamp_ltb.
  replace (stamp_compare a a) with Eq; [discriminate|].
  symmetry. now apply stamp_compare_eq.
Qed.

Lemma stamp_lt_trans (a b c : Stamp) : stamp_lt a b -> stamp_lt b c -> stamp_lt a c.
Proof.
  unfold stamp_lt, stamp_ltb.
  destruct a as [x|], b as [y|], c as [z|]; simpl; try congruence.
  pose proof (ts_compare_lt_trans x y z).
  destruct (ts_compare x y), (ts_compare y z); try congruence.
  now rewrite H.
Qed.

Lemma stamp_leb_false (a b : Stamp) : stamp_leb a b = false -> stamp_lt b a.
Proof.
  unfold stamp_leb, stamp_lt, stamp_ltb. rewrite (stamp_compare_antisym a b).
  destruct (stamp_compare a b); simpl; congruence.
Qed.

Lemma stamp_le_cases (a b : Stamp) : stamp_le a b <-> stamp_lt a b \/ a = b.
Proof.
  unfold stamp_le, stamp_leb, stamp_lt, stamp_ltb.
  rewrite <- stamp_compare_eq.
  destruct (stamp_compare a b); split; intros; try tauto; try congruence;
    destruct H; congruence.
Qed.

Lemma stamp_lt_not_le (a b : Stamp) : stamp_lt a b -> ~ stamp_le b a.
Proof.
  intros H H'. apply stamp_le_cases in H'. destruct H' as [H'| ->].
  - exact (stamp_lt_irrefl _ (stamp_lt_trans _ _ _ H H')).
  - exact (stamp_lt_irrefl _ H).
Qed.

Lemma stamp_le_refl (a : Stamp) : stamp_le a a.
Proof. apply stamp_le_cases. now right. Qed.

Lemma stamp_le_trans (a b c : Stamp) : stamp_le a b -> stamp_le b c -> stamp_le a c.
Proof.
  rewrite !stamp_le_cases. intros [H| ->] [H'| ->]; eauto using stamp_lt_trans.
Qed.

Lemma stamp_le_total (a b : Stamp) : stamp_le a b \/ stamp_lt b a.
Proof.
  unfold stamp_le. destruct (stamp_leb a b) eqn:E; auto using stamp_leb_false.
Qed.

(** ** Sorting rows *)

Section SortFacts.
Context {A : Type}.

Lemma insert_row_perm (r : Stamp * A) l : Permutation (insert_row r l) (r :: l).
Proof.
  induction l as [|h t IH]; simpl; [reflexivity|].
  destruct (stamp_leb (fst r) (fst h)); [reflexivity|].
  rewrite IH. apply perm_swap.
Qed.

Lemma sort_rows_perm (l : list (Stamp * A)) : Permutation (sort_rows l) l.
Proof.
  induction l as [|r t IH]; simpl; [reflexivity|].
  rewrite insert_row_perm. now constructor.
Qed.

Lemma insert_row_sorted (r : Stamp * A) l :
  StronglySorted row_le l -> StronglySorted row_le (insert_row r l).
Proof.
  induction 1 as [|h t Hs IH Hh]; simpl.
  - constructor; constructor.
  - destruct (stamp_leb (fst r) (fst h)) eqn:E.
    + constructor; [constructor; assumption|].
      constructor; [exact E|].
      eapply Forall_impl; [|exact Hh].
      intros s Hs'. unfold row_le in *. eapply stamp_le_trans; eauto.
    + constructor; [exact IH|].
      apply (Permutation_Forall (Permutation_sym (insert_row_perm r t))).
      constructor; [|exact Hh].
      apply stamp_leb_false in E. unfold row_le. apply stamp_le_cases. now left.
Qed.

Lemma sort_rows_sorted (l : list (Stamp * A)) : StronglySorted row_le (sort_rows l).
Proof.
  induction l; simpl; [constructor|]. now apply insert_row_sorted.
Qed.

End SortFacts.

(** Sorting looks at the labels only: it commutes with any change of the
    payloads. *)
Lemma insert_row_map {A B : Type} (f : A -> B) (r : Stamp * A) l :
  map (fun x => (fst x, f (snd x))) (insert_row r l)
  = insert_row (fst r, f (snd r)) (map (fun x => (fst x, f (snd x))) l).
Proof.
  induction l as [|h t IH]; simpl; [reflexivity|].
  destruct (stamp_leb (fst r) (fst h)); simpl; [reflexivity|]. now rewrite IH.
Qed.

Lemma sort_rows_map {A B : Type} (f : A -> B) (l : list (Stamp * A)) :
  map (fun x => (fst x, f (snd x))) (sort_rows l)
  = sort_rows (map (fun x => (fst x, f (snd x))) l).
Proof.
  induction l as [|r t IH]; simpl; [reflexivity|].
  now rewrite insert_row_map, IH.
Qed.

Lemma map_fst_sort_rows {A : Type} (l : list (Stamp * A)) :
  map fst (sort_rows l) = sort_labels (map fst l).
Proof.
  unfold sort_labels. rewrite map_map.
  rewrite <- (sort_rows_map (fun _ => tt) l), map_map. reflexivity.
Qed.

Lemma sort_labels_perm (l : list Stamp) : Permutation (sort_labels l) l.
Proof.
  unfold sort_labels.
  rewrite (Permutation_map fst (sort_rows_perm _)), map_map. simpl.
  now rewrite map_id.
Qed.

Lemma sort_labels_le (l : list Stamp) : StronglySorted stamp_le (sort_labels l).
Proof.
  unfold sort_labels.
  generalize (sort_rows_sorted (map (fun d => (d, tt)) l)).
  generalize (sort_rows (map (fun d : Stamp => (d, tt)) l)).
  induction 1 as [|h t Hs IH Hh]; simpl; constructor; auto.
  apply Forall_map. exact Hh.
Qed.

Lemma sorted_le_nodup_lt (l : list Stamp) :
  StronglySorted stamp_le l -> NoDup l -> StronglySorted stamp_lt l.
Proof.
  induction 1 as [|h t Hs IH Hh]; intros Hn; constructor;
    inversion Hn as [|? ? Hnot Hn']; subst; auto.
  rewrite Forall_forall in *. intros x Hx.
  destruct (proj1 (stamp_le_cases h x) (Hh x Hx)) as [Hlt| ->]; [assumption|].
  contradiction.
Qed.

Lemma sort_labels_lt (l : list Stamp) :
  NoDup l -> StronglySorted stamp_lt (sort_labels l).
Proof.
  intros Hn. apply sorted_le_nodup_lt; [apply sort_labels_le|].
  apply (Permutation_NoDup (Permutation_sym (sort_labels_perm l)) Hn).
Qed.

Lemma sorted_lt_nodup (l : list Stamp) : StronglySorted stamp_lt l -> NoDup l.
Proof.
  induction 1 as [|h t Hs IH Hh]; constructor; auto.
  intros Hin. rewrite Forall_forall in Hh.
  exact (stamp_lt_irrefl _ (Hh _ Hin)).
Qed.

(** A strictly ascending list is determined by its elements. *)
Lemma sorted_lt_unique (l m : list Stamp) :
  StronglySorted stamp_lt l -> StronglySorted stamp_lt m ->
  (forall d, In d l <-> In d m) -> l = m.
Proof.
  intros Hl; revert m.
  induction Hl as [|h t Hs IH Hh]; intros m Hm Heq.
  - destruct m as [|x m]; [reflexivity|].
    exfalso. apply (proj2 (Heq x)). now left.
  - destruct Hm as [|x m Hm' Hx].
    + exfalso. apply (proj1 (Heq h)). now left.
    + rewrite Forall_forall in Hh, Hx.
      assert (h = x) as ->.
      { destruct (proj1 (Heq h) (or_introl eq_refl)) as [E|Hin]; [now symmetry|].
        destruct (proj2 (Heq x) (or_introl eq_refl)) as [E|Hin']; [assumption|].
        exfalso. apply (stamp_lt_irrefl h).
        eapply stamp_lt_trans; [apply Hh, Hin'| apply Hx, Hin]. }
      f_equal. apply IH; [assumption|].
      intros d; split; intros Hd.
      * destruct (proj1 (Heq d) (or_intror Hd)) as [E|Hin]; [|assumption].
        subst. exfalso. exact (stamp_lt_irrefl _ (Hh _ Hd)).
      * destruct (proj2 (Heq d) (or_intror Hd)) as [E|Hin]; [|assumption].
        subst. exfalso. exact (stamp_lt_irrefl _ (Hx _ Hd)).
Qed.

(** ** Labels met once *)

Lemma dedup_In (l : list Stamp) (d : Stamp) : In d (dedup l) <-> In d l.
Proof.
  induction l as [|x t IH]; simpl; [tauto|].
  rewrite filter_In, IH, negb_true_iff, stamp_eqb_neq.
  split.
  - intros [E|[Hin _]]; auto.
  - intros [E|Hin]; [now left|].
    destruct (stamp_eqb x d) eqn:Ex.
    + left. now apply stamp_eqb_eq.
    + right. split; [assumption|]. now apply stamp_eqb_neq.
Qed.

Lemma dedup_NoDup (l : list Stamp) : NoDup (dedup l).
Proof.
  induction l as [|x t IH]; simpl; constructor.
  - rewrite filter_In, negb_true_iff, stamp_eqb_neq. intros [_ H]. now apply H.
  - now apply NoDup_filter.
Qed.

(** ** Looking a label up *)

Section LocFacts.
Context {V : Type}.
Implicit Types (idx : list Stamp) (vals : list (option V)).

Lemma loc_Some_In idx vals d v :
  loc idx vals d = Some v -> In (d, Some v) (combine idx vals).
Proof.
  revert vals; induction idx as [|i idx IH]; intros [|x vals]; simpl; try discriminate.
  destruct (stamp_eqb i d) eqn:E.
  - apply stamp_eqb_eq in E. intros ->. left. now subst.
  - intros H. right. now apply IH.
Qed.

Lemma In_loc idx vals d x :
  NoDup idx -> In (d, x) (combine idx vals) -> loc idx vals d = x.
Proof.
  revert vals; induction idx as [|i idx IH]; intros [|y vals] Hn; simpl; try tauto.
  inversion Hn as [|? ? Hnot Hn']; subst.
  intros [E|Hin].
  - injection E as -> ->. now rewrite stamp_eqb_refl.
  - destruct (stamp_eqb i d) eqn:E.
    + apply stamp_eqb_eq in E; subst. apply in_combine_l in Hin. contradiction.
    + now apply IH.
Qed.

Lemma loc_nth idx vals d x i :
  NoDup idx -> nth_error idx i = Some d -> nth_error vals i = Some x ->
  loc idx vals d = x.
Proof.
  intros Hn Hi Hv. apply In_loc; [assumption|].
  revert i vals Hi Hv. clear Hn.
  induction idx as [|j idx IH]; intros [|i] [|y vals]; simpl; try discriminate.
  - intros [= ->] [= ->]. now left.
  - intros Hi Hv. right. eauto.
Qed.

Lemma loc_not_In idx vals d : ~ In d idx -> loc idx vals d = None.
Proof.
  destruct (loc idx vals d) as [v|] eqn:E; [|reflexivity].
  intros H. exfalso. apply H. apply loc_Some_In in E.
  now apply in_combine_l in E.
Qed.

Lemma ffill_from_length a vals : List.length (ffill_from a vals) = List.length vals.
Proof. revert a; induction vals; simpl; auto. Qed.

(** The sorted rows of a column computed from its labels carry, at each
    label, what the label determines. *)
Lemma sort_rows_graph (g : Stamp -> option V) (u : list Stamp) :
  map snd (sort_rows (combine u (map g u))) = map g (sort_labels u).
Proof.
  assert (Hc : combine u (map g u) = map (fun d => (d, g d)) u).
  { induction u; simpl; congruence. }
  rewrite Hc.
  assert (Hf : map fst (map (fun d => (d, g d)) u) = u).
  { rewrite map_map. simpl. apply map_id. }
  rewrite <- Hf at 2. rewrite <- map_fst_sort_rows, map_map.
  apply map_ext_in. intros r Hr.
  apply (Permutation_in _ (sort_rows_perm _)) in Hr.
  apply in_map_iff in Hr. destruct Hr as [d [<- _]]. reflexivity.
Qed.

End LocFacts.

(** ** The shape of a merged panel *)

Section PanelFacts.
Context {V : Type}.
Implicit Types (frames : list (DataFrame V)) (panel f : DataFrame V).

Lemma is_unique_NoDup (l : list Stamp) : is_unique l = true <-> NoDup l.
Proof.
  induction l as [|d t IH]; simpl.
  - split; [constructor|reflexivity].
  - rewrite andb_true_iff, negb_true_iff, IH. split.
    + intros [Hd Ht]. constructor; [|assumption].
      intros Hin. assert (He : existsb (stamp_eqb d) t = true).
      { apply existsb_exists. exists d. split; [assumption|apply stamp_eqb_refl]. }
      congruence.
    + intros Hn. inversion Hn as [|? ? Hnot Ht]; subst. split; [|assumption].
      destruct (existsb (stamp_eqb d) t) eqn:E; [|reflexivity].
      apply existsb_exists in E. destruct E as [x [Hx Ex]].
      apply stamp_eqb_eq in Ex. subst x. contradiction.
Qed.

Lemma index_equals_eq (a b : list Stamp) : index_equals a b = true <-> a = b.
Proof.
  revert b. induction a as [|x a IH]; intros [|y b]; simpl;
    try (split; [reflexivity|reflexivity]); try (split; discriminate).
  rewrite andb_true_iff, stamp_eqb_eq, IH. split.
  - intros [-> ->]. reflexivity.
  - intros [= -> ->]. split; reflexivity.
Qed.

Lemma rows_of_length (idx : list Stamp) (vals : list (option V)) :
  List.length (rows_of idx vals) = List.length idx.
Proof. unfold rows_of. now rewrite length_map, length_seq. Qed.

Lemma rows_of_id (idx : list Stamp) (vals : list (option V)) :
  List.length vals = List.length idx -> rows_of idx vals = vals.
Proof.
  intros Hlen. unfold rows_of. rewrite <- Hlen.
  apply nth_ext with (d := None) (d' := None).
  - now rewrite length_map, length_seq.
  - intros n Hn. rewrite length_map, length_seq in Hn.
    rewrite (nth_indep _ None (nth 0 vals None))
      by (now rewrite length_map, length_seq).
    rewrite (map_nth (fun i => nth i vals None)), seq_nth by assumption.
    reflexivity.
Qed.

Lemma unique_labels_find frames :
  unique_labels frames ->
  find (fun f => negb (is_unique (index f))) frames = None.
Proof.
  intros H. destruct (find _ frames) as [g|] eqn:E; [|reflexivity].
  apply find_some in E. destruct E as [Hg Eg].
  unfold unique_labels in H. rewrite Forall_forall in H.
  rewrite (proj2 (is_unique_NoDup _) (H _ Hg)) in Eg. discriminate Eg.
Qed.

(** What [pd.concat] returns, whichever way it aligns the frames: a table
    with the columns of the frames, in frame order, over the labels of the
    frames. *)
Lemma concat_axis1_ok frames merged :
  concat_axis1 frames = Ok merged ->
  well_formed merged /\
  map fst (columns merged) = map fst (flat_map columns frames) /\
  (forall d, In d (index merged) <-> exists f, In f frames /\ In d (index f)).
Proof.
  unfold concat_axis1. destruct frames as [|f0 rest]; [discriminate|].
  remember (f0 :: rest) as fs eqn:Hfs. clear Hfs f0 rest.
  destruct (find (fun f => negb (is_unique (index f))) fs) as [g|] eqn:Eg.
  - destruct (forallb _ fs) eqn:Eall; [|discriminate].
    intros [= <-]. rewrite forallb_forall in Eall.
    apply find_some in Eg. destruct Eg as [Hg Eg].
    split; [|split].
    + unfold well_formed. cbn [columns index].
      apply Forall_forall. intros c Hc.
      apply in_flat_map in Hc. destruct Hc as [f [_ Hc]].
      apply in_map_iff in Hc. destruct Hc as [c0 [<- _]]. cbn [snd].
      destruct (index_equals (index f) (index g)) eqn:E.
      * apply index_equals_eq in E. rewrite <- E. apply rows_of_length.
      * apply length_map.
    + cbn [columns]. clear.
      induction fs as [|f fs IH]; simpl; [reflexivity|].
      rewrite !map_app, IH. f_equal. rewrite map_map. reflexivity.
    + intros d. cbn [index]. split.
      * intros Hd. exists g. split; assumption.
      * intros [f [Hf Hd]]. specialize (Eall f Hf).
        apply orb_true_iff in Eall. destruct Eall as [E|E].
        { apply index_equals_eq in E. now rewrite <- E. }
        unfold fits in E. apply andb_true_iff in E. destruct E as [_ E].
        apply orb_true_iff in E. destruct E as [E|E].
        { destruct (index f); [destruct Hd|discriminate E]. }
        apply andb_true_iff in E. destruct E as [_ E].
        rewrite forallb_forall in E. specialize (E d Hd).
        apply existsb_exists in E. destruct E as [x [Hx Ex]].
        apply stamp_eqb_eq in Ex. now subst x.
  - intros [= <-]. split; [|split].
    + unfold well_formed. cbn [columns index].
      apply Forall_forall. intros c Hc.
      apply in_flat_map in Hc. destruct Hc as [f [_ Hc]].
      apply in_map_iff in Hc. destruct Hc as [c0 [<- _]]. cbn [snd].
      apply length_map.
    + cbn [columns]. generalize (union_index fs) as u. intros u. clear.
      induction fs as [|f fs IH]; simpl; [reflexivity|].
      rewrite !map_app, IH. f_equal. rewrite map_map. reflexivity.
    + intros d. cbn [index]. unfold union_index.
      now rewrite dedup_In, in_flat_map.
Qed.

Lemma merge_frames_ok frames panel :
  merge_frames frames = Ok panel ->
  exists merged, concat_axis1 frames = Ok merged /\
                 panel = ffill (sort_index merged).
Proof.
  unfold merge_frames. destruct frames as [|f0 rest]; [discriminate|].
  destruct (concat_axis1 (f0 :: rest)) as [merged|e]; [|discriminate].
  intros [= <-]. now exists merged.
Qed.

Lemma concat_unique frames :
  frames <> [] -> unique_labels frames ->
  concat_axis1 frames
  = Ok (mkDF (union_index frames)
          (flat_map (fun f => map (fun c => (fst c, map (loc (index f) (snd c))
                                                        (union_index frames)))
                                  (columns f))
                    frames)).
Proof.
  intros Hne Hu. unfold concat_axis1.
  destruct frames as [|f0 rest]; [now elim Hne|].
  now rewrite (unique_labels_find _ Hu).
Qed.

Lemma merge_frames_shape frames panel :
  unique_labels frames ->
  merge_frames frames = Ok panel ->
  index panel = sort_labels (union_index frames) /\
  columns panel =
    flat_map (fun f => map (merged_column (index panel) f) (columns f)) frames.
Proof.
  intros Hu Hm. destruct (merge_frames_ok _ _ Hm) as [merged [Hc ->]].
  rewrite concat_unique in Hc; [|intros ->; discriminate Hm|assumption].
  injection Hc as <-. split; [reflexivity|].
  cbn [ffill sort_index columns index].
  generalize (union_index frames) as u; intros u. clear Hu Hm.
  induction frames as [|f fs IH]; simpl; [reflexivity|].
  rewrite !map_app, IH. f_equal.
  rewrite !map_map. apply map_ext. intros c. unfold merged_column. simpl.
  now rewrite sort_rows_graph.
Qed.

Lemma merge_frames_index_In frames panel d :
  merge_frames frames = Ok panel ->
  In d (index panel) <-> exists f, In f frames /\ In d (index f).
Proof.
  intros H. destruct (merge_frames_ok _ _ H) as [merged [Hc ->]].
  destruct (concat_axis1_ok _ _ Hc) as [_ [_ Hin]].
  rewrite <- Hin. cbn [ffill sort_index index]. split.
  - intros Hd. now apply (Permutation_in _ (sort_labels_perm _)) in Hd.
  - intros Hd. now apply (Permutation_in _ (Permutation_sym (sort_labels_perm _))).
Qed.

Lemma merge_frames_index_sorted frames panel :
  unique_labels frames ->
  merge_frames frames = Ok panel -> StronglySorted stamp_lt (index panel).
Proof.
  intros Hu H. destruct (merge_frames_shape _ _ Hu H) as [-> _].
  apply sort_labels_lt, dedup_NoDup.
Qed.

Lemma merge_frames_names frames panel :
  merge_frames frames = Ok panel ->
  map fst (columns panel) = map fst (flat_map columns frames).
Proof.
  intros H. destruct (merge_frames_ok _ _ H) as [merged [Hc ->]].
  destruct (concat_axis1_ok _ _ Hc) as [_ [<- _]].
  cbn [ffill sort_index columns]. rewrite !map_map. reflexivity.
Qed.

End PanelFacts.

(** ** Forward fill along an ascending index *)

Section FillFacts.
Context {V : Type}.
Implicit Types (frames : list (DataFrame V)) (panel f : DataFrame V).

(** Along strictly ascending labels [l], filling the column [map g l] from
    [a] gives at label [d] the value of the latest label up to [d] where [g]
    is defined, and [a] when there is none. *)
Lemma ffill_sorted_spec (g : Stamp -> option V) (l : list Stamp) :
  StronglySorted stamp_lt l ->
  forall a i d, nth_error l i = Some d ->
  exists r, nth_error (ffill_from a (map g l)) i = Some r /\
    ((exists d' v, In d' l /\ stamp_le d' d /\ g d' = Some v /\ r = Some v /\
        forall d'', In d'' l -> stamp_le d'' d -> g d'' <> None -> stamp_le d'' d')
     \/ ((forall d'', In d'' l -> stamp_le d'' d -> g d'' = None) /\ r = a)).
Proof.
  induction 1 as [|h t Hs IH Hh]; intros a i d Hi.
  - destruct i; discriminate.
  - rewrite Forall_forall in Hh.
    assert (Hhead : forall d'', In d'' (h :: t) -> stamp_le d'' h -> d'' = h).
    { intros d'' [E|Hin] Hle; [now symmetry|].
      exfalso. exact (stamp_lt_not_le _ _ (Hh _ Hin) Hle). }
    destruct i as [|j]; simpl in Hi |- *.
    + injection Hi as <-. eexists; split; [reflexivity|].
      destruct (g h) as [v|] eqn:Eg.
      * left. exists h, v.
        split; [now left|]. split; [apply stamp_le_refl|].
        split; [assumption|]. split; [reflexivity|].
        intros d'' Hin Hle _. rewrite (Hhead _ Hin Hle). apply stamp_le_refl.
      * right. split; [|reflexivity].
        intros d'' Hin Hle. now rewrite (Hhead _ Hin Hle).
    + assert (Hd : In d t) by (eapply nth_error_In; eauto).
      assert (Hhd : stamp_le h d) by (apply stamp_le_cases; left; auto).
      destruct (IH (match g h with Some _ => g h | None => a end) j d Hi)
        as [r [Hr Hcase]].
      exists r; split; [exact Hr|].
      destruct Hcase as [[d' [v [Hin [Hle [Eg [Er Hmax]]]]]]|[Hnone Er]].
      * left. exists d', v.
        split; [now right|]. split; [assumption|].
        split; [assumption|]. split; [assumption|].
        intros d'' [<-|Hin''] Hle'' Hg; [|auto].
        apply stamp_le_cases; left; auto.
      * destruct (g h) as [v|] eqn:Eg.
        { left. exists h, v.
          split; [now left|]. split; [assumption|].
          split; [assumption|]. split; [assumption|].
          intros d'' [<-|Hin''] Hle'' Hg; [apply stamp_le_refl|].
          exfalso. apply Hg. auto. }
        { right. split; [|assumption].
          intros d'' [<-|Hin''] Hle''; auto. }
Qed.

Lemma find_by_name {B : Type} (cols : list (string * B)) (n : string) (v : B) :
  NoDup (map fst cols) -> In (n, v) cols ->
  find (fun c => String.eqb (fst c) n) cols = Some (n, v).
Proof.
  induction cols as [|[m w] cols IH]; simpl; [tauto|].
  intros Hn [E|Hin]; inversion Hn as [|? ? Hnot Hn']; subst.
  - injection E as -> ->. now rewrite String.eqb_refl.
  - destruct (String.eqb m n) eqn:Em; [|auto].
    apply String.eqb_eq in Em; subst. exfalso. apply Hnot.
    change n with (fst (n, v)). now apply in_map.
Qed.

Lemma merged_get_col frames panel f c :
  valid_sources frames -> merge_frames frames = Ok panel ->
  In f frames -> In c (columns f) ->
  get_col panel (fst c) = Some (snd (merged_column (index panel) f c)).
Proof.
  intros [Hlabels Hnames] Hm Hf Hc. unfold get_col.
  rewrite (find_by_name _ (fst c) (snd (merged_column (index panel) f c)));
    [reflexivity| |].
  - rewrite (merge_frames_names _ _ Hm). exact Hnames.
  - destruct (merge_frames_shape _ _ Hlabels Hm) as [_ Hcols]. rewrite Hcols.
    apply in_flat_map. exists f; split; [assumption|].
    apply in_map_iff. exists c; split; [reflexivity|assumption].
Qed.

(** Every cell of the panel holds the most recent non-missing observation
    of its source column. *)
Lemma panel_cell_most_recent frames panel f c d :
  valid_sources frames -> merge_frames frames = Ok panel ->
  In f frames -> In c (columns f) -> In d (index panel) ->
  most_recent f (snd c) d (cell panel (fst c) d).
Proof.
  intros Hv Hm Hf Hc Hd. unfold cell.
  rewrite (merged_get_col _ _ _ _ Hv Hm Hf Hc). simpl.
  pose proof (merge_frames_index_sorted _ _ (proj1 Hv) Hm) as Hs.
  destruct (In_nth_error _ _ Hd) as [i Hi].
  destruct (ffill_sorted_spec (loc (index f) (snd c)) _ Hs None i d Hi)
    as [r [Hr Hcase]].
  rewrite (loc_nth _ _ _ _ _ (sorted_lt_nodup _ Hs) Hi Hr).
  assert (Hnd : NoDup (index f)).
  { destruct Hv as [Hv _]. unfold unique_labels in Hv.
    rewrite Forall_forall in Hv. auto. }
  assert (Hobs : forall d'' v'', observed f (snd c) d'' v'' ->
                 In d'' (index panel) /\ loc (index f) (snd c) d'' = Some v'').
  { intros d'' v'' Ho. split.
    - apply (merge_frames_index_In _ _ _ Hm). exists f; split; [assumption|].
      eapply in_combine_l; exact Ho.
    - now apply In_loc. }
  destruct Hcase as [[d' [v [Hin [Hle [Eg [Er Hmax]]]]]]|[Hnone Er]].
  - left. exists d', v.
    split; [now apply loc_Some_In|]. split; [assumption|].
    split; [assumption|].
    intros d'' v'' Ho Hle''. destruct (Hobs _ _ Ho) as [Hin'' Eg''].
    apply Hmax; auto. congruence.
  - right. split; [|assumption].
    intros d'' v'' Ho Hle''. destruct (Hobs _ _ Ho) as [Hin'' Eg''].
    rewrite (Hnone _ Hin'' Hle'') in Eg''. discriminate.
Qed.

End FillFacts.

(* ================================================================== *)
(** * The merged panel *)
(* ================================================================== *)

Lemma stamp_le_antisym (a b : Stamp) : stamp_le a b -> stamp_le b a -> a = b.
Proof.
  intros H H'. apply stamp_le_cases in H. destruct H as [H|H]; [|assumption].
  exfalso. exact (stamp_lt_not_le _ _ H H').
Qed.

Section PanelClaims.
Context {V : Type}.
Implicit Types (frames : list (DataFrame V)) (panel f : DataFrame V).

(** C1: forward-fill invariant of the merged Panel.  For a column [c] of a
    source [f] and a date [d] of the Panel at which the column has no direct
    observation, the Panel's value for [c] at [d] is the column's most recent
    non-missing observation at a date not after [d], and is missing when
    there is no such observation (so dates before the column's first
    observation stay missing). *)
Theorem forward_fill_invariant frames panel f c d :
  valid_sources frames ->
  merge_frames frames = Ok panel ->
  In f frames -> In c (columns f) -> In d (index panel) ->
  (forall v, ~ observed f (snd c) d v) ->
  most_recent f (snd c) d (cell panel (fst c) d).
Proof.
  intros Hv Hm Hf Hc Hd _. now apply panel_cell_most_recent with (frames := frames).
Qed.


(** C5, as the code has it: the merge fills forward only.  A Panel value is
    always an observation of its own column at a date not after the cell's
    date (no interpolation), a date before every observation of the column
    stays missing (no backward fill), every Panel date is a date of some
    source (no date is added past the data), and at a Panel date after the
    column's last observation the column's last value is carried forward. *)
Theorem merge_fills_forward_only frames panel f c d :
  valid_sources frames ->
  merge_frames frames = Ok panel ->
  In f frames -> In c (columns f) -> In d (index panel) ->
  (forall v, cell panel (fst c) d = Some v ->
     exists d', observed f (snd c) d' v /\ stamp_le d' d) /\
  ((forall d' v, observed f (snd c) d' v -> stamp_lt d d') ->
     cell panel (fst c) d = None) /\
  (exists g, In g frames /\ In d (index g)) /\
  (forall dl v, observed f (snd c) dl v ->
     (forall d' v', observed f (snd c) d' v' -> stamp_le d' dl) ->
     stamp_lt dl d -> cell panel (fst c) d = Some v).
Proof.
  intros Hv Hm Hf Hc Hd.
  pose proof (panel_cell_most_recent _ _ _ _ _ Hv Hm Hf Hc Hd) as Hr.
  assert (Hnd : NoDup (index f)).
  { destruct Hv as [Hv _]. unfold unique_labels in Hv.
    rewrite Forall_forall in Hv. auto. }
  split; [|split; [|split]].
  - intros v Ev. destruct Hr as [[d' [v' [Ho [Hle [Er _]]]]]|[_ Er]].
    + exists d'. split; [|assumption]. congruence.
    + congruence.
  - intros Hbefore. destruct Hr as [[d' [v' [Ho [Hle _]]]]|[_ Er]]; [|assumption].
    exfalso. exact (stamp_lt_not_le _ _ (Hbefore _ _ Ho) Hle).
  - now apply (merge_frames_index_In _ _ d Hm).
  - intros dl v Ho Hlast Hlt.
    assert (Hle : stamp_le dl d) by (apply stamp_le_cases; now left).
    destruct Hr as [[d' [v' [Ho' [Hle' [Er Hmax]]]]]|[Hnone _]].
    + assert (d' = dl) as -> by (apply stamp_le_antisym; eauto).
      rewrite Er. f_equal.
      pose proof (In_loc _ _ _ _ Hnd Ho) as E1.
      pose proof (In_loc _ _ _ _ Hnd Ho') as E2. congruence.
    + exfalso. exact (Hnone _ _ Ho Hle).
Qed.

Lemma find_perm (l l' : list (string * list (option V))) (n : string) :
  NoDup (map fst l) -> Permutation l l' ->
  find (fun c => String.eqb (fst c) n) l = find (fun c => String.eqb (fst c) n) l'.
Proof.
  intros Hn Hp.
  assert (Hn' : NoDup (map fst l')).
  { eapply Permutation_NoDup; [apply Permutation_map; exact Hp|exact Hn]. }
  destruct (find (fun c => String.eqb (fst c) n) l) as [[m v]|] eqn:E.
  - destruct (find_some _ _ E) as [Hin Em]. simpl in Em.
    apply String.eqb_eq in Em; subst m.
    symmetry. apply find_by_name; [assumption|].
    eapply Permutation_in; eauto.
  - destruct (find (fun c => String.eqb (fst c) n) l') as [[m v]|] eqn:E';
      [|reflexivity].
    destruct (find_some _ _ E') as [Hin Em].
    apply (Permutation_in _ (Permutation_sym Hp)) in Hin.
    now rewrite (find_none _ _ E _ Hin) in Em.
Qed.

(** C8, as the code has it: supplying the same sources in another order
    gives the same date index and the same columns up to their order, which
    follows the order of the sources; with column names used once, every
    named cell holds the same value. *)
Theorem merge_order_permutes_columns frames frames' panel panel' :
  Permutation frames frames' ->
  unique_labels frames ->
  merge_frames frames = Ok panel ->
  merge_frames frames' = Ok panel' ->
  index panel = index panel' /\
  Permutation (columns panel) (columns panel') /\
  map fst (columns panel) = map fst (flat_map columns frames) /\
  map fst (columns panel') = map fst (flat_map columns frames') /\
  (unique_names frames -> forall c d, cell panel c d = cell panel' c d).
Proof.
  intros Hp Hu Hm Hm'.
  assert (Hu' : unique_labels frames')
    by (unfold unique_labels in *; now rewrite <- Hp).
  assert (Hidx : index panel = index panel').
  { apply sorted_lt_unique; eauto using merge_frames_index_sorted.
    intros d. rewrite (merge_frames_index_In _ _ d Hm), (merge_frames_index_In _ _ d Hm').
    split; intros [f [Hf Hd]]; exists f; split; auto;
      eauto using Permutation_in, Permutation_sym. }
  assert (Hcols : Permutation (columns panel) (columns panel')).
  { destruct (merge_frames_shape _ _ Hu Hm) as [_ ->].
    destruct (merge_frames_shape _ _ Hu' Hm') as [_ ->].
    rewrite Hidx. now apply Permutation_flat_map. }
  split; [exact Hidx|]. split; [exact Hcols|].
  split; [now apply merge_frames_names|]. split; [now apply merge_frames_names|].
  intros Hnames c d. unfold cell, get_col.
  rewrite (find_perm (columns panel) (columns panel') c);
    [now rewrite Hidx| |exact Hcols].
  rewrite (merge_frames_names _ _ Hm). exact Hnames.
Qed.

End PanelClaims.

(** ** The two sample sources merged *)

Ltac distinct :=
  unfold Sample.jan;
  repeat (constructor; [simpl; intuition discriminate|]); constructor.

Lemma sample_sources_valid : valid_sources [Sample.hy_frame; Sample.ig_frame].
Proof.
  split.
  - constructor; [distinct|]. constructor; [distinct|]. constructor.
  - unfold unique_names. simpl. distinct.
Defined.

Lemma forward_fill_invariant_witness :
  exists panel,
    merge_frames [Sample.hy_frame; Sample.ig_frame] = Ok panel /\
    cell panel "IG_OAS" (Sample.jan 3) = Some (1 # 1)%Q /\
    most_recent Sample.ig_frame [Some (1 # 1)%Q; Some (2 # 1)%Q] (Sample.jan 3)
                (cell panel "IG_OAS" (Sample.jan 3)).
Proof.
  eexists. split; [reflexivity|]. split; [reflexivity|].
  apply (forward_fill_invariant [Sample.hy_frame; Sample.ig_frame] _
           Sample.ig_frame ("IG_OAS", [Some (1 # 1)%Q; Some (2 # 1)%Q]) (Sample.jan 3)).
  - exact sample_sources_valid.
  - reflexivity.
  - simpl; auto.
  - simpl; auto.
  - simpl; auto.
  - intros v H. unfold observed, Sample.jan in H. simpl in H.
    intuition discriminate.
Defined.


(** C5 as stated fails: 4 January is after the last observation of HY_OAS
    (3 January), and the Panel holds 5 there, the value of 3 January. *)
Lemma missing_after_last_counterexample :
  exists panel,
    merge_frames [Sample.hy_frame; Sample.ig_frame] = Ok panel /\
    In (Sample.jan 4) (index panel) /\
    (forall d v, observed Sample.hy_frame [Some (4 # 1)%Q; Some (5 # 1)%Q] d v ->
                 stamp_lt d (Sample.jan 4)) /\
    cell panel "HY_OAS" (Sample.jan 4) = Some (5 # 1)%Q /\
    cell panel "HY_OAS" (Sample.jan 4) <> None.
Proof.
  eexists. split; [reflexivity|].
  split; [simpl; auto|].
  split.
  - intros d v H. simpl in H.
    destruct H as [H|[H|[]]]; injection H as <- _; reflexivity.
  - split; [reflexivity|discriminate].
Qed.

Lemma merge_fills_forward_only_witness :
  exists panel,
    merge_frames [Sample.hy_frame; Sample.ig_frame] = Ok panel /\
    cell panel "HY_OAS" (Sample.jan 4) = Some (5 # 1)%Q.
Proof.
  eexists. split; [reflexivity|].
  assert (Hf : In Sample.hy_frame [Sample.hy_frame; Sample.ig_frame])
    by (simpl; auto).
  assert (Hc : In ("HY_OAS", [Some (4 # 1)%Q; Some (5 # 1)%Q])
                  (columns Sample.hy_frame)) by (simpl; auto).
  pose proof (merge_fills_forward_only [Sample.hy_frame; Sample.ig_frame] _
                Sample.hy_frame _ (Sample.jan 4) sample_sources_valid eq_refl
                Hf Hc (or_intror (or_intror (or_introl eq_refl)))) as Hall.
  apply (proj2 (proj2 (proj2 Hall)) (Sample.jan 3)).
  - unfold observed; simpl; auto.
  - intros d v H. simpl in H.
    destruct H as [H|[H|[]]]; injection H as <- _; reflexivity.
  - reflexivity.
Defined.

(** C8 as stated fails: the two orders of the sample sources give Panels
    whose columns stand in different orders. *)
Lemma merge_order_counterexample :
  Permutation [Sample.hy_frame; Sample.ig_frame] [Sample.ig_frame; Sample.hy_frame] /\
  merge_frames [Sample.hy_frame; Sample.ig_frame]
    <> merge_frames [Sample.ig_frame; Sample.hy_frame].
Proof.
  split; [apply perm_swap|].
  intros H.
  assert (E := f_equal (fun r => match r with
                                 | Ok p => map fst (columns p)
                                 | Raise _ => []
                                 end) H).
  vm_compute in E. discriminate E.
Qed.

Lemma merge_order_permutes_columns_witness :
  exists panel panel',
    merge_frames [Sample.hy_frame; Sample.ig_frame] = Ok panel /\
    merge_frames [Sample.ig_frame; Sample.hy_frame] = Ok panel' /\
    index panel = index panel' /\
    Permutation (columns panel) (columns panel').
Proof.
  do 2 eexists. split; [reflexivity|]. split; [reflexivity|].
  destruct (merge_order_permutes_columns
              [Sample.hy_frame; Sample.ig_frame] [Sample.ig_frame; Sample.hy_frame]
              _ _ (perm_swap _ _ _) (proj1 sample_sources_valid) eq_refl eq_refl)
    as [Hi [Hc _]].
  split; assumption.
Defined.

(* ================================================================== *)
(** * Loading the sources *)
(* ================================================================== *)

Section LoadClaims.
Context {V : Type}.
Variable to_datetime : string -> Stamp.
Variable to_numeric : string -> option V.
Variable read_latest : string -> option (result RawTable).

Local Abbreviation load := (load_series to_datetime to_numeric read_latest).
Local Abbreviation frames_of := (load_frames to_datetime to_numeric read_latest).
Local Abbreviation loads := (ComputeSeries.loads to_datetime to_numeric read_latest).
Local Abbreviation collected := (loaded_frames to_datetime to_numeric read_latest).

(** The frame [load_series] builds from a table with a value column. *)
Lemma load_series_Some s df :
  load s = Ok (Some df) ->
  exists raw vc rest,
    read_latest (sid s) = Some (Ok raw) /\
    value_col_candidates raw (pick_date_col raw) = vc :: rest /\
    df = mkDF (map fst (sort_rows (combine (map to_datetime
                                              (raw_get raw (pick_date_col raw)))
                                           (snd vc))))
              [(col s, map (fun r => to_numeric (snd r))
                           (sort_rows (combine (map to_datetime
                                                  (raw_get raw (pick_date_col raw)))
                                               (snd vc))))].
Proof.
  unfold load_series.
  destruct (read_latest (sid s)) as [[raw|e]|]; try discriminate.
  destruct (value_col_candidates raw (pick_date_col raw)) as [|vc rest] eqn:Ec;
    [discriminate|].
  destruct (String.eqb (col s) "DATE"); [discriminate|].
  destruct (existsb _ rest); [discriminate|].
  intros [= <-]. exists raw, vc, rest. repeat split. exact Ec.
Qed.

Lemma load_series_columns s df :
  load s = Ok (Some df) -> exists vals, columns df = [(col s, vals)].
Proof.
  intros H. destruct (load_series_Some _ _ H) as [raw [vc [rest [_ [_ ->]]]]].
  eexists. reflexivity.
Qed.

Lemma load_frames_Ok (series : list SeriesDef) frames :
  frames_of series = Ok frames <->
  (forall s, In s series -> exists r, load s = Ok r) /\ frames = collected series.
Proof.
  revert frames. induction series as [|s t IH]; intros frames.
  - simpl. split.
    + intros [= <-]. split; [intros s []|reflexivity].
    + intros [_ ->]. reflexivity.
  - unfold loaded_frames. cbn [load_frames flat_map]. fold (collected t).
    destruct (load s) as [r|e] eqn:E.
    + destruct (frames_of t) as [ft|e'] eqn:Et.
      * destruct (proj1 (IH ft) eq_refl) as [Hall ->]. split.
        { intros [= <-]. split.
          - intros x [<-|Hx]; [now exists r|now apply Hall].
          - now destruct r. }
        { intros [_ ->]. now destruct r. }
      * split; [discriminate|]. intros [Hall _]. exfalso.
        assert (Hok : @Raise (list (DataFrame V)) e' = Ok (collected t)).
        { apply IH. split; [|reflexivity]. intros x Hx. apply Hall. now right. }
        discriminate Hok.
    + split; [discriminate|]. intros [Hall _].
      destruct (Hall s (or_introl eq_refl)) as [r Hr]. rewrite Hr in E.
      discriminate E.
Qed.

Lemma load_frames_Raise (pre post : list SeriesDef) s e :
  (forall x, In x pre -> exists r, load x = Ok r) ->
  load s = Raise e ->
  frames_of (pre ++ s :: post) = Raise e.
Proof.
  intros Hpre Hs. induction pre as [|x pre IH]; simpl.
  - now rewrite Hs.
  - destruct (Hpre x (or_introl eq_refl)) as [r ->].
    rewrite IH; [reflexivity|]. intros y Hy. apply Hpre. now right.
Qed.

Lemma collected_nil (series : list SeriesDef) :
  (forall s, In s series -> exists r, load s = Ok r) ->
  (collected series = [] <-> forall s, In s series -> load s = Ok None).
Proof.
  unfold loaded_frames. induction series as [|s t IH]; intros Hall; simpl.
  - split; [intros _ s []|reflexivity].
  - assert (Ht : forall x, In x t -> exists r, load x = Ok r)
      by (intros x Hx; apply Hall; now right).
    destruct (Hall s (or_introl eq_refl)) as [[df|] E]; rewrite E; simpl.
    + split; [discriminate|]. intros H.
      specialize (H s (or_introl eq_refl)). congruence.
    + rewrite (IH Ht). split.
      * intros H x [<-|Hx]; auto.
      * intros H x Hx. apply H. now right.
Qed.

Lemma collected_In (series : list SeriesDef) f :
  In f (collected series) <-> exists s, In s series /\ load s = Ok (Some f).
Proof.
  unfold loaded_frames. rewrite in_flat_map. split.
  - intros [s [Hs Hf]]. exists s. split; [assumption|].
    destruct (load s) as [[df|]|e]; try (now destruct Hf).
    destruct Hf as [->|[]]. reflexivity.
  - intros [s [Hs E]]. exists s. split; [assumption|]. rewrite E. now left.
Qed.

Lemma collected_names (series : list SeriesDef) :
  map fst (flat_map columns (collected series)) = map col (filter loads series).
Proof.
  unfold loaded_frames. induction series as [|s t IH]; simpl; [reflexivity|].
  unfold ComputeSeries.loads at 1.
  destruct (load s) as [[df|]|e] eqn:E; simpl; try exact IH.
  destruct (load_series_columns _ _ E) as [vals ->]. simpl. now rewrite IH.
Qed.

Lemma load_frames_Raise_inv (series : list SeriesDef) e :
  frames_of series = Raise e ->
  exists pre s post,
    series = pre ++ s :: post /\
    (forall x, In x pre -> exists r, load x = Ok r) /\
    load s = Raise e.
Proof.
  induction series as [|s t IH]; [discriminate|].
  cbn [load_frames]. destruct (load s) as [r|e'] eqn:E.
  - destruct (frames_of t) as [ft|e''] eqn:Et; [discriminate|].
    intros [= ->]. destruct (IH eq_refl) as [pre [x [post [-> [Hpre Hx]]]]].
    exists (s :: pre), x, post. split; [reflexivity|]. split; [|exact Hx].
    intros y [<-|Hy]; [now exists r|now apply Hpre].
  - intros [= ->]. exists [], s, t. split; [reflexivity|].
    split; [intros x []|exact E].
Qed.


(** C10, as the code has it: a row whose date does not parse is kept.  The
    frame [load_series] returns has one row for each row of the raw table,
    the date text replaced by what [to_datetime] gives for it (NaT when it
    does not parse) and the value text by what [to_numeric] gives, in
    ascending label order with the NaT rows last. *)
Theorem load_series_keeps_every_row s df :
  load s = Ok (Some df) ->
  exists raw value_col rest vals,
    read_latest (sid s) = Some (Ok raw) /\
    value_col_candidates raw (pick_date_col raw) = value_col :: rest /\
    columns df = [(col s, vals)] /\
    Permutation (combine (index df) vals)
                (map (fun r => (to_datetime (fst r), to_numeric (snd r)))
                     (combine (raw_get raw (pick_date_col raw)) (snd value_col))) /\
    (forall dtext vtext,
       In (dtext, vtext) (combine (raw_get raw (pick_date_col raw)) (snd value_col)) ->
       to_datetime dtext = NaT ->
       In (NaT, to_numeric vtext) (combine (index df) vals)) /\
    StronglySorted stamp_le (index df).
Proof.
  intros Hl. destruct (load_series_Some _ _ Hl) as [raw [vc [rest [Hraw [Ec ->]]]]].
  exists raw, vc, rest. eexists.
  split; [exact Hraw|]. split; [exact Ec|]. split; [reflexivity|].
  cbn [index].
  assert (Hperm :
    Permutation
      (combine (map fst (sort_rows (combine (map to_datetime
                  (raw_get raw (pick_date_col raw))) (snd vc))))
               (map (fun r => to_numeric (snd r))
                    (sort_rows (combine (map to_datetime
                       (raw_get raw (pick_date_col raw))) (snd vc)))))
      (map (fun r => (to_datetime (fst r), to_numeric (snd r)))
           (combine (raw_get raw (pick_date_col raw)) (snd vc)))).
  { clear Hl Hraw Ec.
    set (rows := combine (map to_datetime (raw_get raw (pick_date_col raw))) (snd vc)).
    assert (E1 : forall (l : list (Stamp * string)),
               combine (map fst l) (map (fun r => to_numeric (snd r)) l)
               = map (fun r => (fst r, to_numeric (snd r))) l).
    { induction l; simpl; congruence. }
    rewrite E1.
    rewrite (Permutation_map _ (sort_rows_perm rows)).
    unfold rows. generalize (snd vc) as vs.
    induction (raw_get raw (pick_date_col raw)) as [|x xs IH]; intros [|v vs];
      simpl; auto. }
  split; [exact Hperm|]. split.
  - intros dtext vtext Hin Hnat.
    apply (Permutation_in _ (Permutation_sym Hperm)).
    rewrite <- Hnat. apply in_map_iff. exists (dtext, vtext). split; [reflexivity|exact Hin].
  - rewrite map_fst_sort_rows. apply sort_labels_le.
Qed.

End LoadClaims.



Lemma load_series_keeps_every_row_witness :
  exists df vals,
    load_series Sample.iso_date Sample.decimal Sample.ig_only
                (mkSeriesDef "BAMLC0A0CM" "IG_OAS") = Ok (Some df) /\
    columns df = [("IG_OAS", vals)] /\
    In (NaT, Some (17 # 10)%Q) (combine (index df) vals) /\
    StronglySorted stamp_le (index df).
Proof.
  destruct (load_series Sample.iso_date Sample.decimal Sample.ig_only
              (mkSeriesDef "BAMLC0A0CM" "IG_OAS")) as [[df|]|e] eqn:E;
    try discriminate E.
  destruct (load_series_keeps_every_row Sample.iso_date Sample.decimal Sample.ig_only
              (mkSeriesDef "BAMLC0A0CM" "IG_OAS") df E)
    as [raw [vc [rest [vals [Hraw [Hvc [Hcols [_ [Hnat Hs]]]]]]]]].
  injection Hraw as <-. injection Hvc as <- _.
  exists df, vals. split; [reflexivity|]. split; [exact Hcols|].
  split; [|exact Hs].
  apply (Hnat "garbage" "1.7"); [|reflexivity].
  simpl. auto.
Defined.

(** C10 as stated fails: the second row of the sample file has the date
    text [garbage], which does not parse, and the frame loaded from the file
    still has three rows, the last one labelled NaT. *)
Lemma unparsed_date_row_counterexample :
  Sample.iso_date "garbage" = NaT /\
  exists df,
    load_series Sample.iso_date Sample.decimal Sample.ig_only
                (mkSeriesDef "BAMLC0A0CM" "IG_OAS") = Ok (Some df) /\
    index df = [Sample.jan 2; Sample.jan 3; NaT] /\
    columns df = [("IG_OAS", [Some (3 # 2)%Q; None; Some (17 # 10)%Q])] /\
    In NaT (index df).
Proof.
  split; [reflexivity|].
  eexists. split; [reflexivity|]. split; [reflexivity|].
  split; [reflexivity|]. simpl. auto.
Qed.

(* ================================================================== *)
(** * Derived columns *)
(* ================================================================== *)

(** ** Reading and assigning columns *)

Section ColumnFacts.
Context {V : Type}.
Implicit Types (df : DataFrame V) (vals : list (option V)).

Lemma get_col_set_col_same df n vals : get_col (set_col df n vals) n = Some vals.
Proof.
  unfold get_col, set_col; simpl.
  induction (columns df) as [|c t IH]; simpl.
  - now rewrite String.eqb_refl.
  - destruct (String.eqb (fst c) n) eqn:E; simpl.
    + now rewrite String.eqb_refl.
    + now rewrite E.
Qed.

Lemma get_col_set_col_other df n m vals :
  n <> m -> get_col (set_col df n vals) m = get_col df m.
Proof.
  intros Hnm. apply String.eqb_neq in Hnm.
  unfold get_col, set_col; simpl.
  induction (columns df) as [|c t IH]; simpl.
  - now rewrite Hnm.
  - destruct (String.eqb (fst c) n) eqn:E; simpl.
    + apply String.eqb_eq in E. rewrite E, Hnm. reflexivity.
    + destruct (String.eqb (fst c) m); [reflexivity|exact IH].
Qed.

Lemma has_col_get_col df n : has_col df n = true <-> get_col df n <> None.
Proof.
  unfold has_col, get_col.
  induction (columns df) as [|c t IH]; simpl.
  - split; [discriminate|congruence].
  - destruct (String.eqb (fst c) n); simpl; [split; [discriminate|reflexivity]|exact IH].
Qed.

Lemma has_col_false df n : has_col df n = false <-> get_col df n = None.
Proof.
  destruct (has_col_get_col df n) as [H1 H2].
  destruct (has_col df n), (get_col df n); split; intros E; try congruence.
  - exfalso. now apply H1.
  - assert (E' : false = true) by (apply H2; discriminate). discriminate E'.
Qed.

End ColumnFacts.

(** ** The spread columns *)

Lemma derive_sub_other out name a b m :
  name <> m -> get_col (derive_sub out name a b) m = get_col out m.
Proof.
  intros H. unfold derive_sub.
  destruct (get_col out a), (get_col out b); auto using get_col_set_col_other.
Qed.

Lemma derive_sub_index out name a b : index (derive_sub out name a b) = index out.
Proof.
  unfold derive_sub. destruct (get_col out a), (get_col out b); reflexivity.
Qed.

Lemma derive_sub_name out name a b :
  get_col (derive_sub out name a b) name =
  match get_col out a, get_col out b with
  | Some xa, Some xb => Some (zip_with fsub xa xb)
  | _, _ => get_col out name
  end.
Proof.
  unfold derive_sub.
  destruct (get_col out a), (get_col out b); auto using get_col_set_col_same.
Qed.

Ltac names_differ := let H := fresh in intros H; discriminate H.

(** ** The z-score columns *)

Lemma z_names_fresh :
  forall c1 c2, In c1 z_candidates -> In c2 z_candidates ->
    z_name c1 <> c2 /\ (c1 <> c2 -> z_name c1 <> z_name c2).
Proof.
  assert (H : forallb (fun c1 => forallb (fun c2 =>
                negb (String.eqb (z_name c1) c2) &&
                (String.eqb c1 c2 || negb (String.eqb (z_name c1) (z_name c2))))
              z_candidates) z_candidates = true) by reflexivity.
  rewrite forallb_forall in H. intros c1 c2 H1 H2.
  specialize (H c1 H1). rewrite forallb_forall in H. specialize (H c2 H2).
  apply andb_true_iff in H. destruct H as [Ha Hb].
  apply negb_true_iff, String.eqb_neq in Ha. split; [exact Ha|].
  intros Hne. apply orb_true_iff in Hb. destruct Hb as [Hb|Hb].
  - apply String.eqb_eq in Hb. contradiction.
  - now apply negb_true_iff, String.eqb_neq in Hb.
Qed.

Lemma add_z_other out c m : z_name c <> m -> get_col (add_z out c) m = get_col out m.
Proof.
  intros H. unfold add_z. destruct (get_col out c); auto using get_col_set_col_other.
Qed.

Lemma add_z_index out c : index (add_z out c) = index out.
Proof. unfold add_z. destruct (get_col out c); reflexivity. Qed.

Lemma fold_add_z_other cs out m :
  (forall c, In c cs -> z_name c <> m) ->
  get_col (fold_left add_z cs out) m = get_col out m.
Proof.
  revert out. induction cs as [|a t IH]; intros out H; simpl; [reflexivity|].
  rewrite IH; [|intros c Hc; apply H; now right].
  apply add_z_other. apply H. now left.
Qed.

Lemma fold_add_z_index cs out : index (fold_left add_z cs out) = index out.
Proof.
  revert out. induction cs as [|a t IH]; intros out; simpl; [reflexivity|].
  now rewrite IH, add_z_index.
Qed.

Lemma fold_add_z_at cs out c xs :
  NoDup cs -> In c cs ->
  (forall c1 c2, In c1 cs -> In c2 cs ->
     z_name c1 <> c2 /\ (c1 <> c2 -> z_name c1 <> z_name c2)) ->
  get_col out c = Some xs ->
  get_col (fold_left add_z cs out) (z_name c) = Some (zscore xs).
Proof.
  revert out. induction cs as [|a t IH]; intros out Hn Hc Hfresh Hx; [destruct Hc|].
  inversion Hn as [|? ? Hnot Hn']; subst. simpl.
  destruct Hc as [->|Hc].
  - rewrite fold_add_z_other.
    + unfold add_z. rewrite Hx. apply get_col_set_col_same.
    + intros c' Hc'. apply Hfresh; [now right|now left|].
      intros ->. contradiction.
  - apply IH; auto.
    + intros c1 c2 H1 H2. apply Hfresh; now right.
    + rewrite add_z_other; [exact Hx|].
      apply Hfresh; [now left|now right].
Qed.

Lemma add_derived_keeps c df :
  In c z_candidates -> get_col (add_derived df) c = get_col (add_spreads df) c.
Proof.
  intros Hc. unfold add_derived. apply fold_add_z_other.
  intros c' Hc'. apply filter_In in Hc'. destruct Hc' as [Hc' _].
  now apply z_names_fresh.
Qed.

Lemma add_derived_z c df xs :
  In c z_candidates -> get_col (add_spreads df) c = Some xs ->
  get_col (add_derived df) (z_name c) = Some (zscore xs).
Proof.
  intros Hc Hx. unfold add_derived. apply fold_add_z_at.
  - apply NoDup_filter. unfold z_candidates.
    repeat (constructor; [simpl; intuition discriminate|]); constructor.
  - apply filter_In. split; [assumption|].
    apply has_col_get_col. congruence.
  - intros c1 c2 H1 H2. apply filter_In in H1, H2.
    apply z_names_fresh; tauto.
  - exact Hx.
Qed.

Lemma zip_with_nth {A B C : Type} (f : A -> B -> C) l m i :
  nth_error (zip_with f l m) i =
  match nth_error l i, nth_error m i with
  | Some a, Some b => Some (f a b)
  | _, _ => None
  end.
Proof.
  revert m i; induction l as [|a l IH]; intros [|b m] [|i]; simpl; auto;
    destruct (nth_error l i); reflexivity.
Qed.

Lemma add_spreads_index df : index (add_spreads df) = index df.
Proof. unfold add_spreads. now rewrite !derive_sub_index. Qed.

Lemma add_spreads_spec df name a b :
  In (name, a, b) spread_specs ->
  get_col (add_spreads df) name =
  match get_col df a, get_col df b with
  | Some xa, Some xb => Some (zip_with fsub xa xb)
  | _, _ => get_col df name
  end.
Proof.
  unfold spread_specs, add_spreads. simpl.
  intros [E|[E|[E|[]]]]; injection E as <- <- <-.
  - rewrite !derive_sub_other by names_differ. apply derive_sub_name.
  - rewrite derive_sub_other by names_differ. rewrite derive_sub_name.
    rewrite !derive_sub_other by names_differ. reflexivity.
  - rewrite derive_sub_name.
    rewrite !derive_sub_other by names_differ. reflexivity.
Qed.

Lemma spread_is_candidate name a b :
  In (name, a, b) spread_specs -> In name z_candidates.
Proof.
  unfold spread_specs, z_candidates. simpl.
  intros [E|[E|[E|[]]]]; injection E as <- _ _; auto 10.
Qed.

(** C6: each derived spread is computed only when both of its input columns
    are in the Panel, and is then their difference row by row on the Panel's
    own index; when an input is absent nothing is computed for it and
    nothing is raised: the Panel keeps what it had under that name, so a
    Panel without a column of that name gets none.  In particular a Panel
    with HY_OAS and without IG_OAS gets no HY_IG_SPREAD. *)
Theorem derived_spread_needs_inputs df name a b :
  In (name, a, b) spread_specs ->
  index (add_derived df) = index df /\
  (forall xa xb, get_col df a = Some xa -> get_col df b = Some xb ->
     get_col (add_derived df) name = Some (zip_with fsub xa xb) /\
     forall i x y, nth_error xa i = Some (Some x) -> nth_error xb i = Some (Some y) ->
       nth_error (zip_with fsub xa xb) i = Some (Some (x - y)%R)) /\
  (has_col df a = false \/ has_col df b = false ->
     get_col (add_derived df) name = get_col df name) /\
  (has_col df a = false \/ has_col df b = false ->
     has_col df name = false -> has_col (add_derived df) name = false).
Proof.
  intros Hs.
  assert (Hg : get_col (add_derived df) name =
               match get_col df a, get_col df b with
               | Some xa, Some xb => Some (zip_with fsub xa xb)
               | _, _ => get_col df name
               end).
  { rewrite (add_derived_keeps _ _ (spread_is_candidate _ _ _ Hs)).
    now apply add_spreads_spec. }
  assert (Hmiss : has_col df a = false \/ has_col df b = false ->
                  get_col (add_derived df) name = get_col df name).
  { rewrite !has_col_false, Hg. intros [-> | ->]; [reflexivity|].
    destruct (get_col df a); reflexivity. }
  split; [|split; [|split]].
  - unfold add_derived. now rewrite fold_add_z_index, add_spreads_index.
  - intros xa xb Ha Hb. rewrite Hg, Ha, Hb. split; [reflexivity|].
    intros i x y Hx Hy. now rewrite zip_with_nth, Hx, Hy.
  - exact Hmiss.
  - intros Hm Hn. apply has_col_false. rewrite (Hmiss Hm).
    now apply has_col_false.
Qed.

Lemma derived_spread_needs_inputs_witness :
  has_col (add_derived Sample.hy_panel) "HY_IG_SPREAD" = false /\
  get_col (add_derived Sample.hy_ig_panel) "HY_IG_SPREAD"
  = Some [Some (4 - 1)%R; None].
Proof.
  pose proof (derived_spread_needs_inputs Sample.hy_panel
                "HY_IG_SPREAD" "HY_OAS" "IG_OAS" (or_introl eq_refl)) as H1.
  pose proof (derived_spread_needs_inputs Sample.hy_ig_panel
                "HY_IG_SPREAD" "HY_OAS" "IG_OAS" (or_introl eq_refl)) as H2.
  split.
  - apply (proj2 (proj2 (proj2 H1))); [right|]; reflexivity.
  - apply (proj1 (proj2 H2) [Some 4%R; Some 5%R] [Some 1%R; None]); reflexivity.
Defined.

(** ** Mean and population deviation of a window *)

Local Open Scope R_scope.

Lemma Rsum_sq_nonneg (m : R) (l : list R) :
  0 <= Rsum (map (fun x => (x - m) * (x - m)) l).
Proof.
  induction l as [|a l IH]; simpl; [lra|].
  pose proof (Rle_0_sqr (a - m)) as H. unfold Rsqr in H. lra.
Qed.

Lemma Rsum_sq_zero (m : R) (l : list R) :
  Rsum (map (fun x => (x - m) * (x - m)) l) = 0 -> forall x, In x l -> x = m.
Proof.
  induction l as [|a l IH]; simpl; [intros _ x []|].
  intros H x Hx.
  pose proof (Rle_0_sqr (a - m)) as Ha. unfold Rsqr in Ha.
  pose proof (Rsum_sq_nonneg m l) as Hl.
  destruct (Rplus_eq_R0 _ _ Ha Hl H) as [H0 Hrest].
  destruct Hx as [<-|Hx]; [|now apply IH].
  destruct (Rmult_integral _ _ H0); lra.
Qed.

Lemma INR_length_pos {A : Type} (l : list A) : l <> [] -> 0 < INR (List.length l).
Proof.
  destruct l; [congruence|]. intros _. apply lt_0_INR. simpl. lia.
Qed.

Lemma var_pop_nonneg (l : list R) : 0 <= var_pop l.
Proof.
  unfold var_pop. destruct l as [|a l].
  - simpl. unfold Rdiv. rewrite Rmult_0_l. lra.
  - apply Rmult_le_pos; [apply Rsum_sq_nonneg|].
    left. apply Rinv_0_lt_compat, INR_length_pos. discriminate.
Qed.

(** A window whose deviation is zero holds its mean at every row. *)
Lemma std_pop_zero (l : list R) :
  std_pop l = 0 -> forall x, In x l -> x = mean l.
Proof.
  intros Hs x Hx. unfold std_pop in Hs.
  apply sqrt_eq_0 in Hs; [|apply var_pop_nonneg].
  assert (Hne : l <> []) by (destruct l; [destruct Hx|discriminate]).
  pose proof (INR_length_pos l Hne) as Hn.
  unfold var_pop, Rdiv in Hs.
  destruct (Rmult_integral _ _ Hs) as [H0|Hinv].
  - eapply Rsum_sq_zero; eauto.
  - exfalso. apply (Rinv_neq_0_compat (INR (List.length l))); lra.
Qed.

Lemma Rsum_constant (k : R) (l : list R) :
  (forall x, In x l -> x = k) -> Rsum l = INR (List.length l) * k.
Proof.
  induction l as [|a l IH]; intros H.
  - simpl. lra.
  - change (Rsum (a :: l)) with (a + Rsum l).
    change (List.length (a :: l)) with (S (List.length l)).
    rewrite S_INR.
    rewrite IH by (intros x Hx; apply H; now right).
    rewrite (H a) by (now left). lra.
Qed.

(** A constant window has deviation zero. *)
Lemma std_pop_constant (k : R) (l : list R) :
  (forall x, In x l -> x = k) -> std_pop l = 0.
Proof.
  intros H. unfold std_pop.
  replace (var_pop l) with 0; [apply sqrt_0|].
  unfold var_pop. destruct l as [|a l].
  - simpl. unfold Rdiv. now rewrite Rmult_0_l.
  - pose proof (INR_length_pos (a :: l) ltac:(discriminate)) as Hn.
    assert (Hm : mean (a :: l) = k).
    { unfold mean. rewrite (Rsum_constant k) by assumption. field. lra. }
    rewrite Hm.
    replace (Rsum (map (fun x => (x - k) * (x - k)) (a :: l))) with 0;
      [unfold Rdiv; now rewrite Rmult_0_l|].
    symmetry. generalize (a :: l) H. clear.
    induction l as [|b l IH]; intros H; simpl; [reflexivity|].
    rewrite IH by (intros x Hx; apply H; now right).
    rewrite (H b) by (now left). lra.
Qed.

Local Close Scope R_scope.

(** ** One row of the z-score *)

Lemma window_at_last {A : Type} (w : nat) (xs : list A) (i : nat) (a : A) :
  (0 < w)%nat -> nth_error xs i = Some a -> In a (window_at w xs i).
Proof.
  intros Hw Hi. unfold window_at.
  apply (nth_error_In _ (i - (S i - w))).
  rewrite nth_error_skipn, nth_error_firstn.
  replace (S i - w + (i - (S i - w)))%nat with i by lia.
  now rewrite (proj2 (Nat.ltb_lt i (S i)) (Nat.lt_succ_diag_r i)).
Qed.

Lemma dropna_In {A : Type} (l : list (option A)) (a : A) :
  In (Some a) l -> In a (dropna l).
Proof.
  intros H. unfold dropna. apply in_flat_map.
  exists (Some a). split; [assumption|now left].
Qed.

Lemma rolling_nth stat w mp xs i xo :
  nth_error xs i = Some xo ->
  nth_error (rolling stat w mp xs) i =
  Some (if (List.length (dropna (window_at w xs i)) <? mp)%nat then None
        else Some (stat (dropna (window_at w xs i)))).
Proof.
  intros Hi. unfold rolling.
  assert (Hlt : (i < List.length xs)%nat).
  { apply nth_error_Some. congruence. }
  rewrite nth_error_map, nth_error_seq.
  now rewrite (proj2 (Nat.ltb_lt _ _) Hlt).
Qed.

Lemma zip_with_length {A B C : Type} (f : A -> B -> C) l m :
  List.length l = List.length m -> List.length (zip_with f l m) = List.length l.
Proof.
  revert m; induction l as [|a l IH]; intros [|b m]; simpl; try discriminate; auto.
Qed.

Lemma rolling_length stat w mp xs :
  List.length (rolling stat w mp xs) = List.length xs.
Proof. unfold rolling. now rewrite length_map, length_seq. Qed.

Lemma zscore_length xs : List.length (zscore xs) = List.length xs.
Proof.
  unfold zscore.
  assert (H : List.length (zip_with fsub xs (rolling mean window (window / 3) xs))
              = List.length xs).
  { apply zip_with_length. now rewrite rolling_length. }
  rewrite zip_with_length; [exact H|]. now rewrite H, rolling_length.
Qed.

Lemma min_periods_30 : (window = 90 /\ window / 3 = 30)%nat.
Proof. split; reflexivity. Qed.

Lemma zscore_nth xs i xo :
  nth_error xs i = Some xo ->
  let obs := dropna (window_at 90 xs i) in
  nth_error (zscore xs) i =
  Some (fdiv (fsub xo (if (List.length obs <? 30)%nat then None else Some (mean obs)))
             (if (List.length obs <? 30)%nat then None else Some (std_pop obs))).
Proof.
  intros Hi obs. unfold zscore.
  destruct min_periods_30 as [-> ->].
  rewrite !zip_with_nth, Hi, !(rolling_nth _ _ _ _ _ _ Hi). reflexivity.
Qed.

(** The rows of a z-score column, through the functions of the model. *)
Lemma zscore_rows df c xs :
  In c z_candidates ->
  get_col (add_derived df) c = Some xs ->
  exists zs,
    get_col (add_derived df) (z_name c) = Some zs /\
    List.length zs = List.length xs /\
    forall i xo, nth_error xs i = Some xo ->
      let obs := dropna (window_at 90 xs i) in
      exists z, nth_error zs i = Some z /\
        ((List.length obs < 30)%nat -> z = None) /\
        (xo = None -> z = None) /\
        (std_pop obs = 0%R -> z = None) /\
        ((exists k, forall v, In v obs -> v = k) -> z = None) /\
        (forall x, xo = Some x -> (30 <= List.length obs)%nat -> std_pop obs <> 0%R ->
           z = Some ((x - mean obs) / std_pop obs)%R).
Proof.
  intros Hc Hx. rewrite (add_derived_keeps _ _ Hc) in Hx.
  exists (zscore xs). split; [now apply add_derived_z|].
  split; [apply zscore_length|].
  intros i xo Hi obs. eexists. split; [exact (zscore_nth _ _ _ Hi)|].
  fold obs.
  assert (Hzero : std_pop obs = 0%R ->
            fdiv (fsub xo (if (List.length obs <? 30)%nat then None else Some (mean obs)))
                 (if (List.length obs <? 30)%nat then None else Some (std_pop obs)) = None).
  { intros Hs. destruct (List.length obs <? 30)%nat; [now destruct xo|].
    destruct xo as [x|]; [|reflexivity]. simpl.
    assert (Hm : x = mean obs).
    { apply std_pop_zero; [assumption|].
      apply dropna_In, window_at_last; [lia|assumption]. }
    rewrite Hs. destruct (Req_dec_T 0 0) as [_|Hne]; [|now elim Hne].
    destruct (Req_dec_T (x - mean obs) 0) as [_|Hne]; [reflexivity|].
    exfalso. apply Hne. rewrite <- Hm. lra. }
  split; [|split; [|split; [|split]]].
  - intros Hlt. apply Nat.ltb_lt in Hlt. rewrite Hlt. now destruct xo.
  - intros ->. reflexivity.
  - exact Hzero.
  - intros [k Hk]. apply Hzero. now apply std_pop_constant with (k := k).
  - intros x -> Hge Hs. apply Nat.ltb_ge in Hge. rewrite Hge. simpl.
    destruct (Req_dec_T (std_pop obs) 0); [contradiction|reflexivity].
Qed.

Lemma skipn_firstn_rows {A : Type} (d : A) (xs : list A) (a b : nat) :
  (b <= List.length xs)%nat ->
  skipn a (firstn b xs) = map (fun j => nth j xs d) (seq a (b - a)).
Proof.
  intros Hb. apply nth_error_ext. intros n.
  rewrite nth_error_skipn, nth_error_firstn, nth_error_map, nth_error_seq.
  destruct (Nat.ltb_spec (a + n) b) as [H|H];
    destruct (Nat.ltb_spec n (b - a)) as [H'|H']; try lia; [|reflexivity].
  simpl. apply nth_error_nth'. lia.
Qed.

Lemma dropna_rows_of (f : nat -> option R) (l : list nat) :
  dropna (map f l)
  = flat_map (fun j => match f j with Some v => [v] | None => [] end) l.
Proof.
  unfold dropna. induction l as [|j l IH]; simpl; [reflexivity|].
  now rewrite IH.
Qed.

(** The window of the model is the trailing window of the specification. *)
Lemma window_is_trailing (W : nat) (xs : list (option R)) (t : nat) :
  (t < List.length xs)%nat ->
  dropna (window_at W xs t) = trailing_values W xs t.
Proof.
  intros Ht. unfold window_at, trailing_values.
  rewrite (skipn_firstn_rows None) by lia. apply dropna_rows_of.
Qed.

Lemma mean_is_mean_of (l : list R) : mean l = mean_of l.
Proof. reflexivity. Qed.

Lemma std_pop_is_population_std (l : list R) : std_pop l = population_std l.
Proof. reflexivity. Qed.

(** C4: the z-score column added for a listed column [c] of the Panel.  At
    row [t], with the values present in the 90 rows ending at and including
    [t] as the window: the z-score is missing when the window has fewer than
    30 values, when the row itself is missing, and when the standard
    deviation of the window (divisor N) is zero, which is the case of a
    window of one constant value; otherwise it is the value of the row minus
    the mean of the window, divided by that deviation. *)
Theorem rolling_zscore_column df c xs :
  In c z_candidates ->
  get_col (add_derived df) c = Some xs ->
  exists zs,
    get_col (add_derived df) (z_name c) = Some zs /\
    List.length zs = List.length xs /\
    forall t xo, nth_error xs t = Some xo ->
      let obs := trailing_values 90 xs t in
      exists z, nth_error zs t = Some z /\
        ((List.length obs < 30)%nat -> z = None) /\
        (xo = None -> z = None) /\
        (population_std obs = 0%R -> z = None) /\
        ((exists k, forall v, In v obs -> v = k) -> z = None) /\
        (forall x, xo = Some x -> (30 <= List.length obs)%nat ->
           population_std obs <> 0%R ->
           z = Some ((x - mean_of obs) / population_std obs)%R).
Proof.
  intros Hc Hx. destruct (zscore_rows df c xs Hc Hx) as [zs [Hz [Hlen Hrows]]].
  exists zs. split; [exact Hz|]. split; [exact Hlen|].
  intros t xo Ht obs.
  assert (Hlt : (t < List.length xs)%nat) by (apply nth_error_Some; congruence).
  destruct (Hrows t xo Ht) as [z [Hn H]]. exists z. split; [exact Hn|].
  cbv zeta in H. rewrite (window_is_trailing 90 xs t Hlt) in H. fold obs in H.
  rewrite <- std_pop_is_population_std, <- mean_is_mean_of. exact H.
Qed.

Lemma fold_zeros_then (n : nat) (c a : R) :
  fold_right Rplus 0%R (repeat c n ++ [a]) = (INR n * c + a)%R.
Proof.
  induction n as [|n IH].
  - simpl. lra.
  - cbn [repeat app fold_right]. rewrite IH, S_INR. lra.
Qed.

(** In [long_panel] the window of row 90 is rows 1 to 90: the first row has
    left it.  Its mean is 1 and its deviation with divisor N is the square
    root of 89 (with divisor N - 1 it would be that of 90). *)
Lemma long_panel_window :
  trailing_values 90 (Some 100%R :: repeat (Some 0%R) 89 ++ [Some 90%R]) 90
  = repeat 0%R 89 ++ [90%R] /\
  mean_of (repeat 0%R 89 ++ [90%R]) = 1%R /\
  population_std (repeat 0%R 89 ++ [90%R]) = sqrt 89.
Proof.
  split; [reflexivity|].
  assert (Hlen : INR (List.length (repeat 0%R 89 ++ [90%R])) = 90%R).
  { rewrite length_app, repeat_length, INR_IZR_INZ. reflexivity. }
  assert (Hmean : mean_of (repeat 0%R 89 ++ [90%R]) = 1%R).
  { unfold mean_of. rewrite Hlen, fold_zeros_then, INR_IZR_INZ.
    change (IZR (Z.of_nat 89)) with 89%R. lra. }
  split; [exact Hmean|].
  unfold population_std. rewrite Hmean, Hlen. f_equal.
  rewrite map_app, map_repeat. cbn [map].
  rewrite fold_zeros_then, INR_IZR_INZ.
  change (IZR (Z.of_nat 89)) with 89%R. lra.
Qed.

Lemma rolling_zscore_column_witness :
  (exists zs,
     get_col (add_derived Sample.flat_panel) "IG_OAS_Z90" = Some zs /\
     List.length zs = 30%nat /\
     nth_error zs 29 = Some None) /\
  (exists zs,
     get_col (add_derived Sample.long_panel) "IG_OAS_Z90" = Some zs /\
     List.length zs = 91%nat /\
     nth_error zs 28 = Some None /\
     nth_error zs 90 = Some (Some (sqrt 89))).
Proof.
  split.
  - destruct (rolling_zscore_column Sample.flat_panel "IG_OAS" (repeat (Some 2%R) 30))
      as [zs [Hz [Hlen Hrows]]].
    + simpl; auto.
    + reflexivity.
    + exists zs. split; [exact Hz|]. split; [exact Hlen|].
      destruct (Hrows 29%nat (Some 2%R) eq_refl) as [z [Hn [_ [_ [_ [Hconst _]]]]]].
      rewrite Hn. f_equal. apply Hconst. exists 2%R.
      intros v Hv. simpl in Hv.
      repeat (destruct Hv as [Hv|Hv]; [now symmetry|]). destruct Hv.
  - destruct (rolling_zscore_column Sample.long_panel "IG_OAS"
                (Some 100%R :: repeat (Some 0%R) 89 ++ [Some 90%R]))
      as [zs [Hz [Hlen Hrows]]].
    + simpl; auto.
    + reflexivity.
    + exists zs. split; [exact Hz|]. split; [exact Hlen|]. split.
      * destruct (Hrows 28%nat (Some 0%R) eq_refl) as [z [Hn [Hfew _]]].
        rewrite Hn. f_equal. apply Hfew. simpl. lia.
      * destruct (Hrows 90%nat (Some 90%R) eq_refl) as [z [Hn [_ [_ [_ [_ Hval]]]]]].
        destruct long_panel_window as [Hw [Hmean Hstd]].
        cbv zeta in Hval. rewrite Hw, Hmean, Hstd in Hval.
        assert (Hss : (sqrt 89 * sqrt 89 = 89)%R) by (apply sqrt_sqrt; lra).
        assert (Hpos : (0 < sqrt 89)%R) by (apply sqrt_lt_R0; lra).
        rewrite Hn. f_equal. rewrite (Hval 90%R eq_refl).
        { f_equal. replace (90 - 1)%R with (sqrt 89 * sqrt 89)%R by lra.
          field. lra. }
        { rewrite length_app, repeat_length. simpl. lia. }
        { lra. }
Defined.

(* ================================================================== *)
(** * Recession intervals *)
(* ================================================================== *)

Lemma loop_app l m st : loop (l ++ m) st = loop m (loop l st).
Proof. unfold loop. apply fold_left_app. Qed.

Lemma loop_cons x l st : loop (x :: l) st = loop l (span_step st x).
Proof. reflexivity. Qed.

Lemma loop_inactive l st :
  all_inactive l -> in_rec st = false -> loop l st = st.
Proof.
  induction 1 as [|[dt val] l Hv _ IH]; intros Hst; [reflexivity|].
  simpl in Hv; subst val. rewrite loop_cons.
  replace (span_step st (dt, false)) with st; [now apply IH|].
  unfold span_step. now rewrite Hst.
Qed.

Lemma loop_active l st :
  all_active l -> in_rec st = true -> loop l st = st.
Proof.
  induction 1 as [|[dt val] l Hv _ IH]; intros Hst; [reflexivity|].
  simpl in Hv; subst val. rewrite loop_cons.
  replace (span_step st (dt, true)) with st; [now apply IH|].
  unfold span_step. now rewrite Hst.
Qed.

(** What the loop appends does not depend on the spans already there. *)
Lemma loop_spans_prefix l b s acc sp :
  loop l (mkSpanState b s (acc ++ sp))
  = let st := loop l (mkSpanState b s sp) in
    mkSpanState (in_rec st) (start st) (acc ++ spans st).
Proof.
  revert b s sp. induction l as [|[dt val] l IH]; intros b s sp; [reflexivity|].
  rewrite !loop_cons. unfold span_step. cbn [in_rec start spans].
  destruct val, b; cbn [andb negb]; try apply IH.
  destruct s as [s0|]; [|apply IH].
  rewrite <- app_assoc. apply IH.
Qed.

(** Outside a recession the remembered start is never read. *)
Lemma loop_start_irrelevant l s1 s2 sp :
  let st1 := loop l (mkSpanState false s1 sp) in
  let st2 := loop l (mkSpanState false s2 sp) in
  in_rec st1 = in_rec st2 /\ spans st1 = spans st2 /\
  (in_rec st1 = true -> start st1 = start st2).
Proof.
  revert s1 s2 sp. induction l as [|[dt val] l IH]; intros s1 s2 sp.
  - simpl. repeat split. discriminate.
  - cbn zeta. rewrite !loop_cons. unfold span_step. cbn [in_rec start spans].
    destruct val; cbn [andb negb].
    + repeat split.
    + apply IH.
Qed.

Lemma last_app_nonempty {A : Type} (l m : list A) (d : A) :
  m <> [] -> last (l ++ m) d = last m d.
Proof.
  intros Hm. induction l as [|a l IH]; [reflexivity|].
  simpl. rewrite IH. destruct (l ++ m) eqn:E; [|reflexivity].
  apply app_eq_nil in E. destruct E as [_ E]. contradiction.
Qed.

Lemma spans_of_closed pre s run e rest :
  all_inactive pre -> all_active run ->
  spans_of (pre ++ (s, true) :: run ++ (e, false) :: rest) = (s, e) :: spans_of rest.
Proof.
  intros Hpre Hrun. unfold spans_of.
  set (whole := pre ++ (s, true) :: run ++ (e, false) :: rest).
  assert (Hloop : loop whole (mkSpanState false None [])
                  = loop rest (mkSpanState false (Some s) ([(s, e)] ++ []))).
  { unfold whole. rewrite loop_app, (loop_inactive pre (mkSpanState false None []) Hpre eq_refl).
    change ((s, true) :: run ++ (e, false) :: rest)
      with ([(s, true)] ++ run ++ [(e, false)] ++ rest).
    rewrite !loop_app. simpl (loop [(s, true)] _).
    rewrite (loop_active run (mkSpanState true (Some s) []) Hrun eq_refl). reflexivity. }
  rewrite Hloop, loop_spans_prefix. cbn zeta. cbn [in_rec start spans].
  destruct (loop_start_irrelevant rest (Some s) None []) as [Hin [Hsp Hst]].
  cbn zeta in Hin, Hsp, Hst. rewrite Hsp, Hin.
  destruct (in_rec (loop rest (mkSpanState false None []))) eqn:Ein;
    [|reflexivity].
  rewrite Hin in Hst. rewrite (Hst eq_refl).
  destruct (start (loop rest (mkSpanState false None []))) as [s0|];
    [|reflexivity].
  assert (Hne : map fst rest <> []).
  { destruct rest; [discriminate Ein|discriminate]. }
  unfold whole.
  replace (pre ++ (s, true) :: run ++ (e, false) :: rest)
    with ((pre ++ (s, true) :: run ++ [(e, false)]) ++ rest)
    by (rewrite <- app_assoc; simpl; now rewrite <- app_assoc).
  rewrite map_app, (last_app_nonempty _ _ _ Hne). reflexivity.
Qed.

Lemma spans_of_open pre s run :
  all_inactive pre -> all_active run ->
  spans_of (pre ++ (s, true) :: run) = [(s, last (map fst ((s, true) :: run)) NaT)].
Proof.
  intros Hpre Hrun. unfold spans_of.
  assert (Hloop : loop (pre ++ (s, true) :: run) (mkSpanState false None [])
                  = mkSpanState true (Some s) []).
  { rewrite loop_app, (loop_inactive pre (mkSpanState false None []) Hpre eq_refl).
    change ((s, true) :: run) with ([(s, true)] ++ run).
    rewrite loop_app. simpl (loop [(s, true)] _).
    now rewrite (loop_active run (mkSpanState true (Some s) []) Hrun eq_refl). }
  rewrite Hloop. cbn [in_rec start spans app].
  rewrite map_app, last_app_nonempty; [reflexivity|discriminate].
Qed.

Lemma walked_dropna rows l :
  walked rows l ->
  l = map (fun r => (fst r, active (snd r))) (dropna_rows rows).
Proof.
  induction 1 as [|d rows l _ IH|d v rows l Hv _ IH|d v rows l Hv _ IH];
    unfold dropna_rows in *; simpl; try assumption; try reflexivity.
  - rewrite <- IH. f_equal. f_equal. unfold active.
    destruct (Qlt_le_dec (1 # 2) v) as [_|H]; [reflexivity|].
    exfalso. exact (Qle_not_lt _ _ H Hv).
  - rewrite <- IH. f_equal. f_equal. unfold active.
    destruct (Qlt_le_dec (1 # 2) v) as [H|_]; [|reflexivity].
    exfalso. exact (Qle_not_lt _ _ Hv H).
Qed.

Lemma walked_total rows : exists l, walked rows l.
Proof.
  induction rows as [|[d [v|]] rows [l IH]].
  - exists []. constructor.
  - destruct (Qlt_le_dec (1 # 2) v) as [H|H].
    + exists ((d, true) :: l). now constructor.
    + exists ((d, false) :: l). now constructor.
  - exists l. now constructor.
Qed.

(** C3: interval extraction.  The observations walked are the rows of the
    indicator column in index order, the rows with a missing value passed
    over, each active when its value is above one half; without the column
    there is no interval.  Over the observations walked: nothing is emitted
    while the indicator is inactive; a run of active observations opening
    at [s] and followed by an inactive observation at [e] gives the interval
    [(s, e)], after which extraction goes on with what follows; a run still
    active at the end gives [(s, last date walked)].  The indicator
    0,0,1,1,1,0,1,0 on [d1 .. d8] gives [(d3,d6); (d7,d8)], and 0,1,1 on
    [d1; d2; d3] gives [(d2,d3)]; with a missing value, 0,1,NaN,1,0 on
    [d1 .. d5] gives [(d2,d5)], and 0,1,NaN on [d1; d2; d3] gives
    [(d2,d2)]. *)
Theorem interval_extraction :
  (forall pre, all_inactive pre -> spans_of pre = []) /\
  (forall pre s run e rest, all_inactive pre -> all_active run ->
     spans_of (pre ++ (s, true) :: run ++ (e, false) :: rest)
     = (s, e) :: spans_of rest) /\
  (forall pre s run, all_inactive pre -> all_active run ->
     spans_of (pre ++ (s, true) :: run)
     = [(s, last (map fst ((s, true) :: run)) NaT)]) /\
  (forall df vals l, get_col df "USREC" = Some vals ->
     walked (combine (index df) vals) l ->
     recession_spans df = spans_of l) /\
  (forall rows, exists l, walked rows l) /\
  (forall df, get_col df "USREC" = None -> recession_spans df = []) /\
  (forall v : Q, active v = true <-> (1 # 2 < v)%Q) /\
  (forall df d1 d2 d3 d4 d5 d6 d7 d8,
     index df = [d1; d2; d3; d4; d5; d6; d7; d8] ->
     get_col df "USREC" = Some [Some 0%Q; Some 0%Q; Some 1%Q; Some 1%Q;
                                Some 1%Q; Some 0%Q; Some 1%Q; Some 0%Q] ->
     recession_spans df = [(d3, d6); (d7, d8)]) /\
  (forall df d1 d2 d3,
     index df = [d1; d2; d3] ->
     get_col df "USREC" = Some [Some 0%Q; Some 1%Q; Some 1%Q] ->
     recession_spans df = [(d2, d3)]) /\
  (forall df d1 d2 d3 d4 d5,
     index df = [d1; d2; d3; d4; d5] ->
     get_col df "USREC" = Some [Some 0%Q; Some 1%Q; None; Some 1%Q; Some 0%Q] ->
     recession_spans df = [(d2, d5)]) /\
  (forall df d1 d2 d3,
     index df = [d1; d2; d3] ->
     get_col df "USREC" = Some [Some 0%Q; Some 1%Q; None] ->
     recession_spans df = [(d2, d2)]).
Proof.
  repeat match goal with |- _ /\ _ => split end.
  - intros pre Hpre. unfold spans_of.
    now rewrite (loop_inactive pre (mkSpanState false None []) Hpre eq_refl).
  - exact spans_of_closed.
  - exact spans_of_open.
  - intros df vals l H Hw. unfold recession_spans. rewrite H.
    now rewrite (walked_dropna _ _ Hw).
  - exact walked_total.
  - intros df H. unfold recession_spans. now rewrite H.
  - intros v. unfold active. destruct (Qlt_le_dec (1 # 2) v) as [H|H].
    + split; auto.
    + split; [discriminate|]. intros H'. exfalso. exact (Qle_not_lt _ _ H H').
  - intros df d1 d2 d3 d4 d5 d6 d7 d8 Hi Hc.
    unfold recession_spans. rewrite Hc, Hi. reflexivity.
  - intros df d1 d2 d3 Hi Hc.
    unfold recession_spans. rewrite Hc, Hi. reflexivity.
  - intros df d1 d2 d3 d4 d5 Hi Hc.
    unfold recession_spans. rewrite Hc, Hi. reflexivity.
  - intros df d1 d2 d3 Hi Hc.
    unfold recession_spans. rewrite Hc, Hi. reflexivity.
Qed.

(* ================================================================== *)
(** * The calendar *)
(* ================================================================== *)

Lemma is_leap_spec y :
  is_leap y = true <-> y mod 4 = 0 /\ (y mod 100 <> 0 \/ y mod 400 = 0).
Proof.
  unfold is_leap.
  rewrite andb_true_iff, orb_true_iff, negb_true_iff, !Z.eqb_eq, Z.eqb_neq.
  tauto.
Qed.

Lemma is_leap_not_spec y :
  is_leap y = false -> ~ (y mod 4 = 0 /\ (y mod 100 <> 0 \/ y mod 400 = 0)).
Proof. rewrite <- is_leap_spec. congruence. Qed.

Ltac leap_facts :=
  repeat match goal with
         | H : is_leap _ = true |- _ => apply is_leap_spec in H
         | H : is_leap _ = false |- _ => apply is_leap_not_spec in H
         end.

Lemma days_before_year_succ y :
  days_before_year (y + 1)
  = days_before_year y + 365 + (if is_leap y then 1 else 0).
Proof.
  unfold days_before_year. cbn zeta.
  destruct (is_leap y) eqn:E; leap_facts; Z.div_mod_to_equations; lia.
Qed.

Lemma days_before_year_mono y1 y2 :
  y1 <= y2 -> days_before_year y1 <= days_before_year y2.
Proof.
  unfold days_before_year. cbn zeta. intros H. Z.div_mod_to_equations. lia.
Qed.

Lemma leap_years_apart y : is_leap y = true -> is_leap (y - 1) = false.
Proof.
  intros H. destruct (is_leap (y - 1)) eqn:E; [|reflexivity].
  leap_facts. exfalso. Z.div_mod_to_equations. lia.
Qed.

Lemma month_cases m :
  1 <= m <= 12 ->
  m = 1 \/ m = 2 \/ m = 3 \/ m = 4 \/ m = 5 \/ m = 6 \/
  m = 7 \/ m = 8 \/ m = 9 \/ m = 10 \/ m = 11 \/ m = 12.
Proof. lia. Qed.

Ltac each_month H :=
  apply month_cases in H;
  repeat (destruct H as [H|H]; [subst|]); [..|subst].

Ltac month_tables :=
  cbv beta iota delta [days_before_month days_in_month Z.ltb Z.compare
                       Pos.compare Pos.compare_cont andb] in *.

(** Within a year a valid date is one of its 365 or 366 days. *)
Lemma day_of_year_bounds t :
  valid_date t ->
  1 <= days_before_month (year t) (month t) + day t
    <= 365 + (if is_leap (year t) then 1 else 0).
Proof.
  destruct t as [y m d]. unfold valid_date. cbn [year month day].
  intros [Hm Hd].
  each_month Hm; month_tables; destruct (is_leap y); lia.
Qed.

Lemma days_before_month_mono y m1 m2 :
  1 <= m1 <= 12 -> 1 <= m2 <= 12 -> m1 < m2 ->
  days_before_month y m1 + days_in_month y m1 <= days_before_month y m2.
Proof.
  intros H1 H2 Hlt.
  each_month H1; each_month H2; try lia;
    month_tables; destruct (is_leap y); lia.
Qed.

(** The day number orders valid dates as the calendar does. *)
Lemma toordinal_lt t1 t2 :
  valid_date t1 -> valid_date t2 ->
  ts_compare t1 t2 = Lt -> toordinal t1 < toordinal t2.
Proof.
  intros V1 V2.
  pose proof (day_of_year_bounds t1 V1) as B1.
  pose proof (day_of_year_bounds t2 V2) as B2.
  destruct t1 as [y1 m1 d1], t2 as [y2 m2 d2].
  unfold ts_compare, toordinal, valid_date in *. cbn [year month day] in *.
  destruct (Z.compare_spec y1 y2) as [->|Hy|Hy]; try discriminate.
  - destruct (Z.compare_spec m1 m2) as [->|Hm|Hm]; try discriminate.
    + intros Hd. change (d1 < d2) in Hd. lia.
    + intros _.
      pose proof (days_before_month_mono y2 m1 m2 (proj1 V1) (proj1 V2) Hm). lia.
  - intros _.
    pose proof (days_before_year_succ y1) as Hs.
    pose proof (days_before_year_mono (y1 + 1) y2 ltac:(lia)). lia.
Qed.

Lemma toordinal_compare t1 t2 :
  valid_date t1 -> valid_date t2 ->
  toordinal t1 < toordinal t2 -> ts_compare t1 t2 = Lt.
Proof.
  intros V1 V2 Hlt.
  destruct (ts_compare t1 t2) eqn:E; [| reflexivity |].
  - apply ts_compare_eq in E. subst. lia.
  - pose proof (ts_compare_antisym t1 t2) as Ha. rewrite E in Ha. simpl in Ha.
    pose proof (toordinal_lt t2 t1 V2 V1 Ha). lia.
Qed.

(** One year back is 365 or 366 days back, and is a valid date. *)
Lemma sub_years_one t :
  valid_date t ->
  valid_date (sub_years 1 t) /\
  365 <= toordinal t - toordinal (sub_years 1 t) <= 366.
Proof.
  destruct t as [y m d]. unfold valid_date, sub_years, toordinal.
  cbn [year month day]. intros [Hm Hd].
  pose proof (days_before_year_succ (y - 1)) as Hs.
  replace (y - 1 + 1) with y in Hs by lia.
  pose proof (leap_years_apart y) as Hl.
  each_month Hm; month_tables;
    destruct (is_leap y); destruct (is_leap (y - 1));
    try (specialize (Hl eq_refl); discriminate Hl); lia.
Qed.

(* ================================================================== *)
(** * The table of current spreads *)
(* ================================================================== *)

Lemma last_cons {A : Type} (a d : A) (l : list A) : last (a :: l) d = last l a.
Proof.
  revert a d. induction l as [|b l IH]; intros a d; [reflexivity|].
  change (last (a :: b :: l) d) with (last (b :: l) d).
  now rewrite (IH b d), (IH b a).
Qed.

Lemma iloc_last_last {A : Type} (s : list A) (d : A) :
  s <> [] -> iloc_last s = Ok (last s d).
Proof.
  intros Hs. destruct (exists_last Hs) as [s' [x ->]].
  unfold iloc_last. now rewrite rev_unit, last_last.
Qed.

Lemma table_fold df from ms acc :
  (forall m vals, In m ms -> get_col df (fst m) = Some vals -> vals <> []) ->
  fold_left (table_step df from) ms (Ok acc)
  = Ok (acc ++ flat_map (summary_rows df from) ms).
Proof.
  revert acc. induction ms as [|m ms IH]; intros acc H; simpl.
  - now rewrite app_nil_r.
  - unfold summary_rows at 1.
    destruct (get_col df (fst m)) as [vals|] eqn:E; simpl.
    + rewrite (iloc_last_last vals None) by (eapply H; [now left|exact E]).
      rewrite IH by (intros m' v' Hm'; apply H; now right).
      now rewrite <- app_assoc.
    + apply IH. intros m' v' Hm'. apply H. now right.
Qed.

Lemma fold_later_sorted (l : list Stamp) :
  StronglySorted stamp_lt l -> Forall (fun d => d <> NaT) l ->
  forall acc, acc = NaT \/ Forall (stamp_lt acc) l ->
  fold_left later l acc = last l acc.
Proof.
  induction 1 as [|h t Hs IH Hh]; intros Hd acc Hacc; [reflexivity|].
  inversion Hd as [|? ? Hhd Hd']; subst.
  simpl fold_left. rewrite last_cons.
  assert (E : later acc h = h).
  { destruct h as [b|]; [|now elim Hhd].
    destruct acc as [a|]; [|reflexivity].
    destruct Hacc as [Hacc|Hacc]; [discriminate|].
    inversion Hacc as [|? ? Hlt _]; subst.
    unfold stamp_lt, stamp_ltb in Hlt. simpl in Hlt. simpl.
    destruct (ts_compare a b); congruence. }
  rewrite E. apply IH; [assumption|now right].
Qed.

(** On ascending dates the latest date is the last label. *)
Lemma index_max_sorted (l : list Stamp) :
  StronglySorted stamp_lt l -> Forall (fun d => d <> NaT) l ->
  index_max l = last l NaT.
Proof.
  intros Hs Hd. unfold index_max. apply fold_later_sorted; auto.
Qed.

Lemma last_In {A : Type} (l : list A) (d : A) : l <> [] -> In (last l d) l.
Proof.
  intros Hl. destruct (exists_last Hl) as [l' [x ->]].
  rewrite last_last. apply in_or_app. right. now left.
Qed.

Lemma loc_last {V : Type} (idx : list Stamp) (vals : list (option V)) :
  NoDup idx -> List.length idx = List.length vals -> idx <> [] ->
  loc idx vals (last idx NaT) = last vals None.
Proof.
  revert vals. induction idx as [|i idx IH]; intros [|v vals] Hn Hlen Hne;
    try discriminate; try congruence.
  inversion Hn as [|? ? Hnot Hn']; subst.
  rewrite !last_cons. simpl loc.
  destruct idx as [|j idx].
  - destruct vals; [|discriminate]. simpl. now rewrite stamp_eqb_refl.
  - destruct vals as [|w vals]; [discriminate|].
    assert (Hin : In (last (j :: idx) i) (j :: idx))
      by (apply last_In; discriminate).
    assert (Hneq : stamp_eqb i (last (j :: idx) i) = false).
    { apply stamp_eqb_neq. intros E. apply Hnot. now rewrite E at 1. }
    rewrite Hneq.
    assert (E1 : last (j :: idx) i = last (j :: idx) NaT).
    { now rewrite !last_cons. }
    assert (E2 : last (w :: vals) v = last (w :: vals) None).
    { now rewrite !last_cons. }
    rewrite E1, E2. apply IH; [assumption|simpl in *; lia|discriminate].
Qed.

Lemma dropna_In_iff {A : Type} (l : list (option A)) (a : A) :
  In a (dropna l) <-> In (Some a) l.
Proof.
  unfold dropna. rewrite in_flat_map. split.
  - intros [[x|] [Hx Ha]]; [|destruct Ha].
    destruct Ha as [<-|[]]. exact Hx.
  - intros H. exists (Some a). split; [assumption|now left].
Qed.

Lemma fold_Qmax_spec (l : list Q) (a : Q) :
  In (fold_left Qmax l a) (a :: l) /\
  forall v, In v (a :: l) -> (v <= fold_left Qmax l a)%Q.
Proof.
  revert a. induction l as [|b l IH]; intros a; simpl.
  - split; [now left|]. intros v [<-|[]]. apply Qle_refl.
  - destruct (IH (Qmax a b)) as [Hin Hle]. split.
    + destruct Hin as [E|Hin]; [|now right; right].
      rewrite <- E. unfold Qmax, GenericMinMax.gmax.
      destruct (a ?= b)%Q; auto.
    + intros v [<-|[<-|Hv]].
      * eapply Qle_trans; [apply Q.le_max_l|]. apply Hle. now left.
      * eapply Qle_trans; [apply Q.le_max_r|]. apply Hle. now left.
      * apply Hle. now right.
Qed.

Lemma fold_Qmin_spec (l : list Q) (a : Q) :
  In (fold_left Qmin l a) (a :: l) /\
  forall v, In v (a :: l) -> (fold_left Qmin l a <= v)%Q.
Proof.
  revert a. induction l as [|b l IH]; intros a; simpl.
  - split; [now left|]. intros v [<-|[]]. apply Qle_refl.
  - destruct (IH (Qmin a b)) as [Hin Hle]. split.
    + destruct Hin as [E|Hin]; [|now right; right].
      rewrite <- E. unfold Qmin, GenericMinMax.gmin.
      destruct (a ?= b)%Q; auto.
    + intros v [<-|[<-|Hv]].
      * eapply Qle_trans; [|apply Q.le_min_l]. apply Hle. now left.
      * eapply Qle_trans; [|apply Q.le_min_r]. apply Hle. now left.
      * apply Hle. now right.
Qed.

Lemma series_max_spec (l : list (option Q)) : is_max l (series_max l).
Proof.
  unfold is_max, series_max.
  destruct (dropna l) as [|a rest] eqn:E.
  - intros v Hv. apply dropna_In_iff in Hv. rewrite E in Hv. destruct Hv.
  - destruct (fold_Qmax_spec rest a) as [Hin Hle]. split.
    + apply dropna_In_iff. now rewrite E.
    + intros v Hv. apply Hle. rewrite <- E. now apply dropna_In_iff.
Qed.

Lemma series_min_spec (l : list (option Q)) : is_min l (series_min l).
Proof.
  unfold is_min, series_min.
  destruct (dropna l) as [|a rest] eqn:E.
  - intros v Hv. apply dropna_In_iff in Hv. rewrite E in Hv. destruct Hv.
  - destruct (fold_Qmin_spec rest a) as [Hin Hle]. split.
    + apply dropna_In_iff. now rewrite E.
    + intros v Hv. apply Hle. rewrite <- E. now apply dropna_In_iff.
Qed.

Lemma rows_from_In idx from vals (v : option Q) :
  In v (rows_from idx from vals) <->
  exists d, In (d, v) (combine idx vals) /\ stamp_geb d from = true.
Proof.
  unfold rows_from. rewrite in_map_iff. split.
  - intros [[d w] [E H]]. simpl in E; subst w.
    apply filter_In in H. exists d. exact H.
  - intros [d H]. exists (d, v). split; [reflexivity|].
    apply filter_In. exact H.
Qed.

Lemma rows_from_cons d idx from v vals :
  rows_from (d :: idx) from (v :: vals)
  = if stamp_geb d from then v :: rows_from idx from vals
    else rows_from idx from vals.
Proof.
  unfold rows_from. simpl. destruct (stamp_geb d from); reflexivity.
Qed.

Lemma get_col_In {V : Type} (df : DataFrame V) n vals :
  get_col df n = Some vals -> In (n, vals) (columns df).
Proof.
  unfold get_col. destruct (find _ (columns df)) as [[m w]|] eqn:E; [|discriminate].
  simpl. intros [= ->]. destruct (find_some _ _ E) as [Hin Em].
  simpl in Em. apply String.eqb_eq in Em. now subst.
Qed.

Lemma get_col_length {V : Type} (df : DataFrame V) n vals :
  well_formed df -> get_col df n = Some vals ->
  List.length vals = List.length (index df).
Proof.
  intros Hwf Hg. apply get_col_In in Hg. unfold well_formed in Hwf.
  rewrite Forall_forall in Hwf. exact (Hwf _ Hg).
Qed.

Lemma three_rows_summary (da db de from : Stamp) (m : string * string) :
  In m metrics ->
  stamp_geb da from = false -> stamp_geb db from = true -> stamp_geb de from = true ->
  flat_map (summary_rows
              (mkDF [da; db; de] [(fst m, [Some (1 # 1); Some (3 # 1); Some (5 # 1)])])
              from) metrics
  = [mkRow (snd m) (Some (5 # 1)) (Some (5 # 1)) (Some (3 # 1))].
Proof.
  intros Hm Ga Gb Ge. unfold metrics in Hm. simpl in Hm.
  destruct Hm as [<-|[<-|[<-|[<-|[<-|[]]]]]];
    unfold metrics, summary_rows; simpl;
    rewrite !rows_from_cons, Ga, Gb, Ge; reflexivity.
Qed.

(** C9, as the code has it.  On a Panel (ascending dates, no NaT) the table
    has one row per listed metric that is a column and none for the others;
    with [end] the latest date of the Panel, a row reports the value at
    [end], the greatest and the least of the non-missing values at dates
    from [end] minus one year on, each rounded to two decimals, and missing
    where there is none.  A metric worth 1 400 days before [end], 3 ten days
    before and 5 at [end] gets current 5, high 5 and low 3. *)
Theorem current_table_summary :
  (forall df : DataFrame Q,
     well_formed df -> index df <> [] ->
     StronglySorted stamp_lt (index df) ->
     Forall (fun d => d <> NaT) (index df) ->
     let end_ := index_max (index df) in
     let from := option_map (sub_years 1) end_ in
     end_ = last (index df) NaT /\
     build_current_table df = Ok (flat_map (summary_rows df from) metrics) /\
     (forall m, In m metrics -> get_col df (fst m) = None ->
        summary_rows df from m = []) /\
     (forall m vals, In m metrics -> get_col df (fst m) = Some vals ->
        let yr := rows_from (index df) from vals in
        summary_rows df from m
        = [mkRow (snd m) (display (cell df (fst m) end_))
                 (display (series_max yr)) (display (series_min yr))] /\
        is_max yr (series_max yr) /\ is_min yr (series_min yr) /\
        (forall v, In v yr <->
           exists d, In (d, v) (combine (index df) vals) /\ stamp_geb d from = true))) /\
  (forall m e a b,
     In m metrics -> valid_date e -> valid_date a -> valid_date b ->
     toordinal a = toordinal e - 400 -> toordinal b = toordinal e - 10 ->
     build_current_table
       (mkDF [Some a; Some b; Some e]
             [(fst m, [Some (1 # 1); Some (3 # 1); Some (5 # 1)])])
     = Ok [mkRow (snd m) (Some (5 # 1)) (Some (5 # 1)) (Some (3 # 1))]).
Proof.
  split.
  - intros df Hwf Hne Hs Hd end_ from.
    assert (Hend : end_ = last (index df) NaT) by (now apply index_max_sorted).
    assert (Hvals : forall (m : string * string) vals,
               get_col df (fst m) = Some vals -> vals <> []).
    { intros m vals Hg E. apply (get_col_length _ _ _ Hwf) in Hg.
      subst vals. destruct (index df); [congruence|discriminate]. }
    split; [exact Hend|]. split; [|split].
    + unfold build_current_table. fold end_. fold from.
      rewrite table_fold by (intros m vals _; apply Hvals). reflexivity.
    + intros m _ Hg. unfold summary_rows. now rewrite Hg.
    + intros m vals _ Hg yr. split; [|split; [|split]].
      * unfold summary_rows, cell. rewrite Hg. fold yr. rewrite Hend.
        rewrite loc_last; auto using sorted_lt_nodup.
        symmetry. now apply get_col_length with (n := fst m).
      * apply series_max_spec.
      * apply series_min_spec.
      * intros v. apply rows_from_In.
  - intros m e a b Hm Ve Va Vb Ha Hb.
    destruct (sub_years_one e Ve) as [Vf Hyear].
    assert (Hab : ts_compare a b = Lt) by (apply toordinal_compare; auto; lia).
    assert (Hbe : ts_compare b e = Lt) by (apply toordinal_compare; auto; lia).
    assert (Haf : ts_compare a (sub_years 1 e) = Lt)
      by (apply toordinal_compare; auto; lia).
    assert (Hnot : forall t, valid_date t -> toordinal (sub_years 1 e) <= toordinal t ->
                     ts_compare t (sub_years 1 e) <> Lt).
    { intros t Vt Hle Hlt. pose proof (toordinal_lt _ _ Vt Vf Hlt). lia. }
    unfold build_current_table. cbn [index].
    assert (Hmax : index_max [Some a; Some b; Some e] = Some e).
    { unfold index_max. cbn [fold_left]. unfold later at 3. unfold NaT.
      unfold later at 2. rewrite Hab. unfold later. now rewrite Hbe. }
    rewrite Hmax. cbn [option_map].
    rewrite table_fold.
    + cbn [app]. f_equal. apply three_rows_summary; [assumption| | |]; simpl.
      * now rewrite Haf.
      * pose proof (Hnot b Vb ltac:(lia)).
        destruct (ts_compare b (sub_years 1 e)); congruence.
      * pose proof (Hnot e Ve ltac:(lia)).
        destruct (ts_compare e (sub_years 1 e)); congruence.
    + intros m' vals _. unfold get_col. simpl.
      destruct (String.eqb (fst m) (fst m')); simpl; intros [= <-]. discriminate.
Qed.

Lemma current_table_summary_witness :
  build_current_table Sample.year_panel
  = Ok [mkRow "HY OAS" (Some (5 # 1)) (Some (5 # 1)) (Some (3 # 1))].
Proof.
  apply (proj2 current_table_summary ("HY_OAS", "HY OAS")
           (mkTS 2024 3 15) (mkTS 2023 2 9) (mkTS 2024 3 5)).
  - simpl; auto.
  - unfold valid_date; simpl; lia.
  - unfold valid_date; simpl; lia.
  - unfold valid_date; simpl; lia.
  - reflexivity.
  - reflexivity.
Defined.

(** C9 as stated fails: the Panel holds 1.234 at its latest date, and the
    table reports 1.23 as current, high and low. *)
Lemma current_value_counterexample :
  cell Sample.fine_panel "HY_OAS" (index_max (index Sample.fine_panel))
  = Some (1234 # 1000) /\
  build_current_table Sample.fine_panel
  = Ok [mkRow "HY OAS" (Some (123 # 100)) (Some (123 # 100)) (Some (123 # 100))] /\
  ~ (123 # 100 == 1234 # 1000)%Q.
Proof.
  split; [reflexivity|]. split; [reflexivity|].
  intros H. vm_compute in H. discriminate H.
Qed.

(* ================================================================== *)
(** * Further properties of the merge *)
(* ================================================================== *)

Lemma sort_rows_sorted_id {A : Type} (l : list (Stamp * A)) :
  StronglySorted row_le l -> sort_rows l = l.
Proof.
  induction 1 as [|r t Hs IH Hr]; [reflexivity|].
  simpl. rewrite IH. destruct t as [|h t']; [reflexivity|].
  simpl. inversion Hr as [|? ? Hrh _]; subst.
  unfold row_le, stamp_le in Hrh. now rewrite Hrh.
Qed.

Lemma rows_sorted_by_label {A : Type} (rows : list (Stamp * A)) :
  StronglySorted stamp_le (map fst rows) -> StronglySorted row_le rows.
Proof.
  induction rows as [|r t IH]; simpl; intros H; [constructor|].
  inversion H as [|? ? Hs Hr]; subst. constructor; [now apply IH|].
  rewrite Forall_map in Hr. exact Hr.
Qed.

Lemma combine_fst_snd {A B : Type} (l : list A) (m : list B) :
  List.length m = List.length l ->
  map fst (combine l m) = l /\ map snd (combine l m) = m.
Proof.
  revert m. induction l as [|a l IH]; intros [|b m] Hlen; try discriminate;
    [now split|].
  simpl. destruct (IH m) as [-> ->]; [simpl in Hlen; lia|now split].
Qed.

Lemma sorted_lt_le (l : list Stamp) :
  StronglySorted stamp_lt l -> StronglySorted stamp_le l.
Proof.
  induction 1 as [|a l Hs IH Ha]; constructor; [assumption|].
  eapply Forall_impl; [|exact Ha]. intros b Hb. apply stamp_le_cases. now left.
Qed.

Section MergeMore.
Context {V : Type}.
Implicit Types (frames : list (DataFrame V)) (panel f : DataFrame V).

Lemma ffill_from_idem (a : option V) (l : list (option V)) :
  ffill_from a (ffill_from a l) = ffill_from a l.
Proof.
  revert a. induction l as [|v l IH]; intros a; [reflexivity|].
  simpl. destruct v as [x|]; simpl.
  - now rewrite IH.
  - destruct a as [y|]; simpl; now rewrite IH.
Qed.

Lemma ffill_from_some (x : V) (l : list (option V)) (j : nat) :
  (j < List.length l)%nat ->
  exists w, nth_error (ffill_from (Some x) l) j = Some (Some w).
Proof.
  revert x j. induction l as [|v l IH]; intros x j Hj; [simpl in Hj; lia|].
  simpl. destruct j as [|j]; simpl.
  - destruct v as [y|]; eauto.
  - simpl in Hj. destruct v as [y|]; apply IH; lia.
Qed.

Lemma ffill_from_stays (a : option V) (l : list (option V)) (i j : nat) (v : V) :
  nth_error (ffill_from a l) i = Some (Some v) ->
  (i <= j < List.length l)%nat ->
  exists w, nth_error (ffill_from a l) j = Some (Some w).
Proof.
  revert a i j. induction l as [|u l IH]; intros a i j Hi Hj; [simpl in Hj; lia|].
  simpl in *. destruct i as [|i], j as [|j]; simpl in *; try lia.
  - eauto.
  - injection Hi as Hi. rewrite Hi. apply ffill_from_some. lia.
  - eapply IH; [exact Hi|lia].
Qed.

Lemma filter_all {A : Type} (p : A -> bool) (l : list A) :
  (forall x, In x l -> p x = true) -> filter p l = l.
Proof.
  induction l as [|a l IH]; intros H; simpl; [reflexivity|].
  rewrite (H a) by now left. f_equal. apply IH. intros x Hx. apply H. now right.
Qed.

Lemma dedup_nodup_id (l : list Stamp) : NoDup l -> dedup l = l.
Proof.
  induction 1 as [|d l Hnot Hn IH]; simpl; [reflexivity|].
  rewrite IH. f_equal. apply filter_all.
  intros x Hx. apply negb_true_iff, stamp_eqb_neq. intros ->. contradiction.
Qed.

Lemma loc_self (idx : list Stamp) (vals : list (option V)) :
  NoDup idx -> List.length idx = List.length vals ->
  map (loc idx vals) idx = vals.
Proof.
  revert vals. induction idx as [|i idx IH]; intros [|v vals] Hn Hlen;
    try discriminate; [reflexivity|].
  inversion Hn as [|? ? Hnot Hn']; subst.
  simpl. rewrite stamp_eqb_refl. f_equal.
  transitivity (map (loc idx vals) idx); [|apply IH; simpl in Hlen; auto; lia].
  apply map_ext_in. intros d Hd.
  destruct (stamp_eqb i d) eqn:E; [|reflexivity].
  apply stamp_eqb_eq in E. subst. contradiction.
Qed.

Lemma sort_index_wf f : well_formed f -> well_formed (sort_index f).
Proof.
  unfold well_formed, sort_index. cbn [columns index]. intros H.
  apply Forall_map. eapply Forall_impl; [|exact H].
  intros c Hlen. cbv beta in Hlen. cbn [snd].
  rewrite length_map, (Permutation_length (sort_rows_perm _)), length_combine.
  rewrite (Permutation_length (sort_labels_perm _)), Hlen. apply Nat.min_id.
Qed.

Lemma ffill_wf f : well_formed f -> well_formed (ffill f).
Proof.
  unfold well_formed, ffill. cbn [columns index]. intros H.
  apply Forall_map. eapply Forall_impl; [|exact H].
  intros c Hlen. cbv beta in Hlen. cbn [snd]. now rewrite ffill_from_length.
Qed.

Lemma ffill_idem f : ffill (ffill f) = ffill f.
Proof.
  unfold ffill. cbn [columns index]. f_equal. rewrite map_map.
  apply map_ext. intros c. cbn [fst snd]. now rewrite ffill_from_idem.
Qed.

Lemma merged_panel_wf frames panel :
  merge_frames frames = Ok panel -> well_formed panel.
Proof.
  intros Hm. destruct (merge_frames_ok _ _ Hm) as [merged [Hc ->]].
  apply ffill_wf, sort_index_wf. exact (proj1 (concat_axis1_ok _ _ Hc)).
Qed.

(** X1: whatever the sources, the merged Panel is a table: every column
    has one cell per date of the index, and there is one column for each
    column of each source. *)
Theorem merged_panel_is_rectangular frames panel :
  merge_frames frames = Ok panel ->
  well_formed panel /\
  List.length (columns panel) = List.length (flat_map columns frames).
Proof.
  intros Hm. split.
  - now apply merged_panel_wf with (frames := frames).
  - rewrite <- (length_map fst (columns panel)), (merge_frames_names _ _ Hm).
    apply length_map.
Qed.

(** X2: in a column of the merged Panel the missing cells come first: once
    a row holds a value, every later row holds one. *)
Theorem panel_missing_cells_lead frames panel c vals i j v :
  merge_frames frames = Ok panel ->
  In (c, vals) (columns panel) ->
  nth_error vals i = Some (Some v) ->
  (i <= j < List.length vals)%nat ->
  exists w, nth_error vals j = Some (Some w).
Proof.
  intros Hm Hin Hi Hj.
  destruct (merge_frames_ok _ _ Hm) as [merged [_ ->]].
  unfold ffill in Hin. cbn [columns] in Hin.
  apply in_map_iff in Hin. destruct Hin as [c0 [E _]].
  injection E as _ <-.
  rewrite ffill_from_length in Hj.
  eapply ffill_from_stays; eauto.
Qed.

Lemma df_eta (df : DataFrame V) : df = mkDF (index df) (columns df).
Proof. destruct df; reflexivity. Qed.

(** A frame alone is concatenated to itself, repeated labels or not. *)
Lemma concat_single f : well_formed f -> concat_axis1 [f] = Ok f.
Proof.
  intros Hwf. unfold well_formed in Hwf. rewrite Forall_forall in Hwf.
  unfold concat_axis1. cbn [find].
  destruct f as [idx cols]. cbn [index columns] in *.
  destruct (is_unique idx) eqn:Eu; cbn [negb].
  - assert (Hn : NoDup idx) by now apply is_unique_NoDup.
    f_equal. unfold union_index. cbn [flat_map index columns].
    rewrite !app_nil_r, (dedup_nodup_id _ Hn). f_equal.
    transitivity (map (fun c => c) cols); [|apply map_id].
    apply map_ext_in. intros c Hc.
    rewrite loc_self; [now destruct c|assumption|]. symmetry. now apply Hwf.
  - cbn [forallb index].
    rewrite (proj2 (index_equals_eq idx idx) eq_refl). cbn [orb andb].
    f_equal. f_equal. cbn [flat_map index columns]. rewrite app_nil_r.
    transitivity (map (fun c => c) cols); [|apply map_id].
    apply map_ext_in. intros c Hc.
    rewrite (proj2 (index_equals_eq idx idx) eq_refl).
    rewrite rows_of_id; [now destruct c|]. now apply Hwf.
Qed.

Lemma sort_index_sorted_id f :
  StronglySorted stamp_le (index f) -> well_formed f -> sort_index f = f.
Proof.
  intros Hs Hwf. unfold well_formed in Hwf. rewrite Forall_forall in Hwf.
  rewrite (df_eta f) at 2. unfold sort_index. f_equal.
  - unfold sort_labels. rewrite sort_rows_sorted_id.
    + rewrite map_map. apply map_id.
    + apply rows_sorted_by_label. rewrite map_map. cbn [fst]. now rewrite map_id.
  - transitivity (map (fun c => c) (columns f)); [|apply map_id].
    apply map_ext_in. intros c Hc.
    destruct (combine_fst_snd (index f) (snd c) (Hwf c Hc)) as [Hfst Hsnd].
    rewrite sort_rows_sorted_id; [rewrite Hsnd; now destruct c|].
    apply rows_sorted_by_label. now rewrite Hfst.
Qed.

Lemma merge_one_le f :
  StronglySorted stamp_le (index f) -> well_formed f ->
  merge_frames [f] = Ok (ffill f).
Proof.
  intros Hs Hwf. unfold merge_frames.
  rewrite (concat_single f Hwf). now rewrite (sort_index_sorted_id f Hs Hwf).
Qed.

Lemma merge_one_sorted f :
  StronglySorted stamp_lt (index f) -> well_formed f ->
  merge_frames [f] = Ok (ffill f).
Proof. intros Hs. apply merge_one_le. now apply sorted_lt_le. Qed.

(** X3: merging a single source whose dates ascend strictly only fills it
    forward. *)
Theorem merge_of_one_source f :
  StronglySorted stamp_lt (index f) -> well_formed f ->
  merge_frames [f] = Ok (ffill f).
Proof. exact (merge_one_sorted f). Qed.


End MergeMore.

Lemma merged_panel_is_rectangular_witness :
  exists panel,
    merge_frames [Sample.hy_frame; Sample.ig_frame] = Ok panel /\
    well_formed panel /\ List.length (columns panel) = 2%nat.
Proof.
  eexists. split; [reflexivity|].
  exact (merged_panel_is_rectangular [Sample.hy_frame; Sample.ig_frame] _ eq_refl).
Defined.

Lemma panel_missing_cells_lead_witness :
  exists panel vals w,
    merge_frames [Sample.ig_frame; Sample.hy_frame] = Ok panel /\
    In ("IG_OAS", vals) (columns panel) /\
    nth_error vals 2 = Some (Some w).
Proof.
  eexists. eexists.
  destruct (panel_missing_cells_lead [Sample.ig_frame; Sample.hy_frame] _
              "IG_OAS" [Some (1 # 1)%Q; Some (1 # 1)%Q; Some (2 # 1)%Q]
              0%nat 2%nat (1 # 1)%Q eq_refl) as [w Hw].
  - simpl. auto.
  - reflexivity.
  - simpl. lia.
  - exists w. split; [reflexivity|]. split; [simpl; auto|exact Hw].
Defined.

Lemma merge_of_one_source_witness :
  merge_frames [Sample.hy_frame] = Ok (ffill Sample.hy_frame).
Proof.
  apply merge_of_one_source.
  - unfold Sample.hy_frame, Sample.jan. simpl.
    repeat (constructor; [repeat constructor|]). constructor.
  - unfold well_formed, Sample.hy_frame. simpl. repeat constructor.
Defined.


(* ================================================================== *)
(** * Further properties of the loading *)
(* ================================================================== *)

Section LoadMore.
Context {V : Type}.
Variable to_datetime : string -> Stamp.
Variable to_numeric : string -> option V.
Variable read_latest : string -> option (result RawTable).

Local Abbreviation load := (load_series to_datetime to_numeric read_latest).

Lemma pick_date_col_In (raw : RawTable) :
  In (pick_date_col raw) (map fst (raw_columns raw)).
Proof.
  unfold pick_date_col.
  destruct (find _ date_col_candidates) as [c|] eqn:E.
  - apply find_some in E. destruct E as [_ E].
    apply existsb_exists in E. destruct E as [n [Hn E]].
    apply String.eqb_eq in E. now subst.
  - simpl. now left.
Qed.

Lemma name_among (n : string) (cols : list (string * list string)) :
  existsb (fun c => String.eqb (fst c) n) cols = true <-> In n (map fst cols).
Proof.
  rewrite existsb_exists, in_map_iff. split.
  - intros [c [Hc E]]. apply String.eqb_eq in E. now exists c.
  - intros [c [E Hc]]. exists c. split; [assumption|]. now apply String.eqb_eq.
Qed.

(** X5: [load_series] gives no frame exactly when no file is stored for the
    series or every column of the table carries the name of the date
    column, as in a table of one column; the date column is always a column
    of the table, and the value column is one of another name.  It raises
    exactly when [read_csv] raises, with that exception, or when the table
    has a value column and the canonical name is DATE or the name of a
    later column. *)
Theorem load_series_none_iff s :
  (load s = Ok None <->
   read_latest (sid s) = None \/
   exists raw, read_latest (sid s) = Some (Ok raw) /\
               forall c, In c (raw_columns raw) -> fst c = pick_date_col raw) /\
  (forall raw, read_latest (sid s) = Some (Ok raw) ->
     In (pick_date_col raw) (map fst (raw_columns raw)) /\
     forall vc rest, value_col_candidates raw (pick_date_col raw) = vc :: rest ->
       In vc (raw_columns raw) /\ fst vc <> pick_date_col raw) /\
  (forall e, load s = Raise e <->
     read_latest (sid s) = Some (Raise e) \/
     exists raw vc rest,
       read_latest (sid s) = Some (Ok raw) /\
       value_col_candidates raw (pick_date_col raw) = vc :: rest /\
       ((col s = "DATE" /\ e = ValueError "Index data must be 1-dimensional") \/
        (col s <> "DATE" /\ In (col s) (map fst rest) /\
         e = TypeError "arg must be a list, tuple, 1-d array, or Series"))).
Proof.
  split; [|split].
  - unfold load_series. destruct (read_latest (sid s)) as [[raw|e]|]; [| |tauto].
    + destruct (value_col_candidates raw (pick_date_col raw)) as [|vc rest] eqn:E.
      * split; [|reflexivity]. intros _. right. exists raw. split; [reflexivity|].
        intros c Hc. unfold value_col_candidates in E.
        destruct (String.eqb (fst c) (pick_date_col raw)) eqn:Ec;
          [now apply String.eqb_eq|].
        exfalso. assert (Hin : In c []).
        { rewrite <- E. apply filter_In. split; [assumption|]. now rewrite Ec. }
        destruct Hin.
      * split.
        { destruct (String.eqb (col s) "DATE"); [discriminate|].
          destruct (existsb _ rest); discriminate. }
        intros [H|[raw' [[= <-] H]]]; [discriminate|].
        exfalso. assert (Hin : In vc (vc :: rest)) by now left.
        rewrite <- E in Hin. unfold value_col_candidates in Hin.
        apply filter_In in Hin. destruct Hin as [Hin Hne].
        apply negb_true_iff, String.eqb_neq in Hne. auto.
    + split; [discriminate|]. intros [H|[raw' [H _]]]; discriminate H.
  - intros raw Hraw. split; [apply pick_date_col_In|].
    intros vc rest E. assert (Hin : In vc (vc :: rest)) by now left.
    rewrite <- E in Hin. unfold value_col_candidates in Hin.
    apply filter_In in Hin. destruct Hin as [Hin Hne].
    apply negb_true_iff, String.eqb_neq in Hne. auto.
  - intros e. unfold load_series.
    destruct (read_latest (sid s)) as [[raw|e0]|] eqn:Er.
    + destruct (value_col_candidates raw (pick_date_col raw)) as [|vc rest] eqn:E.
      * split; [discriminate|].
        intros [H|[raw' [vc [rest [Hr [H _]]]]]]; [discriminate H|].
        injection Hr as <-. rewrite E in H. discriminate H.
      * destruct (String.eqb (col s) "DATE") eqn:Ed.
        { apply String.eqb_eq in Ed. split.
          - intros [= <-]. right. exists raw, vc, rest. auto.
          - intros [H|[raw' [vc' [rest' [_ [_ [[_ ->]|[Hne _]]]]]]]];
              [discriminate H|reflexivity|contradiction]. }
        apply String.eqb_neq in Ed.
        destruct (existsb (fun c => String.eqb (fst c) (col s)) rest) eqn:Ex.
        { apply name_among in Ex. split.
          - intros [= <-]. right. exists raw, vc, rest. auto 6.
          - intros [H|[raw' [vc' [rest' [_ [_ [[Hd _]|[_ [_ ->]]]]]]]]];
              [discriminate H|contradiction|reflexivity]. }
        split; [discriminate|].
        intros [H|[raw' [vc' [rest' [Hr [E' [[Hd _]|[_ [Hin _]]]]]]]]];
          [discriminate H|contradiction|].
        injection Hr as <-. rewrite E in E'. injection E' as <- <-.
        apply name_among in Hin. congruence.
    + split.
      * intros [= <-]. now left.
      * intros [[= <-]|[raw [vc [rest [H _]]]]]; [reflexivity|discriminate H].
    + split; [discriminate|].
      intros [H|[raw [vc [rest [H _]]]]]; discriminate H.
Qed.

(** X6: the frame [load_series] returns is a table with a single column,
    named after the series and as long as the index. *)
Theorem load_series_well_formed s df :
  load s = Ok (Some df) ->
  well_formed df /\
  exists vals, columns df = [(col s, vals)] /\
               List.length vals = List.length (index df).
Proof.
  intros Hl.
  destruct (load_series_Some to_datetime to_numeric read_latest _ _ Hl)
    as [raw [vc [rest [_ [_ ->]]]]].
  unfold well_formed. simpl. split.
  - constructor; [|constructor]. simpl. now rewrite !length_map.
  - eexists. split; [reflexivity|]. now rewrite !length_map.
Qed.


End LoadMore.

Lemma load_series_well_formed_witness :
  exists df,
    load_series Sample.iso_date Sample.decimal Sample.ig_only
                (mkSeriesDef "BAMLC0A0CM" "IG_OAS") = Ok (Some df) /\
    well_formed df.
Proof.
  eexists. split; [reflexivity|].
  exact (proj1 (load_series_well_formed Sample.iso_date Sample.decimal Sample.ig_only
                  (mkSeriesDef "BAMLC0A0CM" "IG_OAS") _ eq_refl)).
Defined.


(* ================================================================== *)
(** * Further properties of the derived columns *)
(* ================================================================== *)

Lemma set_col_same {V : Type} (df : DataFrame V) n vals :
  get_col df n = Some vals -> set_col df n vals = df.
Proof.
  unfold get_col, set_col. destruct df as [idx cols]. simpl. intros H. f_equal.
  induction cols as [|c t IH]; simpl in *; [discriminate|].
  destruct (String.eqb (fst c) n) eqn:E.
  - simpl in H. injection H as <-. apply String.eqb_eq in E. subst n.
    now destruct c.
  - f_equal. now apply IH.
Qed.

Lemma assign_names {V : Type} (cols : list (string * list (option V))) n vals :
  In n (map fst cols) -> map fst (assign cols n vals) = map fst cols.
Proof.
  induction cols as [|c t IH]; simpl; [tauto|].
  destruct (String.eqb (fst c) n) eqn:E.
  - intros _. apply String.eqb_eq in E. simpl. now rewrite E.
  - intros [H|H]; [apply String.eqb_neq in E; contradiction|].
    simpl. now rewrite IH.
Qed.

Lemma assign_Forall {V : Type} (P : string * list (option V) -> Prop) cols n vals :
  Forall P cols -> P (n, vals) -> Forall P (assign cols n vals).
Proof.
  intros Hc Hn. induction Hc as [|c t Hc Ht IH]; simpl.
  - constructor; auto.
  - destruct (String.eqb (fst c) n); constructor; auto.
Qed.

Lemma set_col_wf {V : Type} (df : DataFrame V) n vals :
  well_formed df -> List.length vals = List.length (index df) ->
  well_formed (set_col df n vals).
Proof.
  intros Hwf Hlen. unfold well_formed, set_col. simpl.
  apply assign_Forall; assumption.
Qed.

Lemma derive_sub_wf out name a b :
  well_formed out -> well_formed (derive_sub out name a b).
Proof.
  intros Hwf. unfold derive_sub.
  destruct (get_col out a) as [xa|] eqn:Ea; [|assumption].
  destruct (get_col out b) as [xb|] eqn:Eb; [|assumption].
  apply set_col_wf; [assumption|].
  pose proof (get_col_length _ _ _ Hwf Ea).
  pose proof (get_col_length _ _ _ Hwf Eb).
  rewrite zip_with_length; congruence.
Qed.

Lemma add_z_wf out c : well_formed out -> well_formed (add_z out c).
Proof.
  intros Hwf. unfold add_z.
  destruct (get_col out c) as [xs|] eqn:E; [|assumption].
  apply set_col_wf; [assumption|].
  rewrite zscore_length. now apply get_col_length with (n := c).
Qed.

Lemma not_derived_name n :
  ~ In n derived_names ->
  (forall name a b, In (name, a, b) spread_specs -> name <> n) /\
  (forall c, In c z_candidates -> z_name c <> n).
Proof.
  intros Hn. split.
  - intros name a b Hs E. apply Hn. unfold derived_names. apply in_or_app. left.
    subst n. unfold spread_specs in Hs. simpl in Hs.
    destruct Hs as [H|[H|[H|[]]]]; injection H as <- _ _; simpl; auto.
  - intros c Hc E. apply Hn. unfold derived_names. apply in_or_app. right.
    subst n. now apply in_map.
Qed.

Lemma add_derived_other df n :
  ~ In n derived_names -> get_col (add_derived df) n = get_col df n.
Proof.
  intros Hn. destruct (not_derived_name n Hn) as [Hs Hz].
  unfold add_derived. rewrite fold_add_z_other.
  - unfold add_spreads.
    rewrite !derive_sub_other; [reflexivity| | |].
    + apply (Hs _ "HY_OAS" "IG_OAS"). simpl; auto.
    + apply (Hs _ "BAA_YIELD" "DGS10"). simpl; auto.
    + apply (Hs _ "DGS10" "DGS2"). simpl; auto.
  - intros c Hc. apply filter_In in Hc. apply Hz. tauto.
Qed.

Lemma add_derived_index df : index (add_derived df) = index df.
Proof. unfold add_derived. now rewrite fold_add_z_index, add_spreads_index. Qed.

(** X8: [add_derived] leaves the Panel's index and every column it does not
    assign to as they are; it assigns only to the three spread names and to
    the five z-score names. *)
Theorem add_derived_keeps_other_columns df n :
  ~ In n derived_names ->
  index (add_derived df) = index df /\
  get_col (add_derived df) n = get_col df n.
Proof.
  intros Hn. split; [apply add_derived_index|now apply add_derived_other].
Qed.

(** X9: [add_derived] turns a table into a table: every column of the
    result, the added ones included, has one cell per date. *)
Theorem add_derived_well_formed df :
  well_formed df -> well_formed (add_derived df).
Proof.
  intros Hwf. unfold add_derived.
  assert (Hs : well_formed (add_spreads df)).
  { unfold add_spreads. auto using derive_sub_wf. }
  revert Hs.
  generalize (filter (has_col (add_spreads df)) z_candidates).
  generalize (add_spreads df).
  intros out cs. revert out.
  induction cs as [|c cs IH]; intros out Hout; simpl; [assumption|].
  apply IH. now apply add_z_wf.
Qed.

Lemma add_derived_spread df name a b :
  In (name, a, b) spread_specs ->
  get_col (add_derived df) name =
  match get_col df a, get_col df b with
  | Some xa, Some xb => Some (zip_with fsub xa xb)
  | _, _ => get_col df name
  end.
Proof.
  intros Hs. rewrite (add_derived_keeps _ _ (spread_is_candidate _ _ _ Hs)).
  now apply add_spreads_spec.
Qed.

Lemma spread_inputs_kept df name a b :
  In (name, a, b) spread_specs ->
  get_col (add_derived df) a = get_col df a /\
  get_col (add_derived df) b = get_col df b.
Proof.
  unfold spread_specs. simpl.
  intros [E|[E|[E|[]]]]; injection E as _ <- <-;
    split; apply add_derived_other; unfold derived_names; simpl;
    intuition discriminate.
Qed.

Lemma derive_sub_again df name a b :
  In (name, a, b) spread_specs ->
  derive_sub (add_derived df) name a b = add_derived df.
Proof.
  intros Hs. unfold derive_sub.
  destruct (spread_inputs_kept df name a b Hs) as [-> ->].
  pose proof (add_derived_spread df name a b Hs) as Hn.
  destruct (get_col df a) as [xa|]; [|reflexivity].
  destruct (get_col df b) as [xb|]; [|reflexivity].
  now apply set_col_same.
Qed.

Lemma add_z_again df c :
  In c z_candidates -> add_z (add_derived df) c = add_derived df.
Proof.
  intros Hc. unfold add_z.
  destruct (get_col (add_derived df) c) as [xs|] eqn:E; [|reflexivity].
  apply set_col_same. apply add_derived_z; [assumption|].
  now rewrite <- (add_derived_keeps _ _ Hc).
Qed.

(** X10: deriving twice is deriving once: [add_derived] applied to its own
    result gives that result back, column for column. *)
Theorem add_derived_idempotent df :
  add_derived (add_derived df) = add_derived df.
Proof.
  assert (Hs : add_spreads (add_derived df) = add_derived df).
  { unfold add_spreads.
    rewrite (derive_sub_again df "HY_IG_SPREAD") by (simpl; auto).
    rewrite (derive_sub_again df "BAA_10Y_SPREAD") by (simpl; auto).
    apply derive_sub_again. simpl; auto. }
  unfold add_derived at 1. rewrite Hs.
  assert (Hcs : forall c, In c (filter (has_col (add_derived df)) z_candidates) ->
                          In c z_candidates).
  { intros c Hc. apply filter_In in Hc. tauto. }
  revert Hcs. generalize (filter (has_col (add_derived df)) z_candidates).
  induction l as [|c cs IH]; intros Hcs; simpl; [reflexivity|].
  rewrite add_z_again by (apply Hcs; now left).
  apply IH. intros c' Hc'. apply Hcs. now right.
Qed.

Lemma loc_zip_with (idx : list Stamp) (xa xb : list (option R)) d :
  List.length xa = List.length idx -> List.length xb = List.length idx ->
  loc idx (zip_with fsub xa xb) d = fsub (loc idx xa d) (loc idx xb d).
Proof.
  revert xa xb. induction idx as [|i idx IH]; intros [|a xa] [|b xb] Ha Hb;
    try discriminate; [reflexivity|].
  simpl. destruct (stamp_eqb i d); [reflexivity|].
  apply IH; simpl in *; lia.
Qed.

(** X11: merge and derive composed.  For sources with unique dates and
    distinct column names, the spread the pipeline reports at a Panel date
    is the most recent observation of the first input at or before that
    date minus the most recent observation of the second, and is missing as
    long as either input has not been observed yet. *)
Theorem pipeline_spread_from_last_observations
    (frames : list (DataFrame R)) panel name a b fa fb va vb d :
  valid_sources frames ->
  merge_frames frames = Ok panel ->
  In (name, a, b) spread_specs ->
  In fa frames -> In (a, va) (columns fa) ->
  In fb frames -> In (b, vb) (columns fb) ->
  In d (index panel) ->
  exists ra rb,
    most_recent fa va d ra /\ most_recent fb vb d rb /\
    cell (add_derived panel) name d = fsub ra rb.
Proof.
  intros Hv Hm Hs Hfa Hca Hfb Hcb Hd.
  exists (cell panel a d), (cell panel b d).
  split; [exact (panel_cell_most_recent _ _ _ (a, va) _ Hv Hm Hfa Hca Hd)|].
  split; [exact (panel_cell_most_recent _ _ _ (b, vb) _ Hv Hm Hfb Hcb Hd)|].
  pose proof (merged_panel_wf _ _ Hm) as Hwf.
  pose proof (merged_get_col _ _ _ (a, va) Hv Hm Hfa Hca) as Ea.
  pose proof (merged_get_col _ _ _ (b, vb) Hv Hm Hfb Hcb) as Eb.
  cbn [fst] in Ea, Eb.
  unfold cell. rewrite (add_derived_spread _ _ _ _ Hs), Ea, Eb, add_derived_index.
  apply loc_zip_with.
  - now apply get_col_length with (n := a).
  - now apply get_col_length with (n := b).
Qed.

Lemma dropna_length {A : Type} (l : list (option A)) :
  (List.length (dropna l) <= List.length l)%nat.
Proof.
  induction l as [|[a|] l IH]; simpl; lia.
Qed.

Lemma window_at_length {A : Type} (w : nat) (xs : list A) (i : nat) :
  (List.length (window_at w xs i) <= S i)%nat.
Proof.
  unfold window_at. rewrite length_skipn, length_firstn. lia.
Qed.

(** X12: a z-score needs thirty observations: on the first 29 rows of the
    Panel every z-score column is missing, whatever the data. *)
Theorem zscore_warm_up df c xs i :
  In c z_candidates ->
  get_col (add_derived df) c = Some xs ->
  (i < 29)%nat -> (i < List.length xs)%nat ->
  exists zs, get_col (add_derived df) (z_name c) = Some zs /\
             nth_error zs i = Some None.
Proof.
  intros Hc Hx Hi Hlen. rewrite (add_derived_keeps _ _ Hc) in Hx.
  exists (zscore xs). split; [now apply add_derived_z|].
  destruct (nth_error xs i) as [xo|] eqn:E;
    [|apply nth_error_None in E; lia].
  rewrite (zscore_nth _ _ _ E).
  pose proof (dropna_length (window_at 90 xs i)).
  pose proof (window_at_length 90 xs i).
  replace (List.length (dropna (window_at 90 xs i)) <? 30)%nat with true
    by (symmetry; apply Nat.ltb_lt; lia).
  now destruct xo.
Qed.

Lemma add_derived_keeps_other_columns_witness :
  index (add_derived Sample.hy_ig_panel) = [Sample.jan 2; Sample.jan 3] /\
  get_col (add_derived Sample.hy_ig_panel) "HY_OAS" = Some [Some 4%R; Some 5%R].
Proof.
  apply (add_derived_keeps_other_columns Sample.hy_ig_panel "HY_OAS").
  unfold derived_names. simpl. intuition discriminate.
Defined.

Lemma add_derived_well_formed_witness :
  well_formed (add_derived Sample.hy_ig_panel).
Proof.
  apply add_derived_well_formed.
  unfold well_formed, Sample.hy_ig_panel. simpl. repeat constructor.
Defined.

Lemma pipeline_spread_witness :
  exists panel ra rb,
    merge_frames [Sample.hy_frame_R; Sample.ig_frame_R] = Ok panel /\
    most_recent Sample.hy_frame_R [Some 4%R; Some 5%R] (Sample.jan 4) ra /\
    most_recent Sample.ig_frame_R [Some 1%R; Some 2%R] (Sample.jan 4) rb /\
    cell (add_derived panel) "HY_IG_SPREAD" (Sample.jan 4) = fsub ra rb.
Proof.
  assert (Hv : valid_sources [Sample.hy_frame_R; Sample.ig_frame_R]).
  { split.
    - constructor; [distinct|]. constructor; [distinct|]. constructor.
    - unfold unique_names. simpl. distinct. }
  destruct (pipeline_spread_from_last_observations
              [Sample.hy_frame_R; Sample.ig_frame_R] _
              "HY_IG_SPREAD" "HY_OAS" "IG_OAS"
              Sample.hy_frame_R Sample.ig_frame_R
              [Some 4%R; Some 5%R] [Some 1%R; Some 2%R] (Sample.jan 4)
              Hv eq_refl)
    as [ra [rb [Ha [Hb Hc]]]]; try (simpl; auto; fail).
  eexists. exists ra, rb.
  split; [reflexivity|]. split; [exact Ha|]. split; [exact Hb|exact Hc].
Defined.

Lemma zscore_warm_up_witness :
  exists zs, get_col (add_derived Sample.flat_panel) "IG_OAS_Z90" = Some zs /\
             nth_error zs 0 = Some None.
Proof.
  apply (zscore_warm_up Sample.flat_panel "IG_OAS" (repeat (Some 2%R) 30) 0).
  - simpl; auto.
  - reflexivity.
  - lia.
  - simpl; lia.
Defined.

(* ================================================================== *)
(** * Further properties of the table of current spreads *)
(* ================================================================== *)

Lemma later_spec (m d : Stamp) :
  (later m d = m \/ later m d = d) /\
  (forall t, m = Some t \/ d = Some t ->
     exists e, later m d = Some e /\ stamp_le (Some t) (Some e)).
Proof.
  destruct m as [a|], d as [b|]; simpl.
  - pose proof (ts_compare_antisym a b) as Hab.
    destruct (ts_compare a b) eqn:E; simpl in Hab; (split; [auto|]);
      intros t [[= <-]|[= <-]]; eexists; (split; [reflexivity|]);
      unfold stamp_le, stamp_leb; simpl;
      try rewrite E; try rewrite Hab; try reflexivity;
      now rewrite (proj2 (ts_compare_eq _ _) eq_refl).
  - split; [auto|]. intros t [[= <-]|H]; [|discriminate].
    eexists; split; [reflexivity|apply stamp_le_refl].
  - split; [auto|]. intros t [H|[= <-]]; [discriminate|].
    eexists; split; [reflexivity|apply stamp_le_refl].
  - split; [auto|]. intros t [H|H]; discriminate.
Qed.

Lemma fold_later_spec (l : list Stamp) (acc : Stamp) :
  (fold_left later l acc = acc \/ In (fold_left later l acc) l) /\
  (forall t, acc = Some t \/ In (Some t) l ->
     exists e, fold_left later l acc = Some e /\ stamp_le (Some t) (Some e)).
Proof.
  revert acc. induction l as [|d l IH]; intros acc; simpl.
  - split; [now left|]. intros t [->|[]].
    eexists; split; [reflexivity|apply stamp_le_refl].
  - destruct (IH (later acc d)) as [Hin Hmax].
    destruct (later_spec acc d) as [Hc Hl]. split.
    + destruct Hin as [E|Hin]; [|now right; right].
      rewrite E. destruct Hc as [->| ->]; [now left|now right; left].
    + intros t [Ht|[Ht|Ht]].
      * destruct (Hl t (or_introl Ht)) as [e [He Hle]].
        destruct (Hmax e (or_introl He)) as [e' [He' Hle']].
        exists e'. split; [assumption|]. eapply stamp_le_trans; eauto.
      * destruct (Hl t (or_intror Ht)) as [e [He Hle]].
        destruct (Hmax e (or_introl He)) as [e' [He' Hle']].
        exists e'. split; [assumption|]. eapply stamp_le_trans; eauto.
      * apply Hmax. now right.
Qed.

(** X14: [df.index.max()], whatever the order of the rows: it is a date of
    the index not earlier than any other, and it is NaT only when the index
    holds no date at all. *)
Theorem index_max_is_latest (idx : list Stamp) :
  (forall t, In (Some t) idx ->
     exists e, index_max idx = Some e /\ stamp_le (Some t) (Some e)) /\
  (index_max idx <> NaT -> In (index_max idx) idx) /\
  (index_max idx = NaT <-> forall d, In d idx -> d = NaT).
Proof.
  unfold index_max. destruct (fold_later_spec idx NaT) as [Hin Hmax].
  split; [|split].
  - intros t Ht. apply Hmax. now right.
  - intros Hne. destruct Hin as [E|Hin]; [contradiction|assumption].
  - split.
    + intros E d Hd. destruct d as [t|]; [|reflexivity].
      destruct (Hmax t (or_intror Hd)) as [e [He _]].
      rewrite He in E. discriminate E.
    + intros Hall. destruct Hin as [E|Hin]; [assumption|]. now apply Hall.
Qed.

Lemma table_step_raise df from ms e :
  fold_left (table_step df from) ms (Raise e) = Raise e.
Proof. induction ms as [|m ms IH]; simpl; auto. Qed.

Lemma table_fold_raise df from ms acc :
  (exists m, In m ms /\ get_col df (fst m) = Some []) ->
  fold_left (table_step df from) ms (Ok acc)
  = Raise (IndexError "single positional indexer is out-of-bounds").
Proof.
  revert acc. induction ms as [|m ms IH]; intros acc [m0 [Hin Hg]]; [destruct Hin|].
  simpl. destruct (get_col df (fst m)) as [vals|] eqn:E.
  - destruct vals as [|v vals].
    + simpl. apply table_step_raise.
    + destruct Hin as [->|Hin]; [congruence|].
      destruct (iloc_last (v :: vals)) as [cur|e] eqn:El.
      * apply IH. eauto.
      * rewrite (iloc_last_last (v :: vals) None) in El by discriminate.
        discriminate El.
  - destruct Hin as [->|Hin]; [congruence|]. apply IH. eauto.
Qed.

(** X15: the table can only fail on a Panel without rows.  It raises
    [IndexError] exactly when a listed metric is a column with no cell;
    otherwise it has one row per listed metric that is a column, in the
    order of the list, and none for the others. *)
Theorem build_current_table_fails_iff (df : DataFrame Q) :
  (build_current_table df
   = Raise (IndexError "single positional indexer is out-of-bounds") <->
   exists m, In m Charts.metrics /\ get_col df (fst m) = Some []) /\
  ((forall m, In m Charts.metrics -> get_col df (fst m) <> Some []) ->
   exists rows, build_current_table df = Ok rows /\
     map Metric rows
     = map snd (filter (fun m => has_col df (fst m)) Charts.metrics)).
Proof.
  assert (Hok : (forall m, In m Charts.metrics -> get_col df (fst m) <> Some []) ->
     exists rows, build_current_table df = Ok rows /\
       map Metric rows
       = map snd (filter (fun m => has_col df (fst m)) Charts.metrics)).
  { intros Hne. eexists. split.
    - unfold build_current_table. rewrite table_fold; [reflexivity|].
      intros m vals Hm Hg ->. exact (Hne m Hm Hg).
    - cbn [app]. clear Hne.
      generalize (option_map (sub_years 1) (index_max (index df))) as from.
      intros from. induction Charts.metrics as [|m ms IH]; [reflexivity|].
      simpl. rewrite map_app, IH. unfold summary_rows.
      destruct (has_col df (fst m)) eqn:Eh.
      + apply has_col_get_col in Eh.
        destruct (get_col df (fst m)); [reflexivity|congruence].
      + apply has_col_false in Eh. now rewrite Eh. }
  split; [|exact Hok]. split.
  - intros Hr.
    destruct (existsb (fun m => match get_col df (fst m) with
                                | Some [] => true | _ => false end)
                      Charts.metrics) eqn:E.
    + apply existsb_exists in E. destruct E as [m [Hm E]]. exists m.
      split; [assumption|].
      destruct (get_col df (fst m)) as [[|v vals]|]; congruence.
    + exfalso. destruct Hok as [rows [Hrows _]]; [|congruence].
      intros m Hm Hg.
      assert (Ht : existsb (fun m => match get_col df (fst m) with
                                     | Some [] => true | _ => false end)
                           Charts.metrics = true).
      { apply existsb_exists. exists m. split; [assumption|]. now rewrite Hg. }
      congruence.
  - intros Hex. unfold build_current_table. now apply table_fold_raise.
Qed.

(** ** Rounding keeps the order of values *)

Local Open Scope Q_scope.

Lemma round_half_even_near (q : Q) :
  inject_Z (round_half_even q) - (1 # 2) <= q /\
  q <= inject_Z (round_half_even q) + (1 # 2).
Proof.
  unfold round_half_even.
  pose proof (Qfloor_le q) as Hlo. pose proof (Qlt_floor q) as Hhi.
  rewrite inject_Z_plus in Hhi. change (inject_Z 1) with 1 in Hhi.
  destruct (Qcompare (q - inject_Z (Qfloor q)) (1 # 2)) eqn:E.
  - apply Qeq_alt in E.
    destruct (Z.even (Qfloor q));
      [|rewrite inject_Z_plus; change (inject_Z 1) with 1];
      split; Lqa.lra.
  - apply Qlt_alt in E. split; Lqa.lra.
  - apply Qgt_alt in E. rewrite inject_Z_plus. change (inject_Z 1) with 1.
    split; Lqa.lra.
Qed.

Lemma round_half_even_comp (q q' : Q) :
  q == q' -> round_half_even q = round_half_even q'.
Proof.
  intros H. unfold round_half_even.
  rewrite (Qfloor_comp _ _ H).
  replace (Qcompare (q - inject_Z (Qfloor q')) (1 # 2))
    with (Qcompare (q' - inject_Z (Qfloor q')) (1 # 2)); [reflexivity|].
  apply Qcompare_comp; [|reflexivity]. rewrite H. reflexivity.
Qed.

Lemma round_half_even_mono (q q' : Q) :
  q <= q' -> (round_half_even q <= round_half_even q')%Z.
Proof.
  intros Hle.
  destruct (Z_le_gt_dec (round_half_even q) (round_half_even q')) as [H|H];
    [assumption|].
  exfalso.
  assert (Hz : (round_half_even q' + 1 <= round_half_even q)%Z) by lia.
  rewrite Zle_Qle, inject_Z_plus in Hz. change (inject_Z 1) with 1 in Hz.
  destruct (round_half_even_near q) as [H1 _].
  destruct (round_half_even_near q') as [_ H2].
  assert (E : q == q') by Lqa.lra.
  apply round_half_even_comp in E. lia.
Qed.


Lemma round2_eq (q : Q) : round2 q == inject_Z (round_half_even (q * 100)) / 100.
Proof. unfold round2. apply Qred_correct. Qed.

Lemma round2_mono (q q' : Q) : q <= q' -> round2 q <= round2 q'.
Proof.
  intros H. rewrite !round2_eq.
  assert (Hm : (round_half_even (q * 100) <= round_half_even (q' * 100))%Z)
    by (apply round_half_even_mono; Lqa.lra).
  rewrite Zle_Qle in Hm.
  unfold Qdiv. apply Qmult_le_compat_r; [assumption|]. discriminate.
Qed.


Local Close Scope Q_scope.

(** ** The rows of the table *)

Lemma build_ok_rows (df : DataFrame Q) rows :
  build_current_table df = Ok rows ->
  rows = flat_map (summary_rows df (option_map (sub_years 1) (index_max (index df))))
                  Charts.metrics.
Proof.
  intros Hb. unfold build_current_table in Hb.
  destruct (existsb (fun m => match get_col df (fst m) with
                              | Some [] => true | _ => false end)
                    Charts.metrics) eqn:E.
  - apply existsb_exists in E. destruct E as [m [Hm E]].
    rewrite table_fold_raise in Hb; [discriminate Hb|].
    exists m. split; [assumption|].
    destruct (get_col df (fst m)) as [[|v vals]|]; congruence.
  - rewrite table_fold in Hb; [now injection Hb as <-|].
    intros m vals Hm Hg ->.
    assert (Ht : existsb (fun m => match get_col df (fst m) with
                                   | Some [] => true | _ => false end)
                         Charts.metrics = true).
    { apply existsb_exists. exists m. split; [assumption|]. now rewrite Hg. }
    congruence.
Qed.

Lemma row_of_metric (df : DataFrame Q) from rows row :
  rows = flat_map (summary_rows df from) Charts.metrics -> In row rows ->
  exists m vals,
    In m Charts.metrics /\ get_col df (fst m) = Some vals /\
    row = mkRow (snd m) (display (last vals None))
                (display (series_max (rows_from (index df) from vals)))
                (display (series_min (rows_from (index df) from vals))).
Proof.
  intros -> Hin. apply in_flat_map in Hin. destruct Hin as [m [Hm Hin]].
  unfold summary_rows in Hin.
  destruct (get_col df (fst m)) as [vals|] eqn:E; [|destruct Hin].
  destruct Hin as [<-|[]]. exists m, vals. auto.
Qed.

(** X17: in every row of the table the one-year low is not above the
    one-year high. *)
Theorem table_low_le_high (df : DataFrame Q) rows row lo hi :
  build_current_table df = Ok rows -> In row rows ->
  Low1y row = Some lo -> High1y row = Some hi ->
  (lo <= hi)%Q.
Proof.
  intros Hb Hin Hlo Hhi.
  destruct (row_of_metric _ _ _ _ (build_ok_rows _ _ Hb) Hin)
    as [m [vals [_ [_ ->]]]].
  simpl in Hlo, Hhi.
  set (yr := rows_from (index df)
               (option_map (sub_years 1) (index_max (index df))) vals) in *.
  pose proof (series_max_spec yr) as HM. pose proof (series_min_spec yr) as Hm.
  destruct (series_max yr) as [M|]; [|discriminate Hhi].
  destruct (series_min yr) as [m0|]; [|discriminate Hlo].
  simpl in Hlo, Hhi. injection Hlo as <-. injection Hhi as <-.
  apply round2_mono. destruct HM as [HinM _]. destruct Hm as [_ Hmin].
  now apply Hmin.
Qed.

Lemma sub_years_not_later (n : Z) (t : Timestamp) :
  0 <= n -> ts_compare t (sub_years n t) <> Lt.
Proof.
  intros Hn. destruct t as [y m d]. unfold ts_compare, sub_years. simpl.
  destruct (Z.compare_spec y (y - n)); [|lia|discriminate].
  rewrite Z.compare_refl.
  destruct (Z.compare_spec d (Z.min d (days_in_month (y - n) m)));
    [discriminate|lia|discriminate].
Qed.

Lemma combine_last {A B : Type} (l : list A) (m : list B) (a : A) (b : B) :
  List.length l = List.length m -> l <> [] ->
  In (last l a, last m b) (combine l m).
Proof.
  revert m. induction l as [|x l IH]; intros [|y m] Hlen Hne;
    try discriminate; [congruence|].
  destruct l as [|x' l].
  - destruct m; [|discriminate]. simpl. now left.
  - destruct m as [|y' m]; [discriminate|].
    change (last (x :: x' :: l) a) with (last (x' :: l) a).
    change (last (y :: y' :: m) b) with (last (y' :: m) b).
    right. apply IH; [simpl in *; lia|discriminate].
Qed.

(** X18: on a Panel (ascending dates, no NaT) the current value of a row
    lies between its one-year low and its one-year high: whenever the table
    reports a current value it reports both bounds as well. *)
Theorem table_current_in_range (df : DataFrame Q) rows row cur :
  well_formed df -> index df <> [] ->
  StronglySorted stamp_lt (index df) ->
  Forall (fun d => d <> NaT) (index df) ->
  build_current_table df = Ok rows -> In row rows ->
  Current row = Some cur ->
  exists lo hi,
    Low1y row = Some lo /\ High1y row = Some hi /\ (lo <= cur)%Q /\ (cur <= hi)%Q.
Proof.
  intros Hwf Hne Hs Hd Hb Hin Hcur.
  destruct (row_of_metric _ _ _ _ (build_ok_rows _ _ Hb) Hin)
    as [m [vals [_ [Hg ->]]]].
  simpl in Hcur |- *.
  destruct (last vals None) as [x|] eqn:Ex; [|discriminate Hcur].
  simpl in Hcur. injection Hcur as <-.
  pose proof (get_col_length _ _ _ Hwf Hg) as Hlen.
  pose proof (index_max_sorted _ Hs Hd) as Hend.
  set (from := option_map (sub_years 1) (index_max (index df))) in *.
  set (yr := rows_from (index df) from vals).
  assert (Hx : In (Some x) yr).
  { apply rows_from_In. exists (last (index df) NaT). split.
    - rewrite <- Ex. apply combine_last; [now symmetry|assumption].
    - unfold from. rewrite Hend.
      destruct (last (index df) NaT) as [e|] eqn:El.
      + simpl. pose proof (sub_years_not_later 1 e ltac:(lia)) as Hnl.
        destruct (ts_compare e (sub_years 1 e)); congruence.
      + exfalso. rewrite Forall_forall in Hd.
        apply (Hd NaT); [|reflexivity].
        unfold NaT. rewrite <- El. now apply last_In. }
  pose proof (series_max_spec yr) as HM. pose proof (series_min_spec yr) as Hm.
  destruct (series_max yr) as [M|]; [|exfalso; exact (HM x Hx)].
  destruct (series_min yr) as [m0|]; [|exfalso; exact (Hm x Hx)].
  exists (round2 m0), (round2 M). simpl.
  split; [reflexivity|]. split; [reflexivity|].
  split; apply round2_mono; [apply Hm|apply HM]; assumption.
Qed.

Lemma table_low_le_high_witness :
  (3 # 1 <= 5 # 1)%Q.
Proof.
  apply (table_low_le_high Sample.year_panel
           [mkRow "HY OAS" (Some (5 # 1)%Q) (Some (5 # 1)%Q) (Some (3 # 1)%Q)]
           (mkRow "HY OAS" (Some (5 # 1)%Q) (Some (5 # 1)%Q) (Some (3 # 1)%Q)));
    try reflexivity.
  simpl. now left.
Defined.

Lemma table_current_in_range_witness :
  exists lo hi,
    (lo <= 5 # 1)%Q /\ (5 # 1 <= hi)%Q.
Proof.
  destruct (table_current_in_range Sample.year_panel
              [mkRow "HY OAS" (Some (5 # 1)%Q) (Some (5 # 1)%Q) (Some (3 # 1)%Q)]
              (mkRow "HY OAS" (Some (5 # 1)%Q) (Some (5 # 1)%Q) (Some (3 # 1)%Q))
              (5 # 1)%Q) as [lo [hi [_ [_ [H1 H2]]]]].
  - unfold well_formed. simpl. repeat constructor.
  - discriminate.
  - simpl. repeat (constructor; [repeat constructor|]). constructor.
  - simpl. repeat (constructor; [discriminate|]). constructor.
  - reflexivity.
  - simpl. now left.
  - reflexivity.
  - exists lo, hi. split; assumption.
Defined.

(* ================================================================== *)
(** * Further properties of the recession intervals *)
(* ================================================================== *)

Lemma runs_cases (l : list (Stamp * bool)) :
  all_inactive l \/
  (exists pre s run, l = pre ++ (s, true) :: run /\
                     all_inactive pre /\ all_active run) \/
  (exists pre s run e rest, l = pre ++ (s, true) :: run ++ (e, false) :: rest /\
                            all_inactive pre /\ all_active run).
Proof.
  induction l as [|[d b] t IH]; [left; constructor|].
  destruct b.
  - right. destruct IH as [Hin|[[pre [s [run [-> [Hp Hr]]]]]
                                |[pre [s [run [e [rest [-> [Hp Hr]]]]]]]]].
    + destruct t as [|[e b'] t'].
      * left. exists [], d, []. repeat split; constructor.
      * right. inversion Hin as [|? ? Hb' _]; subst. simpl in Hb'. subst b'.
        exists [], d, [], e, t'. repeat split; constructor.
    + destruct pre as [|[e b'] pre'].
      * left. exists [], d, ((s, true) :: run).
        repeat split; constructor; auto.
      * right. inversion Hp as [|? ? Hb' _]; subst. simpl in Hb'. subst b'.
        exists [], d, [], e, (pre' ++ (s, true) :: run).
        repeat split; constructor.
    + right. destruct pre as [|[e' b'] pre'].
      * exists [], d, ((s, true) :: run), e, rest.
        repeat split; constructor; auto.
      * inversion Hp as [|? ? Hb' _]; subst. simpl in Hb'. subst b'.
        exists [], d, [], e', (pre' ++ (s, true) :: run ++ (e, false) :: rest).
        repeat split; constructor.
  - destruct IH as [Hin|[[pre [s [run [-> [Hp Hr]]]]]
                        |[pre [s [run [e [rest [-> [Hp Hr]]]]]]]]].
    + left. constructor; auto.
    + right. left. exists ((d, false) :: pre), s, run.
      repeat split; auto. constructor; auto.
    + right. right. exists ((d, false) :: pre), s, run, e, rest.
      repeat split; auto. constructor; auto.
Qed.

Lemma sorted_app_inv {A : Type} (R : A -> A -> Prop) (l1 l2 : list A) :
  StronglySorted R (l1 ++ l2) ->
  StronglySorted R l1 /\ StronglySorted R l2 /\
  (forall x y, In x l1 -> In y l2 -> R x y).
Proof.
  induction l1 as [|a l1 IH]; simpl; intros H.
  - repeat split; [constructor|assumption|intros x y []].
  - inversion H as [|? ? Hs Ha]; subst.
    destruct (IH Hs) as [H1 [H2 H12]].
    rewrite Forall_app in Ha. destruct Ha as [Ha1 Ha2].
    repeat split; [constructor; assumption|assumption|].
    intros x y [<-|Hx] Hy; [|auto].
    rewrite Forall_forall in Ha2. auto.
Qed.

Lemma sorted_le_last (l : list Stamp) (x d : Stamp) :
  StronglySorted stamp_lt l -> In x l -> stamp_le x (last l d).
Proof.
  intros Hs Hx. destruct (exists_last (l := l)) as [l' [y E]];
    [intros ->; destruct Hx|].
  subst l. rewrite last_last.
  apply in_app_or in Hx. destruct Hx as [Hx|[<-|[]]]; [|apply stamp_le_refl].
  destruct (sorted_app_inv _ _ _ Hs) as [_ [_ H]].
  apply stamp_le_cases. left. apply H; [assumption|now left].
Qed.

Lemma inactive_not_true (l : list (Stamp * bool)) d :
  all_inactive l -> ~ In (d, true) l.
Proof.
  intros H Hin. unfold all_inactive in H. rewrite Forall_forall in H.
  specialize (H _ Hin). discriminate H.
Qed.

Lemma active_not_false (l : list (Stamp * bool)) d :
  all_active l -> ~ In (d, false) l.
Proof.
  intros H Hin. unfold all_active in H. rewrite Forall_forall in H.
  specialize (H _ Hin). discriminate H.
Qed.

Lemma in_fst {A B : Type} (x : A) (y : B) (l : list (A * B)) :
  In (x, y) l -> In x (map fst l).
Proof. intros H. change x with (fst (x, y)). now apply in_map. Qed.

Lemma closed_order pre s run e rest :
  StronglySorted stamp_lt (map fst (pre ++ (s, true) :: run ++ (e, false) :: rest)) ->
  (forall x, In x (map fst pre) -> stamp_lt x s) /\
  (forall x, In x (map fst run) -> stamp_lt s x /\ stamp_lt x e) /\
  stamp_lt s e /\
  (forall x, In x (map fst rest) -> stamp_lt e x) /\
  StronglySorted stamp_lt (map fst rest).
Proof.
  rewrite map_app. simpl. rewrite map_app. simpl. intros H.
  destruct (sorted_app_inv _ _ _ H) as [_ [H2 Hpre]].
  inversion H2 as [|? ? Hs Hfs]; subst.
  rewrite Forall_forall in Hfs.
  destruct (sorted_app_inv _ _ _ Hs) as [_ [H3 Hrun]].
  inversion H3 as [|? ? Hrest He]; subst.
  rewrite Forall_forall in He.
  split; [intros x Hx; apply Hpre; [assumption|now left]|].
  split.
  - intros x Hx. split.
    + apply Hfs. apply in_or_app. now left.
    + apply Hrun; [assumption|now left].
  - split; [apply Hfs, in_or_app; right; now left|].
    split; assumption.
Qed.

Lemma open_order pre s run :
  StronglySorted stamp_lt (map fst (pre ++ (s, true) :: run)) ->
  (forall x, In x (map fst pre) -> stamp_lt x s) /\
  StronglySorted stamp_lt (s :: map fst run).
Proof.
  rewrite map_app. simpl. intros H.
  destruct (sorted_app_inv _ _ _ H) as [_ [H2 Hpre]].
  split; [intros x Hx; apply Hpre; [assumption|now left]|assumption].
Qed.

Lemma shades_nil (l : list (Stamp * bool)) : all_inactive l -> shades l [].
Proof.
  intros Hin. split; [intros s e []|]. split; [constructor|].
  split; [|intros s e d []].
  intros d Hd. exfalso. exact (inactive_not_true _ _ Hin Hd).
Qed.

Lemma spans_shade (n : nat) :
  forall l, (List.length l <= n)%nat ->
  StronglySorted stamp_lt (map fst l) -> shades l (spans_of l).
Proof.
  induction n as [|n IH]; intros l Hlen Hs.
  - destruct l; [|simpl in Hlen; lia].
    apply shades_nil. constructor.
  - destruct (runs_cases l) as [Hin|[[pre [s [run [-> [Hp Hr]]]]]
                                   |[pre [s [run [e [rest [-> [Hp Hr]]]]]]]]].
    + (* never active *)
      replace (spans_of l) with (@nil (Stamp * Stamp))
        by (unfold spans_of;
            now rewrite (loop_inactive l (mkSpanState false None []) Hin eq_refl)).
      now apply shades_nil.
    + (* a run still open at the end *)
      rewrite (spans_of_open pre s run Hp Hr).
      destruct (open_order _ _ _ Hs) as [Hpre Hsr].
      set (e := last (map fst ((s, true) :: run)) NaT).
      assert (Hle : forall x, In x (s :: map fst run) -> stamp_le x e)
        by (intros x Hx; unfold e; simpl map; now apply sorted_le_last).
      assert (He : In e (s :: map fst run))
        by (unfold e; simpl map; apply last_In; discriminate).
      inversion Hsr as [|? ? _ Hfs]; subst. rewrite Forall_forall in Hfs.
      split; [|split; [|split]].
      * intros s' e' [[= <- <-]|[]]. split; [apply in_or_app; right; now left|].
        split; [|apply Hle; now left].
        rewrite map_app. apply in_or_app. right. exact He.
      * constructor; constructor.
      * intros d Hd. exists s, e. split; [now left|].
        apply in_app_or in Hd. destruct Hd as [Hd|[[= <-]|Hd]].
        { exfalso. exact (inactive_not_true _ _ Hp Hd). }
        { split; [apply stamp_le_refl|apply Hle; now left]. }
        { apply in_fst in Hd. split.
          - apply stamp_le_cases. left. now apply Hfs.
          - apply Hle. now right. }
      * intros s' e' d [[= <- <-]|[]] Hd Hsd Hde.
        apply in_app_or in Hd. destruct Hd as [Hd|[Hd|Hd]].
        { apply in_fst in Hd. exact (stamp_lt_not_le _ _ (Hpre _ Hd) Hsd). }
        { discriminate Hd. }
        { exact (active_not_false _ _ Hr Hd). }
    + (* a run closed by an inactive observation *)
      rewrite (spans_of_closed pre s run e rest Hp Hr).
      destruct (closed_order _ _ _ _ _ Hs) as [Hpre [Hrun [Hse [Hrest Hsrest]]]].
      assert (Hshort : (List.length rest <= n)%nat).
      { rewrite !length_app in Hlen. simpl in Hlen.
        rewrite length_app in Hlen. simpl in Hlen. lia. }
      destruct (IH rest Hshort Hsrest) as [G1 [G2 [G3 G4]]].
      assert (Hin_rest : forall x, In x rest ->
                In x (pre ++ (s, true) :: run ++ (e, false) :: rest)).
      { intros x Hx. apply in_or_app. right. right.
        apply in_or_app. right. now right. }
      split; [|split; [|split]].
      * intros s' e' [[= <- <-]|Hin'].
        { split; [apply in_or_app; right; now left|].
          split; [|apply stamp_le_cases; now left].
          rewrite map_app. apply in_or_app. right. simpl. right.
          rewrite map_app. apply in_or_app. right. now left. }
        { destruct (G1 _ _ Hin') as [Ha [Hb Hc]].
          split; [now apply Hin_rest|]. split; [|assumption].
          apply in_map_iff in Hb. destruct Hb as [x [<- Hx]].
          apply in_map. now apply Hin_rest. }
      * constructor; [assumption|].
        apply Forall_forall. intros [s' e'] Hin'. simpl.
        destruct (G1 _ _ Hin') as [Ha _]. apply Hrest. now apply in_fst in Ha.
      * intros d Hd. apply in_app_or in Hd.
        destruct Hd as [Hd|[[= <-]|Hd]].
        { exfalso. exact (inactive_not_true _ _ Hp Hd). }
        { exists s, e. split; [now left|].
          split; [apply stamp_le_refl|apply stamp_le_cases; now left]. }
        { apply in_app_or in Hd. destruct Hd as [Hd|[Hd|Hd]].
          - exists s, e. split; [now left|].
            apply in_fst in Hd. destruct (Hrun _ Hd) as [H1 H2].
            split; apply stamp_le_cases; now left.
          - discriminate Hd.
          - destruct (G3 d Hd) as [s' [e' [Hin' [H1 H2]]]].
            exists s', e'. split; [now right|]. split; assumption. }
      * intros s' e' d [[= <- <-]|Hin'] Hd Hsd Hde.
        { apply in_app_or in Hd. destruct Hd as [Hd|[Hd|Hd]].
          - apply in_fst in Hd. exact (stamp_lt_not_le _ _ (Hpre _ Hd) Hsd).
          - discriminate Hd.
          - apply in_app_or in Hd. destruct Hd as [Hd|[[= <-]|Hd]].
            + exact (active_not_false _ _ Hr Hd).
            + exact (stamp_lt_irrefl _ Hde).
            + apply in_fst in Hd.
              exact (stamp_lt_irrefl _ (stamp_lt_trans _ _ _ Hde (Hrest _ Hd))). }
        { destruct (G1 _ _ Hin') as [Ha _]. apply in_fst in Ha.
          pose proof (Hrest _ Ha) as Hes'.
          assert (Hlate : stamp_lt e d).
          { apply stamp_le_cases in Hsd. destruct Hsd as [Hsd| <-];
              [eapply stamp_lt_trans; eauto|assumption]. }
          apply in_app_or in Hd. destruct Hd as [Hd|[Hd|Hd]].
          - apply in_fst in Hd.
            exact (stamp_lt_irrefl _
                     (stamp_lt_trans _ _ _ (Hpre _ Hd)
                        (stamp_lt_trans _ _ _ Hse Hlate))).
          - discriminate Hd.
          - apply in_app_or in Hd. destruct Hd as [Hd|[[= <-]|Hd]].
            + exact (active_not_false _ _ Hr Hd).
            + exact (stamp_lt_irrefl _ Hlate).
            + exact (G4 _ _ _ Hin' Hd Hsd Hde). }
Qed.

Lemma thresholded_In (rows : list (Stamp * option Q)) d b :
  In (d, b) (thresholded rows) <-> exists v, In (d, Some v) rows /\ active v = b.
Proof.
  unfold thresholded, dropna_rows. rewrite in_map_iff. split.
  - intros [[d' v] [[= <- <-] Hin]]. apply in_flat_map in Hin.
    destruct Hin as [[d'' [w|]] [Hin Hx]]; simpl in Hx; [|destruct Hx].
    destruct Hx as [[= <- <-]|[]]. now exists w.
  - intros [v [Hin <-]]. exists (d, v). split; [reflexivity|].
    apply in_flat_map. exists (d, Some v). split; [assumption|now left].
Qed.

Lemma thresholded_labels (P : Stamp -> Prop) (idx : list Stamp) :
  forall vals, Forall P idx ->
  Forall P (map fst (thresholded (combine idx vals))).
Proof.
  induction idx as [|d idx IH]; intros vals H; [constructor|].
  destruct vals as [|v vals]; [constructor|].
  inversion H as [|? ? Hd Hrest]; subst.
  unfold thresholded, dropna_rows in *. simpl combine. simpl flat_map.
  destruct v as [v|]; simpl; [constructor; [assumption|]|]; now apply IH.
Qed.

Lemma thresholded_sorted (idx : list Stamp) :
  forall vals, StronglySorted stamp_lt idx ->
  StronglySorted stamp_lt (map fst (thresholded (combine idx vals))).
Proof.
  induction idx as [|d idx IH]; intros vals H; [constructor|].
  destruct vals as [|v vals]; [constructor|].
  inversion H as [|? ? Hs Hd]; subst.
  pose proof (thresholded_labels (stamp_lt d) idx vals Hd) as Hl.
  specialize (IH vals Hs).
  unfold thresholded, dropna_rows in *. simpl combine. simpl flat_map.
  destruct v as [v|]; simpl; [constructor|]; assumption.
Qed.

Lemma recession_spans_shade (df : DataFrame Q) (vals : list (option Q)) :
  StronglySorted stamp_lt (index df) ->
  get_col df "USREC" = Some vals ->
  shades (thresholded (combine (index df) vals)) (recession_spans df).
Proof.
  intros Hs Hc. unfold recession_spans. rewrite Hc.
  change (shades (thresholded (combine (index df) vals))
                 (spans_of (thresholded (combine (index df) vals)))).
  apply (spans_shade (List.length (thresholded (combine (index df) vals))));
    [lia|now apply thresholded_sorted].
Qed.

Lemma active_true (v : Q) : active v = true <-> (1 # 2 < v)%Q.
Proof.
  unfold active. destruct (Qlt_le_dec (1 # 2) v) as [H|H].
  - tauto.
  - split; [discriminate|]. intros H'. exfalso. exact (Qlt_not_le _ _ H' H).
Qed.

Lemma active_false (v : Q) : active v = false <-> (v <= 1 # 2)%Q.
Proof.
  unfold active. destruct (Qlt_le_dec (1 # 2) v) as [H|H].
  - split; [discriminate|]. intros H'. exfalso. exact (Qlt_not_le _ _ H H').
  - tauto.
Qed.

(** X19: the intervals of [recession_spans] are well formed and in order.
    Over a frame whose dates strictly ascend, every interval starts on a date
    where the indicator is above one half and ends, not before its start, on a
    date where the indicator is observed; and each interval ends strictly
    before every later interval starts, so no two overlap. *)
Theorem recession_spans_ordered (df : DataFrame Q) (vals : list (option Q))
  (Hsorted : StronglySorted stamp_lt (index df))
  (Hcol : get_col df "USREC" = Some vals) :
  (forall s e, In (s, e) (recession_spans df) ->
     (exists v, In (s, Some v) (combine (index df) vals) /\ (1 # 2 < v)%Q) /\
     (exists v, In (e, Some v) (combine (index df) vals)) /\
     stamp_le s e) /\
  StronglySorted (fun p q => stamp_lt (snd p) (fst q)) (recession_spans df).
Proof.
  destruct (recession_spans_shade df vals Hsorted Hcol) as [G1 [G2 _]].
  split; [|exact G2].
  intros s e Hin. destruct (G1 s e Hin) as [Ha [Hb Hc]].
  split; [|split; [|exact Hc]].
  - apply thresholded_In in Ha. destruct Ha as [v [Hv Hact]].
    exists v. split; [assumption|now apply active_true].
  - apply in_map_iff in Hb. destruct Hb as [[e' b] [He Hb]]. simpl in He. subst e'.
    apply thresholded_In in Hb. destruct Hb as [v [Hv _]]. now exists v.
Qed.

Lemma recession_spans_ordered_witness :
  recession_spans Sample.rec_panel = [(Sample.jan 2, Sample.jan 5)] /\
  StronglySorted (fun p q => stamp_lt (snd p) (fst q))
                 (recession_spans Sample.rec_panel).
Proof.
  split; [reflexivity|].
  apply (recession_spans_ordered Sample.rec_panel
           [Some 0%Q; Some 1%Q; None; Some 1%Q; Some 0%Q]).
  - repeat constructor.
  - reflexivity.
Defined.

(** X20: the intervals of [recession_spans] shade exactly the recession.
    Over a frame whose dates strictly ascend, every date where the indicator
    is above one half lies in an interval, its ends included; and no date
    where the indicator is observed at one half or below lies from the start
    of an interval to before its end. *)
Theorem recession_spans_cover (df : DataFrame Q) (vals : list (option Q))
  (Hsorted : StronglySorted stamp_lt (index df))
  (Hcol : get_col df "USREC" = Some vals) :
  (forall d v, In (d, Some v) (combine (index df) vals) -> (1 # 2 < v)%Q ->
     exists s e, In (s, e) (recession_spans df) /\ stamp_le s d /\ stamp_le d e) /\
  (forall s e d v, In (s, e) (recession_spans df) ->
     In (d, Some v) (combine (index df) vals) -> (v <= 1 # 2)%Q ->
     stamp_le s d -> ~ stamp_lt d e).
Proof.
  destruct (recession_spans_shade df vals Hsorted Hcol) as [_ [_ [G3 G4]]].
  split.
  - intros d v Hin Hv. apply G3. apply thresholded_In.
    exists v. split; [assumption|now apply active_true].
  - intros s e d v Hin Hd Hv Hsd Hde.
    apply (G4 s e d Hin); [|assumption|assumption].
    apply thresholded_In. exists v. split; [assumption|now apply active_false].
Qed.

Lemma recession_spans_cover_witness :
  exists s e, In (s, e) (recession_spans Sample.rec_panel) /\
              stamp_le s (Sample.jan 4) /\ stamp_le (Sample.jan 4) e.
Proof.
  assert (Hs : StronglySorted stamp_lt (index Sample.rec_panel))
    by (repeat constructor).
  apply (proj1 (recession_spans_cover Sample.rec_panel
                  [Some 0%Q; Some 1%Q; None; Some 1%Q; Some 0%Q] Hs eq_refl)
               (Sample.jan 4) 1%Q).
  - simpl. auto.
  - reflexivity.
Defined.

(* ================================================================== *)
(** * The plotted window *)
(* ================================================================== *)

Lemma stamp_geb_le (d s : Stamp) :
  stamp_geb d s = true <-> d <> NaT /\ s <> NaT /\ stamp_le s d.
Proof.
  unfold stamp_geb, stamp_le, stamp_leb, NaT.
  destruct d as [a|], s as [b|]; simpl;
    try (split; [discriminate|intros [H1 [H2 _]]; congruence]).
  pose proof (ts_compare_antisym a b) as Hab.
  destruct (ts_compare a b) eqn:E; simpl in Hab; rewrite Hab;
    split; try discriminate; try (intros _; repeat split; discriminate);
    try reflexivity.
  - intros [_ [_ H]]. discriminate H.
Qed.

Lemma filter_filter_imp {A : Type} (p q : A -> bool) (l : list A) :
  (forall x, In x l -> p x = true -> q x = true) ->
  filter p (filter q l) = filter p l.
Proof.
  induction l as [|a l IH]; intros H; simpl; [reflexivity|].
  assert (IH' : filter p (filter q l) = filter p l)
    by (apply IH; intros x Hx; apply H; now right).
  destruct (q a) eqn:Eq; simpl.
  - now rewrite IH'.
  - destruct (p a) eqn:Ep; [|exact IH'].
    rewrite (H a (or_introl eq_refl) Ep) in Eq. discriminate Eq.
Qed.

Lemma filter_none {A : Type} (p : A -> bool) (l : list A) :
  (forall x, In x l -> p x = false) -> filter p l = [].
Proof.
  induction l as [|a l IH]; intros H; simpl; [reflexivity|].
  rewrite (H a) by now left. apply IH. intros x Hx. apply H. now right.
Qed.

Lemma combine_filter {A B : Type} (p : A -> bool) (l : list A) :
  forall m : list B,
  combine (filter p l) (map snd (filter (fun r => p (fst r)) (combine l m)))
  = filter (fun r => p (fst r)) (combine l m).
Proof.
  induction l as [|a l IH]; intros m; [reflexivity|].
  destruct m as [|b m]; simpl.
  - now destruct (filter p l); destruct (p a).
  - destruct (p a); simpl; [f_equal|]; apply IH.
Qed.

Lemma filter_combine_length {A B : Type} (p : A -> bool) (l : list A) :
  forall m : list B, List.length m = List.length l ->
  List.length (map snd (filter (fun r => p (fst r)) (combine l m)))
  = List.length (filter p l).
Proof.
  induction l as [|a l IH]; intros [|b m] Hlen; try discriminate; [reflexivity|].
  simpl. destruct (p a); simpl; [f_equal|]; apply IH; simpl in Hlen; lia.
Qed.

Lemma sorted_filter {A : Type} (R : A -> A -> Prop) (p : A -> bool) (l : list A) :
  StronglySorted R l -> StronglySorted R (filter p l).
Proof.
  induction 1 as [|a l Hs IH Hf]; simpl; [constructor|].
  destruct (p a); [|assumption]. constructor; [assumption|].
  rewrite Forall_forall in *. intros x Hx. apply Hf.
  apply filter_In in Hx. tauto.
Qed.

Section WindowFacts.
Context {V : Type}.
Implicit Types (df : DataFrame V).

Lemma get_col_loc_from df (s : Stamp) n :
  get_col (loc_from df s) n
  = option_map (fun vals => map snd (filter (fun r => stamp_geb (fst r) s)
                                            (combine (index df) vals)))
               (get_col df n).
Proof.
  unfold get_col, loc_from. simpl.
  induction (columns df) as [|c t IH]; simpl; [reflexivity|].
  destruct (String.eqb (fst c) n); [reflexivity|exact IH].
Qed.

Lemma loc_from_nest df (s1 s2 : Stamp) :
  (forall d, stamp_geb d s1 = true -> stamp_geb d s2 = true) ->
  loc_from (loc_from df s2) s1 = loc_from df s1.
Proof.
  intros H. unfold loc_from. simpl. f_equal.
  - apply filter_filter_imp. intros x _. apply H.
  - rewrite map_map. apply map_ext. intros [n vals]. simpl. f_equal. f_equal.
    rewrite (combine_filter (fun d => stamp_geb d s2)).
    apply filter_filter_imp. intros [d v] _. simpl. apply H.
Qed.

Lemma loc_from_wf df (s : Stamp) : well_formed df -> well_formed (loc_from df s).
Proof.
  unfold well_formed, loc_from. simpl. intros H.
  apply Forall_map. eapply Forall_impl; [|exact H].
  intros [n vals] Hlen. simpl in *.
  now apply (filter_combine_length (fun d => stamp_geb d s)).
Qed.

End WindowFacts.

Lemma index_max_In (idx : list Stamp) :
  index_max idx = NaT \/ In (index_max idx) idx.
Proof. exact (proj1 (fold_later_spec idx NaT)). Qed.

Lemma index_max_upper (idx : list Stamp) (t : Timestamp) :
  In (Some t) idx ->
  exists e, index_max idx = Some e /\ stamp_le (Some t) (Some e).
Proof. intros H. apply (proj2 (fold_later_spec idx NaT)). now right. Qed.

Lemma sub_years_geb (n : Z) (t : Timestamp) :
  0 <= n -> stamp_geb (Some t) (Some (sub_years n t)) = true.
Proof.
  intros Hn. simpl. pose proof (sub_years_not_later n t Hn) as H.
  destruct (ts_compare t (sub_years n t)); congruence.
Qed.

Lemma sub_years_antitone (n1 n2 : Z) (t : Timestamp) :
  n1 <= n2 -> stamp_le (Some (sub_years n2 t)) (Some (sub_years n1 t)).
Proof.
  intros Hn. destruct (Z.eq_dec n1 n2) as [->|Hne]; [apply stamp_le_refl|].
  apply stamp_le_cases. left.
  unfold stamp_lt, stamp_ltb, stamp_compare, ts_compare, sub_years.
  cbn [year month day]. destruct (Z.compare_spec (year t - n2) (year t - n1));
    [lia|reflexivity|lia].
Qed.

(** The latest date of the window is the latest date of the frame. *)
Lemma window_index_max {V : Type} (df : DataFrame V) (years : Z) :
  0 <= years ->
  index_max (index (window_rows df years)) = index_max (index df).
Proof.
  intros Hy. unfold window_rows, loc_from. cbn [index].
  destruct (index_max (index df)) as [e|] eqn:E.
  - cbn [option_map].
    set (p := fun d => stamp_geb d (Some (sub_years years e))).
    assert (Hin : In (Some e) (filter p (index df))).
    { apply filter_In. split; [|now apply sub_years_geb].
      destruct (index_max_In (index df)) as [H|H]; rewrite E in H;
        [discriminate H|exact H]. }
    destruct (index_max_upper _ _ Hin) as [e' [E' Hle]].
    rewrite E'. f_equal.
    assert (Hin' : In (Some e') (index df)).
    { destruct (index_max_In (filter p (index df))) as [H|H]; rewrite E' in H;
        [discriminate H|]. apply filter_In in H. tauto. }
    destruct (index_max_upper _ _ Hin') as [e'' [E'' Hle']].
    rewrite E in E''. injection E'' as <-.
    pose proof (stamp_le_antisym _ _ Hle Hle') as Heq. congruence.
  - cbn [option_map]. rewrite filter_none; [reflexivity|].
    intros d _. unfold stamp_geb. now destruct d.
Qed.

Lemma window_index_In {V : Type} (df : DataFrame V) (years : Z) (d : Stamp) :
  0 <= years ->
  (In d (index (window_rows df years)) <->
   In d (index df) /\
   exists t e, d = Some t /\ index_max (index df) = Some e /\
               stamp_le (Some (sub_years years e)) d /\ stamp_le d (Some e)).
Proof.
  intros Hy. unfold window_rows, loc_from. cbn [index].
  rewrite filter_In, stamp_geb_le. split.
  - intros [Hin [Hd [Hs Hle]]]. split; [assumption|].
    destruct d as [t|]; [|now elim Hd].
    destruct (index_max_upper _ _ Hin) as [e [E Hmax]].
    exists t, e. rewrite E in Hle. now repeat split.
  - intros [Hin [t [e [-> [E [Hle _]]]]]]. rewrite E.
    repeat split; try assumption; discriminate.
Qed.

(** X21: windows nest.  Cutting the window of [y2] years down to [y1 <= y2]
    years gives the window of [y1] years of the whole frame; with [y1 = y2],
    windowing twice is windowing once. *)
Theorem window_rows_nest {V : Type} (df : DataFrame V) (y1 y2 : Z)
  (Hy : 0 <= y1 <= y2) :
  window_rows (window_rows df y2) y1 = window_rows df y1.
Proof.
  unfold window_rows at 1. rewrite window_index_max by lia.
  unfold window_rows. apply loc_from_nest.
  intros d. destruct (index_max (index df)) as [e|]; cbn [option_map].
  - rewrite !stamp_geb_le. intros [Hd [_ Hle]].
    repeat split; [assumption|discriminate|].
    eapply stamp_le_trans; [|exact Hle]. apply sub_years_antitone. lia.
  - unfold stamp_geb. now destruct d.
Qed.

Lemma window_rows_nest_witness :
  window_rows (window_rows Sample.year_panel 5) 1 = window_rows Sample.year_panel 1.
Proof. apply window_rows_nest. lia. Defined.

(** X22: the dates of the window.  For a window of [years >= 0] years, the
    latest date of the window is the latest date of the frame, and the
    window holds exactly the frame's dates from [years] years before the
    latest date up to it; a missing date is never in it. *)
Theorem window_rows_dates {V : Type} (df : DataFrame V) (years : Z)
  (Hy : 0 <= years) :
  index_max (index (window_rows df years)) = index_max (index df) /\
  (forall d, In d (index (window_rows df years)) <->
     In d (index df) /\
     exists t e, d = Some t /\ index_max (index df) = Some e /\
                 stamp_le (Some (sub_years years e)) d /\ stamp_le d (Some e)).
Proof.
  split; [now apply window_index_max|].
  intros d. now apply window_index_In.
Qed.

Lemma window_rows_dates_witness :
  index_max (index (window_rows Sample.year_panel 1)) = Some (mkTS 2024 3 15) /\
  In (Some (mkTS 2024 3 5)) (index (window_rows Sample.year_panel 1)) /\
  ~ In (Some (mkTS 2023 2 9)) (index (window_rows Sample.year_panel 1)).
Proof.
  assert (Hy : 0 <= 1) by lia.
  destruct (window_rows_dates Sample.year_panel 1 Hy) as [Hmax Hin].
  split; [exact Hmax|]. split.
  - apply Hin. split; [simpl; auto|].
    exists (mkTS 2024 3 5), (mkTS 2024 3 15). repeat split.
  - intros H. apply Hin in H. destruct H as [_ [t [e [[= <-] [[= <-] [Hle _]]]]]].
    discriminate Hle.
Defined.

(** X23: the rows of the window.  The window keeps every column under its
    name; the rows of a column are the frame's rows dated on or after the
    start of the window, in the frame's order, each with the value it had;
    and a frame whose columns are as long as its index stays so. *)
Theorem window_rows_aligned {V : Type} (df : DataFrame V) (years : Z) :
  map fst (columns (window_rows df years)) = map fst (columns df) /\
  (forall n vals, get_col df n = Some vals ->
     exists kept, get_col (window_rows df years) n = Some kept /\
       combine (index (window_rows df years)) kept
       = filter (fun r => stamp_geb (fst r)
                            (option_map (sub_years years) (index_max (index df))))
                (combine (index df) vals)) /\
  (well_formed df -> well_formed (window_rows df years)).
Proof.
  split; [|split].
  - unfold window_rows, loc_from. cbn [columns]. rewrite map_map. reflexivity.
  - intros n vals Hg. unfold window_rows. rewrite get_col_loc_from, Hg.
    eexists. split; [reflexivity|]. unfold loc_from. cbn [index].
    apply (combine_filter (fun d => stamp_geb d _)).
  - apply loc_from_wf.
Qed.

(** X24: shading stays inside the plot.  For a frame whose dates strictly
    ascend and a window of [years >= 0] years, every interval
    [plot_oas_window] shades starts and ends on dates of the frame between
    the start of the window and the latest date, and the intervals are in
    order and do not overlap. *)
Theorem shading_within_window (df : DataFrame Q) (years : Z) (vals : list (option Q))
  (Hy : 0 <= years)
  (Hsorted : StronglySorted stamp_lt (index df))
  (Hcol : get_col df "USREC" = Some vals) :
  (forall s e, In (s, e) (shading (plot_oas_window df years)) ->
     In s (index df) /\ In e (index df) /\
     exists latest, index_max (index df) = Some latest /\
       stamp_le (Some (sub_years years latest)) s /\
       stamp_le s e /\ stamp_le e (Some latest)) /\
  StronglySorted (fun p q => stamp_lt (snd p) (fst q))
                 (shading (plot_oas_window df years)).
Proof.
  unfold plot_oas_window. cbn [shading].
  set (sub := window_rows df years).
  assert (Hs : StronglySorted stamp_lt (index sub))
    by (unfold sub, window_rows, loc_from; cbn [index]; now apply sorted_filter).
  assert (Hg : exists kept, get_col sub "USREC" = Some kept).
  { unfold sub, window_rows. rewrite get_col_loc_from, Hcol. now eexists. }
  destruct Hg as [kept Hg].
  destruct (recession_spans_shade sub kept Hs Hg) as [G1 [G2 _]].
  split; [|exact G2].
  intros s e Hin. destruct (G1 s e Hin) as [Ha [Hb Hle]].
  assert (Hs_in : In s (index sub)).
  { apply thresholded_In in Ha. destruct Ha as [v [Hv _]].
    exact (in_combine_l _ _ _ _ Hv). }
  assert (He_in : In e (index sub)).
  { apply in_map_iff in Hb. destruct Hb as [[e' b] [E Hb]]. simpl in E. subst e'.
    apply thresholded_In in Hb. destruct Hb as [v [Hv _]].
    exact (in_combine_l _ _ _ _ Hv). }
  apply (window_index_In df years s Hy) in Hs_in.
  apply (window_index_In df years e Hy) in He_in.
  destruct Hs_in as [Hs1 [ts [l1 [-> [E1 [Hlo _]]]]]].
  destruct He_in as [He1 [te [l2 [-> [E2 [_ Hhi]]]]]].
  split; [assumption|]. split; [assumption|].
  exists l1. rewrite E1 in E2. injection E2 as <-. now repeat split.
Qed.

Lemma shading_within_window_witness :
  shading (plot_oas_window Sample.rec_panel 5) = [(Sample.jan 2, Sample.jan 5)] /\
  StronglySorted (fun p q => stamp_lt (snd p) (fst q))
                 (shading (plot_oas_window Sample.rec_panel 5)).
Proof.
  split; [reflexivity|].
  apply (shading_within_window Sample.rec_panel 5
           [Some 0%Q; Some 1%Q; None; Some 1%Q; Some 0%Q]).
  - lia.
  - repeat constructor.
  - reflexivity.
Defined.

(* ================================================================== *)
(** * The dashboard *)
(* ================================================================== *)

(** ** subset_by_range *)

(** X25: the ranges of the dashboard.  [subset_by_range] returns a frame
    exactly for the labels 1Y, 3Y, 5Y and 20Y, namely the window of that many
    years, and raises [KeyError] with the label for every other label. *)
Theorem subset_by_range_keys {V : Type} (df : DataFrame V) (range_label : string) :
  (forall y, In (range_label, y) App.years ->
     App.subset_by_range df range_label = App.Done (window_rows df y)) /\
  (~ In range_label ["1Y"; "3Y"; "5Y"; "20Y"] ->
     App.subset_by_range df range_label = App.KeyError range_label) /\
  (forall sub, App.subset_by_range df range_label = App.Done sub ->
     In range_label ["1Y"; "3Y"; "5Y"; "20Y"]).
Proof.
  unfold App.subset_by_range, App.years. split; [|split].
  - intros y [[= <- <-]|[[= <- <-]|[[= <- <-]|[[= <- <-]|[]]]]]; reflexivity.
  - intros Hn. cbn [find fst snd].
    rewrite !(proj2 (String.eqb_neq _ _)); [reflexivity|..];
      intros E; apply Hn; rewrite <- E; simpl; auto.
  - intros sub. cbn [find fst snd].
    destruct (String.eqb "1Y" range_label) eqn:E1;
      [apply String.eqb_eq in E1; rewrite <- E1; simpl; auto|].
    destruct (String.eqb "3Y" range_label) eqn:E2;
      [apply String.eqb_eq in E2; rewrite <- E2; simpl; auto|].
    destruct (String.eqb "5Y" range_label) eqn:E3;
      [apply String.eqb_eq in E3; rewrite <- E3; simpl; auto|].
    destruct (String.eqb "20Y" range_label) eqn:E4;
      [apply String.eqb_eq in E4; rewrite <- E4; simpl; auto|].
    discriminate.
Qed.

(** ** build_current_table *)

Lemma table_fold_ok df from ms rows :
  fold_left (table_step df from) ms (Ok []) = Ok rows ->
  forall m vals, In m ms -> get_col df (fst m) = Some vals -> vals <> [].
Proof.
  intros H m vals Hm Hg ->.
  rewrite table_fold_raise in H; [discriminate H|]. now exists m.
Qed.

Lemma app_metrics_split : App.metrics = Charts.metrics ++ bucket_metrics.
Proof. reflexivity. Qed.

(** X26: the dashboard's table extends the chart script's.  When the
    dashboard's [build_current_table] returns, the chart script's returns
    too and the dashboard's rows are those rows followed by the rows of the
    rating buckets; on a frame without bucket columns the two tables are the
    same; and when the chart script's raises, so does the dashboard's. *)
Theorem dashboard_table_extends (df : DataFrame Q) :
  (forall rows', App.build_current_table df = Ok rows' ->
     exists rows, build_current_table df = Ok rows /\
       rows' = rows ++ flat_map (summary_rows df
                                   (option_map (sub_years 1) (index_max (index df))))
                                bucket_metrics) /\
  (forall rows, build_current_table df = Ok rows ->
     (forall m, In m bucket_metrics -> get_col df (fst m) = None) ->
     App.build_current_table df = Ok rows) /\
  (forall e, build_current_table df = Raise e ->
     App.build_current_table df = Raise e).
Proof.
  unfold App.build_current_table, build_current_table.
  set (from := option_map (sub_years 1) (index_max (index df))).
  rewrite app_metrics_split, fold_left_app. split; [|split].
  - intros rows' H. rewrite <- fold_left_app in H.
    pose proof (table_fold_ok _ _ _ _ H) as Hne.
    rewrite table_fold in H by exact Hne. injection H as <-.
    rewrite table_fold.
    + eexists. split; [reflexivity|]. 
      exact (flat_map_app (summary_rows df from) Charts.metrics bucket_metrics).
    + intros m vals Hm. apply Hne. apply in_or_app. now left.
  - intros rows -> Hnone. rewrite table_fold.
    + replace (flat_map (summary_rows df from) bucket_metrics)
        with (@nil SummaryRow); [now rewrite app_nil_r|].
      symmetry.
      unfold bucket_metrics, flat_map, summary_rows.
      rewrite !Hnone by (simpl; auto 10). reflexivity.
    + intros m vals Hm Hg. rewrite Hnone in Hg by assumption. discriminate Hg.
  - intros e ->. apply table_step_raise.
Qed.

(** ** The shading loop *)

Lemma spans_of_skip_inactive (pre l : list (Stamp * bool)) :
  all_inactive pre -> spans_of (pre ++ l) = spans_of l.
Proof.
  intros Hpre. unfold spans_of. rewrite loop_app.
  rewrite (loop_inactive pre (mkSpanState false None []) Hpre eq_refl).
  destruct l as [|x l]; [reflexivity|].
  rewrite map_app, last_app_nonempty by discriminate. reflexivity.
Qed.

Lemma combine_app_r {A B : Type} (a b : list B) :
  forall l : list A,
  combine l (a ++ b)
  = combine (firstn (List.length a) l) a ++ combine (skipn (List.length a) l) b.
Proof.
  induction a as [|x a IH]; intros l; [reflexivity|].
  destruct l as [|d l]; [reflexivity|]. simpl. f_equal. apply IH.
Qed.

Lemma thresholded_missing (idx : list Stamp) (k : nat) :
  thresholded (combine idx (repeat None k)) = [].
Proof.
  revert idx. induction k as [|k IH]; intros [|d idx]; try reflexivity.
  exact (IH idx).
Qed.

Lemma thresholded_app (l m : list (Stamp * option Q)) :
  thresholded (l ++ m) = thresholded l ++ thresholded m.
Proof. unfold thresholded, dropna_rows. now rewrite flat_map_app, map_app. Qed.

Lemma flags_missing (idx : list Stamp) (k : nat) :
  all_inactive (map (fun r : Stamp * option Q =>
                       (fst r, match snd r with Some v => active v | None => false end))
                    (combine idx (repeat None k))).
Proof.
  revert idx. induction k as [|k IH]; intros [|d idx]; try constructor.
  - reflexivity.
  - apply IH.
Qed.

Lemma flags_observed (idx : list Stamp) (rest : list (option Q)) :
  Forall (fun v => v <> None) rest ->
  map (fun r : Stamp * option Q =>
         (fst r, match snd r with Some v => active v | None => false end))
      (combine idx rest)
  = thresholded (combine idx rest).
Proof.
  intros H. revert idx. induction H as [|v rest Hv _ IH]; intros [|d idx];
    try reflexivity.
  destruct v as [v|]; [|now elim Hv].
  simpl. unfold thresholded, dropna_rows in *. simpl. f_equal. apply IH.
Qed.

(** X27: the dashboard shades what the chart script shades.  On a frame
    whose recession indicator is missing on its first rows only, as in a
    merged panel, the intervals the dashboard's loop shades are those of
    [recession_spans]. *)
Theorem shaded_spans_agree (sub : DataFrame Q) (k : nat) (rest : list (option Q))
  (Hcol : get_col sub "USREC" = Some (repeat None k ++ rest))
  (Hrest : Forall (fun v => v <> None) rest) :
  App.shaded_spans sub = recession_spans sub.
Proof.
  unfold App.shaded_spans, recession_spans. rewrite Hcol.
  change (map (fun r => (fst r, active (snd r)))
              (dropna_rows (combine (index sub) (repeat None k ++ rest))))
    with (thresholded (combine (index sub) (repeat None k ++ rest))).
  rewrite combine_app_r, map_app, thresholded_app, thresholded_missing.
  rewrite spans_of_skip_inactive by apply flags_missing.
  now rewrite flags_observed.
Qed.

Lemma shaded_spans_agree_witness :
  App.shaded_spans (mkDF [Sample.jan 1; Sample.jan 2; Sample.jan 3]
                         [("USREC", [None; Some 1%Q; Some 0%Q])])
  = [(Sample.jan 2, Sample.jan 3)].
Proof.
  rewrite (shaded_spans_agree _ 1 [Some 1%Q; Some 0%Q]).
  - reflexivity.
  - reflexivity.
  - repeat constructor; discriminate.
Defined.

(** ** convert_units *)

(** The loop of [convert_units] over the chosen columns. *)
Local Abbreviation scale_cols :=
  (fold_left (fun scaled c => match get_col scaled c with
                              | Some vals => set_col scaled c (App.times_100 vals)
                              | None => scaled
                              end)).

Lemma scale_cols_get (cs : list string) :
  forall (df : DataFrame Q) (c : string),
  get_col (scale_cols cs df) c
  = option_map (Nat.iter (count_occ string_dec cs c) App.times_100) (get_col df c).
Proof.
  induction cs as [|c0 cs IH]; intros df c.
  - simpl. now destruct (get_col df c).
  - cbn [fold_left]. rewrite IH. cbn [count_occ].
    destruct (string_dec c0 c) as [->|Hne].
    + destruct (get_col df c) as [vals|] eqn:E.
      * rewrite get_col_set_col_same. cbn [option_map].
        now rewrite Nat.iter_succ_r.
      * now rewrite E.
    + destruct (get_col df c0) as [v0|]; [|reflexivity].
      now rewrite (get_col_set_col_other df c0 c (App.times_100 v0) Hne).
Qed.

Lemma scale_cols_frame (cs : list string) :
  forall df : DataFrame Q,
  index (scale_cols cs df) = index df /\
  map fst (columns (scale_cols cs df)) = map fst (columns df) /\
  (well_formed df -> well_formed (scale_cols cs df)).
Proof.
  induction cs as [|c0 cs IH]; intros df; [now repeat split|].
  cbn [fold_left].
  destruct (get_col df c0) as [v0|] eqn:E; [|apply IH].
  destruct (IH (set_col df c0 (App.times_100 v0))) as [Hi [Hn Hw]].
  split; [exact Hi|]. split.
  - rewrite Hn. unfold set_col. cbn [columns]. apply assign_names.
    apply get_col_In in E. change c0 with (fst (c0, v0)). now apply in_map.
  - intros Hwf. apply Hw. apply set_col_wf; [assumption|].
    unfold App.times_100. rewrite length_map.
    exact (get_col_length df c0 v0 Hwf E).
Qed.

Lemma count_occ_filter_nodup (p : string -> bool) (l : list string) (c : string) :
  NoDup l -> In c l ->
  count_occ string_dec (filter p l) c = if p c then 1%nat else 0%nat.
Proof.
  induction 1 as [|a l Hnot Hn IH]; intros Hin; [destruct Hin|].
  destruct Hin as [->|Hin].
  - assert (H0 : count_occ string_dec (filter p l) c = 0%nat).
    { apply count_occ_not_In. intros H. apply filter_In in H. tauto. }
    simpl. destruct (p c); [|exact H0].
    simpl. destruct (string_dec c c); [now rewrite H0|congruence].
  - assert (Hne : a <> c) by (intros ->; contradiction).
    simpl. destruct (p a); [|now apply IH].
    simpl. destruct (string_dec a c); [contradiction|now apply IH].
Qed.

(** X28: scaling named columns.  In any unit other than Percent,
    [convert_units] with a list of columns leaves the dates and the column
    names as they are and creates no column; a column is multiplied by 100
    once for each time the list names it, so a column the list leaves out is
    unchanged and one it names twice is multiplied by 10000.  In Percent the
    frame is returned as it is. *)
Theorem convert_units_named (df : DataFrame Q) (unit : string) (cols : list string) :
  App.convert_units df "Percent" (Some cols) = df /\
  (unit <> "Percent" ->
     index (App.convert_units df unit (Some cols)) = index df /\
     map fst (columns (App.convert_units df unit (Some cols))) = map fst (columns df) /\
     (well_formed df -> well_formed (App.convert_units df unit (Some cols))) /\
     forall c, get_col (App.convert_units df unit (Some cols)) c
               = option_map (Nat.iter (count_occ string_dec cols c) App.times_100)
                            (get_col df c)).
Proof.
  split; [reflexivity|].
  intros Hu. apply String.eqb_neq in Hu. unfold App.convert_units. rewrite Hu.
  destruct (scale_cols_frame cols df) as [Hi [Hn Hw]].
  repeat split; try assumption. intros c. apply scale_cols_get.
Qed.

(** X29: scaling by default.  In any unit other than Percent and with no
    list of columns, on a frame whose column names are distinct,
    [convert_units] multiplies by 100, once, exactly the columns whose name
    contains OAS, SPREAD, DGS or BAA_YIELD and does not end in USREC; every
    other column, the recession indicator among them, keeps its values. *)
Theorem convert_units_default (df : DataFrame Q) (unit : string)
  (Hunit : unit <> "Percent")
  (Hnames : NoDup (map fst (columns df))) :
  (forall c vals, get_col df c = Some vals ->
     get_col (App.convert_units df unit None) c
     = Some (if App.in_units c then App.times_100 vals else vals)) /\
  get_col (App.convert_units df unit None) "USREC" = get_col df "USREC" /\
  index (App.convert_units df unit None) = index df /\
  map fst (columns (App.convert_units df unit None)) = map fst (columns df).
Proof.
  apply String.eqb_neq in Hunit. unfold App.convert_units. rewrite Hunit.
  set (cs := filter App.in_units (map fst (columns df))).
  assert (Hget : forall c vals, get_col df c = Some vals ->
            get_col (scale_cols cs df) c
            = Some (if App.in_units c then App.times_100 vals else vals)).
  { intros c vals Hg. rewrite scale_cols_get, Hg. cbn [option_map]. f_equal.
    unfold cs. rewrite count_occ_filter_nodup; [|assumption|].
    - now destruct (App.in_units c).
    - apply get_col_In in Hg. change c with (fst (c, vals)). now apply in_map. }
  destruct (scale_cols_frame cs df) as [Hi [Hn _]].
  split; [exact Hget|]. split; [|split; assumption].
  destruct (get_col df "USREC") as [vals|] eqn:E.
  - now rewrite (Hget _ _ E).
  - now rewrite scale_cols_get, E.
Qed.

Lemma convert_units_default_witness :
  get_col (App.convert_units Sample.rec_panel "bps" None) "HY_OAS"
  = Some (App.times_100 [Some (4 # 1); Some (5 # 1); Some (6 # 1);
                         Some (5 # 1); Some (4 # 1)]%Q) /\
  get_col (App.convert_units Sample.rec_panel "bps" None) "USREC"
  = get_col Sample.rec_panel "USREC".
Proof.
  assert (Hu : "bps" <> "Percent") by discriminate.
  assert (Hn : NoDup (map fst (columns Sample.rec_panel)))
    by (simpl; repeat constructor; simpl; intuition discriminate).
  destruct (convert_units_default Sample.rec_panel "bps" Hu Hn) as [Hget [Hrec _]].
  split; [|exact Hrec].
  exact (Hget "HY_OAS" _ eq_refl).
Defined.

(* ================================================================== *)
(** * Sources that repeat a date *)
(* ================================================================== *)

Section RepeatedDates.
Context {V : Type}.
Implicit Types (frames : list (DataFrame V)) (f g : DataFrame V).

Lemma concat_refuses frames f g d :
  In g frames -> ~ NoDup (index g) ->
  In f frames -> In d (index f) -> ~ In d (index g) ->
  concat_axis1 frames
  = Raise (InvalidIndexError
             "Reindexing only valid with uniquely valued Index objects").
Proof.
  intros Hg Hdup Hf Hd Hnot. unfold concat_axis1.
  destruct frames as [|f0 rest]; [destruct Hg|].
  remember (f0 :: rest) as fs eqn:Hfs. clear Hfs f0 rest.
  destruct (find (fun h => negb (is_unique (index h))) fs) as [t|] eqn:Et.
  - destruct (forallb _ fs) eqn:Eall; [|reflexivity].
    exfalso. rewrite forallb_forall in Eall.
    assert (Hgt : index g = index t).
    { specialize (Eall g Hg). apply orb_true_iff in Eall.
      destruct Eall as [E|E]; [now apply index_equals_eq|].
      unfold fits in E. apply andb_true_iff in E. destruct E as [E _].
      apply is_unique_NoDup in E. contradiction. }
    specialize (Eall f Hf). apply orb_true_iff in Eall.
    destruct Eall as [E|E].
    + apply index_equals_eq in E. apply Hnot. now rewrite Hgt, <- E.
    + unfold fits in E. apply andb_true_iff in E. destruct E as [_ E].
      apply orb_true_iff in E. destruct E as [E|E].
      * destruct (index f); [destruct Hd|discriminate E].
      * apply andb_true_iff in E. destruct E as [_ E].
        rewrite forallb_forall in E. specialize (E d Hd).
        apply existsb_exists in E. destruct E as [x [Hx Ex]].
        apply stamp_eqb_eq in Ex. subst x. apply Hnot. now rewrite Hgt.
  - exfalso. apply Hdup. apply is_unique_NoDup.
    pose proof (find_none _ _ Et g Hg) as E.
    now apply negb_false_iff in E.
Qed.

(** X30: a source merged alone keeps every row.  When its dates are in
    ascending order, repeated dates included, none of them missing, and its
    columns are as long as its index, the merge of that one source is the
    source filled forward. *)
Theorem single_source_keeps_rows f :
  StronglySorted stamp_le (index f) ->
  Forall (fun d => d <> NaT) (index f) ->
  well_formed f ->
  merge_frames [f] = Ok (ffill f).
Proof.
  intros Hs _ Hwf. unfold merge_frames.
  rewrite (concat_single f Hwf). now rewrite (sort_index_sorted_id f Hs Hwf).
Qed.

(** X31: a source that repeats a date cannot be merged with a source that
    has a date it lacks: [pd.concat] would have to reindex it, and the merge
    raises [InvalidIndexError] instead of giving a Panel. *)
Theorem merge_refuses_repeated_date frames f g d :
  In g frames -> ~ NoDup (index g) ->
  In f frames -> In d (index f) -> ~ In d (index g) ->
  merge_frames frames
  = Raise (InvalidIndexError
             "Reindexing only valid with uniquely valued Index objects").
Proof.
  intros Hg Hdup Hf Hd Hnot. unfold merge_frames.
  rewrite (concat_refuses frames f g d Hg Hdup Hf Hd Hnot).
  destruct frames; [destruct Hg|reflexivity].
Qed.

End RepeatedDates.

Lemma single_source_keeps_rows_witness :
  merge_frames [Sample.ig_twice] = Ok Sample.ig_twice.
Proof.
  rewrite (single_source_keeps_rows Sample.ig_twice).
  - reflexivity.
  - unfold Sample.ig_twice, Sample.jan. cbn [index]. repeat constructor.
  - unfold Sample.ig_twice, Sample.jan. cbn [index].
    repeat (constructor; [discriminate|]). constructor.
  - unfold well_formed, Sample.ig_twice. cbn [columns index snd].
    repeat constructor.
Defined.

Lemma merge_refuses_repeated_date_witness :
  merge_frames [Sample.ig_two_nat; Sample.hy_frame]
  = Raise (InvalidIndexError
             "Reindexing only valid with uniquely valued Index objects").
Proof.
  apply (merge_refuses_repeated_date [Sample.ig_two_nat; Sample.hy_frame]
           Sample.hy_frame Sample.ig_two_nat (Sample.jan 3)).
  - simpl. auto.
  - unfold Sample.ig_two_nat. cbn [index]. intros Hn.
    inversion Hn as [|? ? _ Hn']; subst. inversion Hn' as [|? ? Hin _]; subst.
    apply Hin. now left.
  - simpl. auto.
  - unfold Sample.hy_frame. cbn [index]. simpl. auto.
  - unfold Sample.ig_two_nat, Sample.jan, NaT. cbn [index]. simpl.
    intuition discriminate.
Defined.
